(* ===================================================================== *)
(*  X-glish backend: the keep/translate classifier, the cohesion pass,   *)
(*  the chunk masker, the restorer, the romanizer's schwa rule and the   *)
(*  micro-batching translator queue, embedded from                       *)
(*    xglish_mixer.py, language_rules.py, translator_service.py,         *)
(*    nlp_engine.py, resource_loader.py, server_extension.py             *)
(* ===================================================================== *)

From Stdlib Require Import ZArith NArith QArith Qminmax Lia Lqa List Ascii
  String DecimalString DecimalNat.
From stdpp Require Import base option list gmap sets.

Open Scope nat_scope.

(* --------------------------------------------------------------------- *)
(*  Python strings                                                       *)
(* --------------------------------------------------------------------- *)

(* A Python str is a sequence of Unicode code points.  len, indexing, \d,
   \s and isalnum all work per code point, so a string is a list of code
   points here; ASCII literals of the source are written [lit "..."]. *)
Abbreviation char := N (only parsing).
Abbreviation str := (list N) (only parsing).

Definition ch (a : ascii) : char := N_of_ascii a.

Definition lit (s : string) : str := map N_of_ascii (list_ascii_of_string s).

Global Arguments ch : simpl never.
Global Arguments lit : simpl never.

Fixpoint startswith (p s : str) : bool :=
  match p, s with
  | [], _ => true
  | _ :: _, [] => false
  | a :: p', b :: s' => N.eqb a b && startswith p' s'
  end.

Definition endswith (suf s : str) : bool := startswith (rev suf) (rev s).

(* str.endswith(tuple): any of the suffixes; the empty tuple gives False *)
Definition endswith_any (sufs : list str) (s : str) : bool :=
  existsb (fun suf => endswith suf s) sufs.

(* sep.join(parts) *)
Fixpoint join (sep : str) (parts : list str) : str :=
  match parts with
  | [] => []
  | [p] => p
  | p :: rest => p ++ sep ++ join sep rest
  end.

(* f"{n}" for a non-negative int: its decimal digits *)
Definition dec (n : nat) : str :=
  lit (NilEmpty.string_of_uint (Nat.to_uint n)).

(* The ASCII fragment of the Unicode character database. *)
Definition ascii_isspace (c : char) : bool :=
  (N.eqb c 32 || (N.leb 9 c && N.leb c 13) || (N.leb 28 c && N.leb c 31))%N.
Definition ascii_isdigit (c : char) : bool := (N.leb 48 c && N.leb c 57)%N.
Definition ascii_isupper (c : char) : bool := (N.leb 65 c && N.leb c 90)%N.
Definition ascii_islower (c : char) : bool := (N.leb 97 c && N.leb c 122)%N.
Definition ascii_isalnum (c : char) : bool :=
  ascii_isdigit c || ascii_isupper c || ascii_islower c.
Definition ascii_lower (s : str) : str :=
  map (fun c => if ascii_isupper c then (c + 32)%N else c) s.

Definition is_ascii (s : str) : bool := forallb (fun c => (c <? 128)%N) s.

(* The Unicode character database behind str.lower, str.strip, str.isupper,
   str.isalnum and the regex classes \s, \d, \w.  It is not part of the
   repository and is taken as a parameter; every such database agrees with
   the ASCII tables on code points below 128. *)
Record Unicode := {
  u_lower   : str -> str;      (* str.lower()                            *)
  u_isspace : char -> bool;    (* str.isspace / \s / what strip removes  *)
  u_isdigit : char -> bool;    (* \d                                     *)
  u_isalnum : char -> bool;    (* str.isalnum (one character)            *)
  u_isupper : char -> bool;    (* uppercase cased character              *)
  u_islower : char -> bool;    (* lowercase or titlecase cased character *)
  u_lower_ascii : forall s, is_ascii s = true -> u_lower s = ascii_lower s;
  u_isspace_ascii : forall c, (c < 128)%N -> u_isspace c = ascii_isspace c;
  u_isdigit_ascii : forall c, (c < 128)%N -> u_isdigit c = ascii_isdigit c;
  u_isalnum_ascii : forall c, (c < 128)%N -> u_isalnum c = ascii_isalnum c;
  u_isupper_ascii : forall c, (c < 128)%N -> u_isupper c = ascii_isupper c;
  u_islower_ascii : forall c, (c < 128)%N -> u_islower c = ascii_islower c
}.

(* The ASCII-only database, used to run the model on ASCII inputs. *)
Definition ascii_unicode : Unicode :=
  {| u_lower := ascii_lower; u_isspace := ascii_isspace;
     u_isdigit := ascii_isdigit; u_isalnum := ascii_isalnum;
     u_isupper := ascii_isupper; u_islower := ascii_islower;
     u_lower_ascii := fun _ _ => eq_refl;
     u_isspace_ascii := fun _ _ => eq_refl;
     u_isdigit_ascii := fun _ _ => eq_refl;
     u_isalnum_ascii := fun _ _ => eq_refl;
     u_isupper_ascii := fun _ _ => eq_refl;
     u_islower_ascii := fun _ _ => eq_refl |}.

Section Strings.
Context (U : Unicode).

(* `not s.strip()`: nothing is left once whitespace is stripped *)
Definition blank (s : str) : bool := forallb (u_isspace U) s.

(* str.isupper(): no lowercase or titlecase character and at least one
   uppercase one *)
Definition isupper (s : str) : bool :=
  forallb (fun c => negb (u_islower U c)) s && existsb (u_isupper U) s.

(* s[0].isupper(); s[0] raises on the empty string, every caller checks
   len(s) > 1 first *)
Definition first_isupper (s : str) : bool :=
  match s with
  | [] => false
  | c :: _ => isupper [c]
  end.
End Strings.

(* --------------------------------------------------------------------- *)
(*  resource_loader: the process-wide tables                             *)
(* --------------------------------------------------------------------- *)

(* Scores, thresholds and Zipf frequencies are numbers of the source (int
   or float); they are taken as exact rationals. *)
Record Resources := {
  FORMALITY_SCORES  : gmap str Q;
  MANUAL_KEEP_WORDS : gset str;
  TECH_TERMS        : gset str;
  zipf_frequency    : str -> Q     (* wordfreq.zipf_frequency(word, 'en') *)
}.

(* a < b on numbers *)
Definition Qltb (a b : Q) : bool := negb (Qle_bool b a).

(* --------------------------------------------------------------------- *)
(*  xglish_mixer.is_keep_word                                            *)
(* --------------------------------------------------------------------- *)

Definition CONTRACTIONS : list str :=
  [lit "n't"; lit "'s"; lit "'m"; lit "'re"; lit "'ll"; lit "'ve"; lit "'d";
   lit "nt"].

(* `tag and tag.startswith(p)` for a tag that may be None *)
Definition tag_startswith (p : str) (tag : option str) : bool :=
  match tag with
  | Some t => startswith p t
  | None => false
  end.

Section Classifier.
Context (U : Unicode) (R : Resources).

Definition is_contraction (word : str) : bool :=
  let word_low := u_lower U word in
  bool_decide (word_low ∈ CONTRACTIONS) || endswith (lit "n't") word_low.

Definition is_keep_word (word : str) (tag : option str) (index : nat)
    (formality_threshold : Q) : bool :=
  let word_low := u_lower U word in
  if blank U word then false
  (* Rule -1: structural contractions *)
  else if is_contraction word then false
  (* Rule 0.5: tech terms *)
  else if bool_decide (word_low ∈ TECH_TERMS R) then true
  (* Rule 0.6: manual whitelist *)
  else if bool_decide (word_low ∈ MANUAL_KEEP_WORDS R) then true
  (* Rule 0.7: verbs *)
  else if tag_startswith (lit "VB") tag then false
  else
    (* Rule 1: formality score *)
    match FORMALITY_SCORES R !! word_low with
    | Some scale => Qle_bool (10 - formality_threshold) scale
    | None =>
      (* Rule 2: acronyms *)
      if (1 <? length word) && isupper U word then true
      (* Rule 3: proper nouns *)
      else if (1 <? length word) && first_isupper U word
              && (negb (index =? 0) || tag_startswith (lit "NNP") tag)
      then true
      else
        (* Rule 4: frequency fallback *)
        let freq := zipf_frequency R word in
        if Qltb freq formality_threshold then true
        else if tag_startswith (lit "NN") tag
                && Qltb freq (formality_threshold + (3 # 2)) then true
        else false
    end.
End Classifier.

(* --------------------------------------------------------------------- *)
(*  language_rules                                                       *)
(* --------------------------------------------------------------------- *)

(* dict.get(key, default) on a dict literal, kept in insertion order *)
Fixpoint assoc {V} (k : str) (d : list (str * V)) : option V :=
  match d with
  | [] => None
  | (k', v) :: d' => if bool_decide (k = k') then Some v else assoc k d'
  end.

Definition SCRIPT_MAP : list (str * str) :=
  [(lit "hi", lit "Devanagari"); (lit "bn", lit "Bengali");
   (lit "ta", lit "Tamil"); (lit "te", lit "Telugu");
   (lit "mr", lit "Devanagari"); (lit "gu", lit "Gujarati");
   (lit "kn", lit "Kannada"); (lit "ml", lit "Malayalam");
   (lit "pa", lit "Gurmukhi"); (lit "or", lit "Oriya");
   (lit "as", lit "Assamese"); (lit "ur", lit "Urdu");
   (lit "sa", lit "Devanagari"); (lit "ne", lit "Devanagari");
   (lit "sd", lit "Arabic"); (lit "ks", lit "Arabic");
   (lit "gom", lit "Devanagari"); (lit "mai", lit "Devanagari");
   (lit "doi", lit "Devanagari"); (lit "brx", lit "Devanagari");
   (lit "mni", lit "Bengali"); (lit "sat", lit "OlChiki")].

Definition get_script_name (lang_code : str) : str :=
  default (lit "Devanagari") (assoc lang_code SCRIPT_MAP).

Definition hindi_suffixes : list str :=
  [lit "na"; lit "la"; lit "ta"; lit "da"; lit "ga"; lit "ya"; lit "ka";
   lit "ra"; lit "ha"; lit "ma"; lit "ja"].
Definition vowel_suffixes : list str :=
  [lit "a"; lit "i"; lit "u"; lit "e"; lit "o"].

Definition SCHWA_PROTECTION_RULES : list (str * list str) :=
  [(lit "hi", hindi_suffixes);
   (lit "mr", hindi_suffixes);
   (lit "gu", [lit "na"; lit "la"; lit "ta"; lit "da"; lit "ga"; lit "ya";
               lit "ka"]);
   (lit "bn", [lit "o"; lit "a"]);
   (lit "pa", [lit "na"; lit "la"; lit "ta"]);
   (lit "ur", [lit "ah"; lit "eh"]);
   (lit "ta", vowel_suffixes);
   (lit "te", vowel_suffixes);
   (lit "kn", vowel_suffixes);
   (lit "ml", vowel_suffixes);
   (lit "sa", vowel_suffixes ++ [lit "m"; lit "h"])].

Definition PHONETIC_FIXES : list (str * list (str * str)) :=
  [(lit "hi", [(lit "Phr", lit "Fr"); (lit "phr", lit "fr"); (lit "Ph", lit "F");
               (lit "ph", lit "f"); (lit "v", lit "v"); (lit "w", lit "v")]);
   (lit "mr", [(lit "Phr", lit "Fr"); (lit "phr", lit "fr"); (lit "v", lit "v");
               (lit "zh", lit "jh")]);
   (lit "bn", [(lit "v", lit "b"); (lit "V", lit "B"); (lit "w", lit "b");
               (lit "a", lit "o")]);
   (lit "or", [(lit "v", lit "b"); (lit "w", lit "b"); (lit "a", lit "o")]);
   (lit "as", [(lit "v", lit "b"); (lit "w", lit "b"); (lit "ch", lit "s")]);
   (lit "ta", [(lit "zh", lit "l"); (lit "th", lit "dh")]);
   (lit "te", [(lit "th", lit "d"); (lit "T", lit "t")]);
   (lit "ml", [(lit "zh", lit "l"); (lit "th", lit "d")]);
   (lit "ur", [(lit "q", lit "k"); (lit "z", lit "j")]);
   (lit "pa", [(lit "bh", lit "p"); (lit "dh", lit "t")])].

Definition NO_SCHWA_DELETION : list str :=
  [lit "ta"; lit "te"; lit "kn"; lit "ml";   (* Dravidian *)
   lit "sa";                                 (* Sanskrit *)
   lit "ne";                                 (* Nepali *)
   lit "as"; lit "or"; lit "bn";             (* Eastern *)
   lit "mni"; lit "sat"].

Definition is_schwa_deletion_enabled (lang_code : str) : bool :=
  negb (bool_decide (lang_code ∈ NO_SCHWA_DELETION)).

(* --------------------------------------------------------------------- *)
(*  The romanizer's per-word schwa rule (xglish_mixer, lines 202-208)     *)
(* --------------------------------------------------------------------- *)

(* w[-2] *)
Definition penultimate (w : str) : option char := w !! (length w - 2).

(* c in 'aeiou' for a single character c *)
Definition is_vowel (c : char) : bool :=
  bool_decide (c ∈ lit "aeiou").

Definition schwa_word (should_schwa_delete : bool) (protected_suffixes : list str)
    (w : str) : str :=
  if should_schwa_delete && (3 <? length w) && endswith (lit "a") w then
    let is_vowel_pen :=
      match penultimate w with Some c => is_vowel c | None => false end in
    if negb is_vowel_pen && negb (endswith_any protected_suffixes w)
    then removelast w      (* w[:-1] *)
    else w
  else w.

(* the rule as the mixer applies it for a target language *)
Definition schwa_for (target_lang : str) (w : str) : str :=
  schwa_word (is_schwa_deletion_enabled target_lang)
             (default [] (assoc target_lang SCHWA_PROTECTION_RULES)) w.

(* the protected suffixes the mixer looks up for a language *)
Definition protected_suffixes (target_lang : str) : list str :=
  default [] (assoc target_lang SCHWA_PROTECTION_RULES).


(* --------------------------------------------------------------------- *)
(*  External collaborators                                               *)
(* --------------------------------------------------------------------- *)

(* What LibreTranslate's language registry gives for the pair en -> target:
   load_languages() raising, a missing language, a missing translation, or
   a translator whose translate() may itself raise (None). *)
Inductive libre_engine :=
  | LookupRaised
  | NoLanguage
  | NoTranslator
  | Translator (translate : str -> option str).

(* Everything the modelled code calls but does not define.  A result of
   None stands for a raised exception. *)
Record World := {
  (* config.get_translation_model() *)
  translation_model : str;
  (* nlp_engine.tweet_tokenizer.tokenize *)
  tokenize : str -> list str;
  (* nlp_engine.normalize_slang and nlp_engine.get_pos_tags (spaCy and
     NLTK taggers), nltk.pos_tag *)
  normalize_slang : str -> option str;
  get_pos_tags : str -> option (list (str * str));
  pos_tag : list str -> option (list (str * str));
  (* nltk.word_tokenize *)
  word_tokenize : str -> list str;
  (* aksharamukha transliterate.process(source, target, text) *)
  transliterate_process : str -> str -> str -> option str;
  (* nlp_engine.extract_and_mask_nouns / restore_nouns *)
  extract_and_mask_nouns : str -> option (str * list (str * str));
  restore_nouns : str -> list (str * str) -> option str;
  (* libretranslate: load_languages() and get_translation for a target *)
  libre_lookup : str -> libre_engine;
  (* IndicTrans2: model loading, preprocess_batch, generate, batch_decode
     and postprocess_batch on a list of sentences and a FLORES code *)
  indic_generate : list str -> str -> option (list str)
}.

(* --------------------------------------------------------------------- *)
(*  translator_service: the single-item and bulk translation paths       *)
(* --------------------------------------------------------------------- *)

Definition ISO_TO_INDICTRANS2 : list (str * str) :=
  [(lit "hi", lit "hin_Deva"); (lit "en", lit "eng_Latn");
   (lit "bn", lit "ben_Beng"); (lit "ta", lit "tam_Taml");
   (lit "te", lit "tel_Telu"); (lit "mr", lit "mar_Deva");
   (lit "gu", lit "guj_Gujr"); (lit "kn", lit "kan_Knda");
   (lit "ml", lit "mal_Mlym"); (lit "pa", lit "pan_Guru");
   (lit "or", lit "ory_Orya"); (lit "as", lit "asm_Beng");
   (lit "ur", lit "urd_Arab"); (lit "sa", lit "san_Deva");
   (lit "ne", lit "npi_Deva"); (lit "sd", lit "snd_Arab");
   (lit "ks", lit "kas_Arab"); (lit "gom", lit "gom_Deva");
   (lit "mai", lit "mai_Deva"); (lit "doi", lit "doi_Deva");
   (lit "brx", lit "brx_Deva"); (lit "mni", lit "mni_Beng")].

Definition tgt_lang_code (target_lang : str) : str :=
  default (lit "hin_Deva") (assoc target_lang ISO_TO_INDICTRANS2).

Section TranslatorService.
Context (U : Unicode) (W : World).

(* the noun-masking prologue shared by both single-item translators *)
Definition mask_nouns (text : str) (preserve_nouns : bool)
    : option (str * list (str * str)) :=
  if preserve_nouns then extract_and_mask_nouns W text else Some (text, []).

(* `if preserve_nouns and noun_map: translated = restore_nouns(...)` *)
Definition unmask_nouns (translated : str) (preserve_nouns : bool)
    (noun_map : list (str * str)) : option str :=
  match noun_map with
  | _ :: _ => if preserve_nouns then restore_nouns W translated noun_map
              else Some translated
  | [] => Some translated
  end.

(* the body of the try block of translate_batch_libretranslate *)
Definition libretranslate_try (text target_lang : str) (preserve_nouns : bool)
    : option str :=
  '(masked_text, noun_map) ← mask_nouns text preserve_nouns;
  match libre_lookup W target_lang with
  | LookupRaised => None
  | NoLanguage => Some text
  | NoTranslator => Some text
  | Translator translate =>
      translated ← translate masked_text;
      unmask_nouns translated preserve_nouns noun_map
  end.

Definition translate_batch_libretranslate (text target_lang : str)
    (preserve_nouns : bool) : str :=
  if blank U text then text
  else match libretranslate_try text target_lang preserve_nouns with
       | Some translated => translated
       | None => text                    (* except Exception: return text *)
       end.

(* the body of the try block of translate_batch_indictrans2 *)
Definition indictrans2_try (text target_lang : str) (preserve_nouns : bool)
    : option str :=
  '(masked_text, noun_map) ← mask_nouns text preserve_nouns;
  translations ← indic_generate W [masked_text] (tgt_lang_code target_lang);
  translated ← head translations;               (* translations[0] *)
  unmask_nouns translated preserve_nouns noun_map.

Definition translate_batch_indictrans2 (text target_lang : str)
    (preserve_nouns : bool) : str :=
  if blank U text then text
  else match indictrans2_try text target_lang preserve_nouns with
       | Some translated => translated
       | None => translate_batch_libretranslate text target_lang preserve_nouns
       end.

Definition use_indictrans : bool :=
  bool_decide (translation_model W = lit "indictrans2").

(* translate_batch: route to the selected model *)
Definition translate_batch (text target_lang : str) (preserve_nouns : bool)
    : str :=
  if use_indictrans
  then translate_batch_indictrans2 text target_lang preserve_nouns
  else translate_batch_libretranslate text target_lang preserve_nouns.

(* translate_texts_indictrans2: the bulk call *)
Definition translate_texts_indictrans2 (texts : list str) (target_lang : str)
    : list str :=
  match texts with
  | [] => []
  | _ :: _ =>
      let texts := map (fun t => if blank U t then [] else t) texts in
      match indic_generate W texts (tgt_lang_code target_lang) with
      | Some translations => translations
      | None => texts                  (* except Exception: return texts *)
      end
  end.
End TranslatorService.

(* --------------------------------------------------------------------- *)
(*  Regular expressions of xglish_mixer, as scanners                     *)
(* --------------------------------------------------------------------- *)

(* the longest prefix of s whose characters satisfy p, and the rest *)
Fixpoint span (p : char -> bool) (s : str) : str * str :=
  match s with
  | c :: s' => if p c then let '(a, b) := span p s' in (c :: a, b) else ([], s)
  | [] => ([], [])
  end.

(* a letter of the pattern under re.IGNORECASE: V, A, R and M have no
   case-insensitive match outside ASCII *)
Definition ci (upper : ascii) (c : char) : bool :=
  N.eqb c (ch upper) || N.eqb c (ch upper + 32).

Section Regex.
Context (U : Unicode).

(* r'VAR_(\d+)' with re.IGNORECASE, anchored at the head of s: the
   captured digits and what follows the match *)
Definition match_var (s : str) : option (str * str) :=
  match s with
  | v :: a :: r :: u :: rest =>
      if ci "V" v && ci "A" a && ci "R" r && N.eqb u (ch "_") then
        match span (u_isdigit U) rest with
        | ([], _) => None
        | (digits, rest') => Some (digits, rest')
        end
      else None
  | _ => None
  end.

(* r'\{\{\s*(\d+)\s*\}\}' anchored at the head of s.  Whitespace, digits
   and braces are disjoint classes, so the greedy scan is the only way
   the pattern can match. *)
Definition match_brace (s : str) : option (str * str) :=
  match s with
  | o1 :: o2 :: rest =>
      if N.eqb o1 (ch "{") && N.eqb o2 (ch "{") then
        match span (u_isdigit U) (snd (span (u_isspace U) rest)) with
        | ([], _) => None
        | (digits, rest') =>
            match snd (span (u_isspace U) rest') with
            | c1 :: c2 :: rest'' =>
                if N.eqb c1 (ch "}") && N.eqb c2 (ch "}")
                then Some (digits, rest'') else None
            | _ => None
            end
        end
      else None
  | _ => None
  end.

Definition match_token (is_indictrans : bool) (s : str) : option (str * str) :=
  if is_indictrans then match_brace s else match_var s.

(* re.split(token_pattern, s): the text before each match, the captured
   id of the match, ..., the text after the last match.  Every match
   consumes a character, so len(s) rounds suffice. *)
Fixpoint split_loop (is_indictrans : bool) (fuel : nat) (acc s : str)
    : list str :=
  match fuel, s with
  | S fuel', c :: s' =>
      match match_token is_indictrans s with
      | Some (id, rest) => acc :: id :: split_loop is_indictrans fuel' [] rest
      | None => split_loop is_indictrans fuel' (acc ++ [c]) s'
      end
  | _, _ => [acc ++ s]
  end.

Definition re_split (is_indictrans : bool) (s : str) : list str :=
  split_loop is_indictrans (length s) [] s.

(* one of n't 's 're 'll 've 'd 'm at the head of s *)
Definition CONTRACTION_FRAGMENTS : list str :=
  [lit "n't"; lit "'s"; lit "'re"; lit "'ll"; lit "'ve"; lit "'d"; lit "'m"].

Definition match_fragment (s : str) : option (str * str) :=
  (fun frag => (frag, drop (length frag) s)) <$>
    List.find (fun frag => startswith frag s) CONTRACTION_FRAGMENTS.

(* r'\s+(n\'t|\'s|\'re|\'ll|\'ve|\'d|\'m)' anchored at the head of s: the
   fragment and what follows it.  No fragment starts with whitespace, so
   the whitespace run is taken whole. *)
Definition match_spaced_fragment (s : str) : option (str * str) :=
  match span (u_isspace U) s with
  | ([], _) => None
  | (_, rest) => match_fragment rest
  end.

(* re.sub(pattern, r'\1', s) for a pattern given by its anchored matcher *)
Fixpoint sub_loop (matcher : str -> option (str * str)) (fuel : nat) (s : str)
    : str :=
  match fuel, s with
  | S fuel', c :: s' =>
      match matcher s with
      | Some (group, rest) => group ++ sub_loop matcher fuel' rest
      | None => c :: sub_loop matcher fuel' s'
      end
  | _, _ => s
  end.

Definition fix_contraction_spacing (s : str) : str :=
  sub_loop match_spaced_fragment (length s) s.

(* r'\s+([,\.\?\!\;\:])' anchored at the head of s *)
Definition match_spaced_punct (s : str) : option (str * str) :=
  match span (u_isspace U) s with
  | ([], _) => None
  | (_, c :: rest) =>
      if bool_decide (c ∈ lit ",.?!;:") then Some ([c], rest) else None
  | (_, []) => None
  end.

Definition fix_punct_spacing (s : str) : str :=
  sub_loop match_spaced_punct (length s) s.

(* re.search(r'<\s*m[a]*sk[a]*', part, re.IGNORECASE) is not None.
   Under IGNORECASE s also matches U+017F and k also matches U+212A. *)
Fixpoint star_then (p : char -> bool) (k : str -> bool) (s : str) : bool :=
  k s || match s with
         | c :: s' => p c && star_then p k s'
         | [] => false
         end.

Definition is_s (c : char) : bool := ci "S" c || N.eqb c 383.
Definition is_k (c : char) : bool := ci "K" c || N.eqb c 8490.

Definition match_mask (s : str) : bool :=
  match s with
  | lt :: rest =>
      N.eqb lt (ch "<") &&
      star_then (u_isspace U)
        (fun s1 => match s1 with
                   | m :: s2 =>
                       ci "M" m &&
                       star_then (ci "A")
                         (fun s3 => match s3 with
                                    | s_ :: k_ :: _ => is_s s_ && is_k k_
                                    | _ => false
                                    end) s2
                   | [] => false
                   end) rest
  | [] => false
  end.

Fixpoint has_mask (s : str) : bool :=
  match_mask s || match s with
                  | _ :: s' => has_mask s'
                  | [] => false
                  end.

(* str.replace(old, new) *)
Fixpoint replace_loop (old new : str) (fuel : nat) (s : str) : str :=
  match fuel, s with
  | S fuel', c :: s' =>
      if startswith old s
      then new ++ replace_loop old new fuel' (drop (length old) s)
      else c :: replace_loop old new fuel' s'
  | _, _ => s
  end.

Definition replace (old new s : str) : str :=
  match old with
  | [] => new ++ flat_map (fun c => c :: new) s
  | _ :: _ => replace_loop old new (length s) s
  end.

(* str.split(): the maximal runs of non-whitespace characters *)
Fixpoint split_ws (cur : str) (s : str) : list str :=
  match s with
  | [] => match cur with [] => [] | _ => [cur] end
  | c :: s' =>
      if u_isspace U c
      then match cur with [] => split_ws [] s' | _ => cur :: split_ws [] s' end
      else split_ws (cur ++ [c]) s'
  end.
End Regex.

(* --------------------------------------------------------------------- *)
(*  xglish_mixer.process_mixed_english, stage by stage                   *)
(* --------------------------------------------------------------------- *)

(* range-based for loop whose body may raise *)
Fixpoint for_range {A} (body : nat -> A -> option A) (i n : nat) (a : A)
    : option A :=
  match n with
  | 0 => Some a
  | S n' => a' ← body i a; for_range body (S i) n' a'
  end.

Definition WEAK_TAGS : list str :=
  [lit "RB"; lit "RBR"; lit "RBS"; lit "IN"; lit "CC"; lit "TO"; lit "DT";
   lit "UH"; lit "MD"].

(* `tag and any(tag.startswith(t) for t in WEAK_TAGS)` *)
Definition is_weak_tag (tag : option str) : bool :=
  existsb (fun t => tag_startswith t tag) WEAK_TAGS.

(* `tags.get(clean) or tags.get(word)` *)
Definition lookup_tag (tags : gmap str str) (clean word : str) : option str :=
  match tags !! clean with
  | Some (c :: t) => Some (c :: t)
  | _ => tags !! word
  end.

(* f"{{{{{token_id}}}}}" or f"VAR_{token_id}", on the text of the id *)
Definition token_key (is_indictrans : bool) (id : str) : str :=
  if is_indictrans then lit "{{" ++ id ++ lit "}}" else lit "VAR_" ++ id.

Section Stages.
Context (U : Unicode) (R : Resources).

Definition normalize_quotes (text : str) : str :=
  map (fun c => if N.eqb c 8220 || N.eqb c 8221 then 34%N
                else if N.eqb c 8216 || N.eqb c 8217 then ch "'"
                else c) text.

(* re.sub(r'[^\w\s\'-]', '', word) *)
Definition clean_word (word : str) : str :=
  List.filter (fun c => u_isalnum U c || N.eqb c (ch "_") || u_isspace U c
                        || N.eqb c (ch "'") || N.eqb c (ch "-")) word.

(* 3. Decision phase *)
Definition decide_all (tags : gmap str str) (formality_threshold : Q)
    (words : list str) : list bool :=
  imap (fun i word =>
          let clean := clean_word word in
          is_keep_word U R clean (lookup_tag tags clean word) i
                       formality_threshold) words.

(* Contextual cohesion: the body of the loop at index i.  A list index
   out of range raises (None). *)
Definition cohesion_step (words clean_words : list str) (tags : gmap str str)
    (i : nat) (decisions : list bool) : option (list bool) :=
  d ← decisions !! i;
  if d : bool then
    clean ← clean_words !! i;
    if bool_decide (u_lower U clean ∈ TECH_TERMS R) then Some decisions
    else
      word ← words !! i;
      if is_weak_tag (lookup_tag tags clean word) then
        left_translated ←
          (if 0 <? i then negb <$> decisions !! (i - 1) else Some false);
        right_translated ←
          (if i <? length words - 1 then negb <$> decisions !! (i + 1)
           else Some false);
        if left_translated || right_translated
        then Some (<[i := false]> decisions)
        else Some decisions
      else Some decisions
  else Some decisions.

Definition cohesion (words clean_words : list str) (tags : gmap str str)
    (decisions : list bool) : option (list bool) :=
  for_range (cohesion_step words clean_words tags) 0 (length words) decisions.

(* 4. Masking.  The inner while loop: extend the chunk from index j.  Both
   loops advance an index bounded by len(words); len(words) + 1 rounds of
   fuel are always enough (mask_spec below). *)
Fixpoint extend_chunk (fuel : nat) (words : list str) (decisions : list bool)
    (j : nat) (chunk : list str) : option (list str * nat) :=
  match fuel with
  | 0 => None
  | S fuel' =>
      if j <? length words then
        d ← decisions !! j;
        if d : bool then
          w ← words !! j;
          extend_chunk fuel' words decisions (S j) (chunk ++ [w])
        else Some (chunk, j)
      else Some (chunk, j)
  end.

(* The outer while loop, from index i with token_id placeholders made. *)
Fixpoint mask_loop (is_indictrans : bool) (fuel : nat) (words : list str)
    (decisions : list bool) (i token_id : nat) (kept_words : gmap str str)
    (masked_words : list str) : option (gmap str str * list str) :=
  match fuel with
  | 0 => None
  | S fuel' =>
      if i <? length words then
        d ← decisions !! i;
        w ← words !! i;
        if d : bool then
          '(chunk, j) ← extend_chunk (S (length words)) words decisions
                                     (i + 1) [w];
          let token := token_key is_indictrans (dec token_id) in
          let kept_chunk := join (lit " ") chunk in
          mask_loop is_indictrans fuel' words decisions j (token_id + 1)
                    (<[token := kept_chunk]> kept_words)
                    (masked_words ++ [token])
        else
          mask_loop is_indictrans fuel' words decisions (i + 1) token_id
                    kept_words (masked_words ++ [w])
      else Some (kept_words, masked_words)
  end.

(* Mask(tokens, decisions): the placeholder map and the masked words *)
Definition mask (is_indictrans : bool) (words : list str)
    (decisions : list bool) : option (gmap str str * list str) :=
  mask_loop is_indictrans (S (length words)) words decisions 0 0 ∅ [].

Definition masked_text_of (masked_words : list str) : str :=
  fix_contraction_spacing U (join (lit " ") masked_words).
End Stages.

Section Mixer.
Context (U : Unicode) (R : Resources) (W : World).

Definition is_indictrans : bool := use_indictrans W.

(* Romanization of one literal segment of the translated markup
   (lines 190-209); None when the transliterator raises. *)
Definition romanize (target_lang : str) (part : str) : option str :=
  let script_name := get_script_name target_lang in
  let phonetic_map := default [] (assoc target_lang PHONETIC_FIXES) in
  roman ← transliterate_process W script_name (lit "RomanColloquial") part;
  let roman := foldl (fun roman kv => replace (fst kv) (snd kv) roman)
                     roman phonetic_map in
  Some (join (lit " ") (map (schwa_for target_lang) (split_ws U [] roman))).

(* a segment between placeholders (lines 178-211) *)
Definition restore_literal (target_lang : str) (part : str) : option str :=
  if blank U part then Some part
  else if has_mask U part then Some part
  else romanize target_lang part.

(* a captured placeholder id (lines 171-175) *)
Definition restore_id (kept_words : gmap str str) (part : str) : str :=
  default (lit "(" ++ part ++ lit ")")
          (kept_words !! token_key is_indictrans part).

(* the loop over parts, is_id_part toggling *)
Fixpoint restore_loop (target_lang : str) (kept_words : gmap str str)
    (is_id_part : bool) (parts : list str) : option (list str) :=
  match parts with
  | [] => Some []
  | part :: parts' =>
      if is_id_part then
        final_parts ← restore_loop target_lang kept_words false parts';
        Some (restore_id kept_words part :: final_parts)
      else
        restored ← restore_literal target_lang part;
        final_parts ← restore_loop target_lang kept_words true parts';
        Some (restored :: final_parts)
  end.

(* Restore(translatedMarkup, placeholderMap): the final parts *)
Definition restore (target_lang : str) (kept_words : gmap str str)
    (translated_markup : str) : option (list str) :=
  restore_loop target_lang kept_words false
               (re_split U is_indictrans translated_markup).

(* prev[-1].isalnum() and p[0].isalnum() *)
Definition needs_space (output : list str) (p : str) : bool :=
  match last output, p with
  | Some prev, c :: _ =>
      match last prev with
      | Some e => u_isalnum U e && u_isalnum U c
      | None => false
      end
  | _, _ => false
  end.

(* the output loop of lines 254-265 *)
Fixpoint spaced_join (output : list str) (final_parts : list str) : str :=
  match final_parts with
  | [] => concat output
  | [] :: rest => spaced_join output rest
  | p :: rest =>
      let output := if needs_space output p then output ++ [lit " "]
                    else output in
      spaced_join (output ++ [p]) rest
  end.

(* 2. Tagging (lines 75-92): the tag of each token text; the empty dict
   when anything in the block raises *)
Definition build_tags (text : str) : gmap str str :=
  default ∅
    (tagging_text ← normalize_slang W text;
     let tagging_text :=
       replace (lit "gotta") (lit "got to")
         (replace (lit "wanna") (lit "want to")
            (replace (lit "gonna") (lit "going to") tagging_text)) in
     tags_list ← get_pos_tags W tagging_text;
     let original_tokens := word_tokenize W text in
     let normalized_tokens := word_tokenize W tagging_text in
     if length original_tokens =? length normalized_tokens then
       Some (foldl (fun tags ont => <[ont.1 := ont.2.2]> tags) ∅
                   (zip original_tokens tags_list))
     else
       tagged ← pos_tag W original_tokens;
       Some (foldl (fun tags wt => <[wt.1 := wt.2]> tags) ∅ tagged)).

Definition process_mixed_english (text : str) (formality_threshold : Q)
    (target_lang : str) : option str :=
  let text := normalize_quotes text in
  let words := tokenize W text in
  let tags := build_tags text in
  let clean_words := map (clean_word U) words in
  let decisions := decide_all U R tags formality_threshold words in
  decisions ← cohesion U R words clean_words tags decisions;
  '(kept_words, masked_words) ← mask is_indictrans words decisions;
  let masked_text := masked_text_of U masked_words in
  let translated_markup := translate_batch U W masked_text target_lang false in
  final_parts ← restore target_lang kept_words translated_markup;
  Some (spaced_join [] final_parts).

(* ------------------------------------------------------------------- *)
(*  process_batch_mixed_english                                        *)
(* ------------------------------------------------------------------- *)

Definition COMMON_ENGLISH_WORDS : list str :=
  map lit
  ["hello"; "hi"; "bye"; "goodbye"; "ok"; "okay"; "thanks"; "thank"; "sorry";
   "please"; "yes"; "no"; "maybe"; "sure"; "cool"; "nice"; "great"; "awesome";
   "wow"; "oh"; "hey"; "hmm"; "yeah"; "yep"; "nope"; "fine"; "good"; "bad";
   "love"; "like"; "hate"; "want"; "need"; "miss"; "happy"; "sad"; "angry";
   "computer"; "phone"; "internet"; "email"; "password"; "app"; "website";
   "video"; "photo"; "music"; "movie"; "game"; "online"; "offline"]%string.

(* the inner loop of lines 337-341: put kept English words back by index *)
Definition restore_common (orig_words rom_words : list str) : list str :=
  foldl (fun rom_words jw =>
           let '(j, word) := jw in
           let word_low := u_lower U word in
           if bool_decide (word_low ∈ COMMON_ENGLISH_WORDS)
              || bool_decide (word_low ∈ TECH_TERMS R)
           then (if j <? length rom_words then <[j := word]> rom_words
                 else rom_words)
           else rom_words)
        rom_words (imap (fun j word => (j, word)) orig_words).

(* one round of the loop of lines 328-345 *)
Definition mix_v2_item (target_lang : str) (orig_text translated : str)
    : option str :=
  romanized ←
    match get_script_name target_lang with
    | [] => Some translated
    | script_name =>
        transliterate_process W script_name (lit "RomanReadable") translated
    end;
  let orig_words := word_tokenize W orig_text in
  let rom_words := word_tokenize W romanized in
  let rom_words := restore_common orig_words rom_words in
  Some (fix_punct_spacing U (join (lit " ") rom_words)).

End Mixer.

(* --------------------------------------------------------------------- *)
(*  translator_service.IndicTransBatchProcessor                          *)
(* --------------------------------------------------------------------- *)

(* A queued item (req_id, text, target_lang, future).  req_id is
   id(future), so the completion event is named by req_id. *)
Record request := {
  req_id   : nat;
  req_text : str;
  req_lang : str
}.

Record processor := {
  queue     : list request;          (* self.queue, first in first out    *)
  results   : gmap nat str;          (* self.results                      *)
  signalled : gset nat;              (* the futures that have been set    *)
  calls     : list (list str * str)  (* batched translator calls so far   *)
}.

Section BatchProcessor.
(* batch_wait_ms and max_batch_size of __init__ *)
Context (batch_wait_ms : Q) (max_batch_size : Z).
(* the batched translator call of line 235; None when it raises *)
Context (translate_texts : list str -> str -> option (list str)).

(* "Collect more": the while loop of lines 220-225.  clock k is the k-th
   reading of time.time() in this cycle, start_wait the reading taken
   before the loop. *)
Fixpoint collect_more (clock : nat -> Q) (start_wait : Q) (k : nat)
    (batch : list request) (pending : list request) {struct pending}
    : list request * list request :=
  if (Z.of_nat (length batch) <? max_batch_size)%Z
     && Qltb (clock k - start_wait) batch_wait_ms
  then match pending with
       | item :: pending' =>
           collect_more clock start_wait (S k) (batch ++ [item]) pending'
       | [] => (batch, [])              (* queue.Empty: break *)
       end
  else (batch, pending).

(* lines 237-240: results[req_id] = translations[i] if i < len(translations)
   else texts[i], and future.set(), for every item of the batch *)
Definition deliver (texts translations : list str)
    (st : gmap nat str * gset nat) (ir : nat * request)
    : gmap nat str * gset nat :=
  let '(i, r) := ir in
  let value := match translations !! i with
               | Some t => t
               | None => default [] (texts !! i)
               end in
  (<[req_id r := value]> st.1, {[req_id r]} ∪ st.2).

(* lines 244-247: results[req_id] = orig, and future.set() *)
Definition deliver_original (st : gmap nat str * gset nat) (r : request)
    : gmap nat str * gset nat :=
  (<[req_id r := req_text r]> st.1, {[req_id r]} ∪ st.2).

(* the batch of one round of the worker loop and what stays queued *)
Definition next_batch (clock : nat -> Q) (q : list request)
    : list request * list request :=
  match q with
  | [] => ([], [])
  | item :: q' => collect_more clock (clock 0) 1 [item] q'
  end.

(* One round of _process_queue. *)
Definition process_queue_round (clock : nat -> Q) (st : processor)
    : processor :=
  match queue st with
  | [] => st                       (* queue.get timed out: continue *)
  | first :: _ =>
      let '(batch, rest) := next_batch clock (queue st) in
      let texts := map req_text batch in
      let lang := req_lang first in          (* batch[0][2] *)
      let '(res, sig) :=
        match translate_texts texts lang with
        | Some translations =>
            foldl (deliver texts translations) (results st, signalled st)
                  (imap (fun i r => (i, r)) batch)
        | None =>
            foldl deliver_original (results st, signalled st) batch
        end in
      {| queue := rest; results := res; signalled := sig;
         calls := calls st ++ [(texts, lang)] |}
  end.

(* rounds of the worker, one clock per round *)
Definition run_worker (clocks : list (nat -> Q)) (st : processor) : processor :=
  foldl (fun st clock => process_queue_round clock st) st clocks.

(* translate(): the producer's side.  The first half enqueues the
   request; the second half runs once the future is set. *)
Definition submit (r : request) (st : processor) : processor :=
  {| queue := queue st ++ [r]; results := results st;
     signalled := signalled st; calls := calls st |}.

(* `return self.results.pop(req_id, text)` *)
Definition collect_result (r : request) (st : processor) : str * processor :=
  (default (req_text r) (results st !! req_id r),
   {| queue := queue st; results := delete (req_id r) (results st);
      signalled := signalled st; calls := calls st |}).

(* translate(text, target_lang) against a worker that runs the given
   rounds while the caller waits: the value returned, or None while the
   caller's future is still unset. *)
Definition translate (text target_lang : str) (fresh_id : nat)
    (clocks : list (nat -> Q)) (st : processor) : option (str * processor) :=
  match text with
  | [] => Some ([], st)                         (* if not text: return the empty string *)
  | _ :: _ =>
      let r := {| req_id := fresh_id; req_text := text;
                  req_lang := target_lang |} in
      let st' := run_worker clocks (submit r st) in
      if bool_decide (fresh_id ∈ signalled st')
      then Some (collect_result r st')
      else None
  end.
End BatchProcessor.

(* --------------------------------------------------------------------- *)
(*  The classifier's first five rules, as the specification lists them   *)
(* --------------------------------------------------------------------- *)



(* --------------------------------------------------------------------- *)
(*  The cohesion pass, token by token                                    *)
(* --------------------------------------------------------------------- *)

(* token i has a weak tag and is not a technical term *)
Definition flippable (U : Unicode) (R : Resources) (words clean_words : list str)
    (tags : gmap str str) (i : nat) : bool :=
  match clean_words !! i, words !! i with
  | Some clean, Some word =>
      negb (bool_decide (u_lower U clean ∈ TECH_TERMS R))
      && is_weak_tag (lookup_tag tags clean word)
  | _, _ => false
  end.

(* token i has a left neighbour and [marks] has it as translate *)
Definition left_is_translate (i : nat) (marks : list bool) : bool :=
  (0 <? i) && negb (default true (marks !! (i - 1))).

(* token i of n has a right neighbour and [marks] has it as translate *)
Definition right_is_translate (n i : nat) (marks : list bool) : bool :=
  (i <? n - 1) && negb (default true (marks !! (i + 1))).

(* what the pass leaves at index i, given the mark d it found there, the
   marks [cur] it has already written to the left and the marks [decisions]
   still untouched to the right *)
Definition cohesion_verdict (U : Unicode) (R : Resources)
    (words clean_words : list str) (tags : gmap str str)
    (decisions : list bool) (i : nat) (d : bool) (cur : list bool) : bool :=
  if d && flippable U R words clean_words tags i
     && (left_is_translate i cur
         || right_is_translate (length words) i decisions)
  then false else d.

(* the state of the pass before it visits index k *)
Definition cohesion_inv (U : Unicode) (R : Resources)
    (words clean_words : list str) (tags : gmap str str)
    (decisions : list bool) (k : nat) (cur : list bool) : Prop :=
  length cur = length decisions
  /\ (forall j, k <= j -> cur !! j = decisions !! j)
  /\ (forall j d, j < k -> decisions !! j = Some d ->
                  cur !! j = Some (cohesion_verdict U R words clean_words tags
                                                    decisions j d cur)).

(* --------------------------------------------------------------------- *)
(*  The masker, as the specification words it                            *)
(* --------------------------------------------------------------------- *)

(* the keep tokens at the head of the list, up to the first translate *)
Fixpoint run_of (words : list str) (decisions : list bool) : list str :=
  match words, decisions with
  | w :: words', true :: decisions' => w :: run_of words' decisions'
  | _, _ => []
  end.

Definition flush (cur : list str) : list (list str) :=
  match cur with
  | [] => []
  | _ :: _ => [cur]
  end.

(* the maximal runs of consecutive keep tokens, left to right; [cur] is the
   run being read *)
Fixpoint keep_runs_from (cur : list str) (words : list str)
    (decisions : list bool) : list (list str) :=
  match words, decisions with
  | w :: words', d :: decisions' =>
      if d : bool then keep_runs_from (cur ++ [w]) words' decisions'
      else flush cur ++ keep_runs_from [] words' decisions'
  | _, _ => flush cur
  end.

Definition keep_runs (words : list str) (decisions : list bool)
    : list (list str) :=
  keep_runs_from [] words decisions.

(* the number of places where a run starts: a keep that follows a translate
   or opens the array *)
Fixpoint run_starts (prev : bool) (decisions : list bool) : nat :=
  match decisions with
  | [] => 0
  | d :: decisions' =>
      (if d && negb prev then 1 else 0) + run_starts d decisions'
  end.

(* one chunk per run, with sequential placeholder ids from token_id on *)
Fixpoint add_chunks (is_indictrans : bool) (token_id : nat)
    (runs : list (list str)) (kept_words : gmap str str) : gmap str str :=
  match runs with
  | [] => kept_words
  | run :: runs' =>
      add_chunks is_indictrans (S token_id) runs'
        (<[token_key is_indictrans (dec token_id) := join (lit " ") run]>
           kept_words)
  end.

(* the masked words: a placeholder where a run starts, nothing for the rest
   of the run, the token itself where it is translate *)
Fixpoint masked_from (is_indictrans : bool) (in_run : bool) (token_id : nat)
    (words : list str) (decisions : list bool) : list str :=
  match words, decisions with
  | w :: words', d :: decisions' =>
      if d : bool then
        if in_run then masked_from is_indictrans true token_id words' decisions'
        else token_key is_indictrans (dec token_id)
             :: masked_from is_indictrans true (S token_id) words' decisions'
      else w :: masked_from is_indictrans false token_id words' decisions'
  | _, _ => []
  end.

(* position i of the parts of re.split holds a captured id when the loop
   entered the list with is_id_part = b *)
Definition is_id_at (b : bool) (i : nat) : bool := xorb b (Nat.odd i).

(* the captured ids among the parts of re.split, in order *)
Fixpoint placeholder_ids (is_id_part : bool) (parts : list str) : list str :=
  match parts with
  | [] => []
  | part :: parts' =>
      if is_id_part then part :: placeholder_ids false parts'
      else placeholder_ids true parts'
  end.

(* --------------------------------------------------------------------- *)
(*  What a queued request is resolved with                               *)
(* --------------------------------------------------------------------- *)

(* what the success path stores for the item at position i *)
Definition delivered (texts translations : list str) (i : nat) : str :=
  match translations !! i with
  | Some t => t
  | None => default [] (texts !! i)
  end.

(* [r] was collected at position [i] of a batch cut out of the queue [q],
   and [v] is the translation at position [i] of that batch's call, or the
   text of [r] itself when the call raised or returned no item [i] *)
Definition resolved_in_batch
    (translate_texts : list str -> str -> option (list str))
    (q : list request) (r : request) (v : str) : Prop :=
  exists pre batch post i first,
    q = pre ++ batch ++ post
    /\ batch !! 0 = Some first
    /\ batch !! i = Some r
    /\ v = match translate_texts (map req_text batch) (req_lang first) with
           | Some translations => default (req_text r) (translations !! i)
           | None => req_text r
           end.

(* --------------------------------------------------------------------- *)
(*  Translated markup written out segment by segment                     *)
(* --------------------------------------------------------------------- *)

(* literal text, then the placeholder of chunk k, ..., then a last literal *)
Fixpoint render (is_indictrans : bool) (segments : list (str * nat))
    (last_literal : str) : str :=
  match segments with
  | [] => last_literal
  | (literal, k) :: segments' =>
      literal ++ token_key is_indictrans (dec k)
      ++ render is_indictrans segments' last_literal
  end.

(* c can open a match of the placeholder pattern *)
Definition opens_placeholder (is_indictrans : bool) (c : char) : bool :=
  if is_indictrans then N.eqb c (ch "{") else ci "V" c.

Definition starts_with_digit (U : Unicode) (s : str) : bool :=
  match s with
  | c :: _ => u_isdigit U c
  | [] => false
  end.

(* a literal in which no placeholder can start and which cannot extend the
   digits of a placeholder written before it *)
Definition plain_literal (U : Unicode) (is_indictrans : bool) (literal : str)
    : Prop :=
  Forall (fun c => opens_placeholder is_indictrans c = false) literal
  /\ starts_with_digit U literal = false.

(* --------------------------------------------------------------------- *)
(*  Characters other than the space the output loop inserts              *)
(* --------------------------------------------------------------------- *)

Definition not_space (c : char) : bool := negb (N.eqb c 32).

(* --------------------------------------------------------------------- *)
(*  translator_service.translate_texts_batch                             *)
(* --------------------------------------------------------------------- *)

(* the bulk entry point of the Roman pipeline; on the LibreTranslate route
   each text goes through translate_batch_libretranslate with its default
   preserve_nouns=True *)
Definition translate_texts_batch (U : Unicode) (W : World) (texts : list str)
    (target_lang : str) : list str :=
  if use_indictrans W
  then translate_texts_indictrans2 U W texts target_lang
  else map (fun t => translate_batch_libretranslate U W t target_lang true)
           texts.

(* --------------------------------------------------------------------- *)
(*  xglish_mixer.process_mixed_english_v2                                *)
(* --------------------------------------------------------------------- *)

Section MixerV2.
Context (U : Unicode) (R : Resources) (W : World).

(* lines 286-292: is the word at index i put back after translation *)
Definition restored_v2 (i : nat) (word : str) : bool :=
  let word_low := u_lower U word in
  if bool_decide (word_low ∈ COMMON_ENGLISH_WORDS) then true
  else if bool_decide (word_low ∈ TECH_TERMS R) then true
  else (1 <? length word) && first_isupper U word && (0 <? i).

(* the dict words_to_restore, in insertion order *)
Definition words_to_restore (original_words : list str) : list (nat * str) :=
  List.filter (fun iw => restored_v2 iw.1 iw.2)
              (imap (fun i word => (i, word)) original_words).

(* lines 305-307 *)
Definition restore_words (words_to_restore : list (nat * str))
    (romanized_words : list str) : list str :=
  foldl (fun romanized_words iw =>
           let '(orig_idx, orig_word) := iw in
           if orig_idx <? length romanized_words
           then <[orig_idx := orig_word]> romanized_words
           else romanized_words)
        romanized_words words_to_restore.

Definition process_mixed_english_v2 (text : str) (formality_threshold : Q)
    (target_lang : str) : option str :=
  if blank U text then Some text       (* not text or not text.strip() *)
  else
    let original_words := word_tokenize W text in
    let words_to_restore := words_to_restore original_words in
    let translated := translate_batch U W text target_lang false in
    romanized ←
      match get_script_name target_lang with
      | [] => Some translated
      | script_name =>
          transliterate_process W script_name (lit "RomanReadable") translated
      end;
    let romanized_words := word_tokenize W romanized in
    let romanized_words := restore_words words_to_restore romanized_words in
    Some (fix_punct_spacing U (join (lit " ") romanized_words)).
End MixerV2.

(* --------------------------------------------------------------------- *)
(*  language_rules.LANG_CODE_MAP and the Smart Mix target of the server   *)
(* --------------------------------------------------------------------- *)

Definition LANG_CODE_MAP : list (str * str) :=
  [(lit "Hindi", lit "hi"); (lit "Bengali", lit "bn");
   (lit "Tamil", lit "ta"); (lit "Telugu", lit "te");
   (lit "Marathi", lit "mr"); (lit "Gujarati", lit "gu");
   (lit "Kannada", lit "kn"); (lit "Malayalam", lit "ml");
   (lit "Punjabi", lit "pa"); (lit "Odia", lit "or");
   (lit "Assamese", lit "as"); (lit "Urdu", lit "ur");
   (lit "Sanskrit", lit "sa"); (lit "Nepali", lit "ne");
   (lit "Sindhi", lit "sd"); (lit "Kashmiri", lit "ks");
   (lit "Konkani", lit "gom"); (lit "Maithili", lit "mai");
   (lit "Dogri", lit "doi"); (lit "Bodo", lit "brx");
   (lit "Manipuri", lit "mni"); (lit "Santali", lit "sat")].

(* server_extension.transliterate_route, lines 126-136: the language code
   of a Smart Mix request, None when the target is not a Mix target *)
Definition smart_mix_target (target : str) : option str :=
  if bool_decide (target = lit "Hinglish_Mix") then Some (lit "hi")
  else if endswith (lit "_Mix") target then
    let lang_name := replace (lit "_Mix") [] target in
    Some (default (lit "hi") (assoc lang_name LANG_CODE_MAP))
  else None.

(* --------------------------------------------------------------------- *)
(*  nlp_engine: slang normalization and the ensemble tagger              *)
(* --------------------------------------------------------------------- *)

Module nlp_engine.

Definition SLANG_MAP : list (str * str) :=
  map (fun kv : string * string => (lit kv.1, lit kv.2))
  [ (* Pronouns & Contractions *)
    ("u", "you"); ("ur", "your"); ("ure", "you're"); ("youre", "you're");
    ("im", "i'm"); ("ive", "i've"); ("id", "i'd"); ("ill", "i'll");
    ("hes", "he's"); ("shes", "she's"); ("theyre", "they're");
    ("wont", "won't"); ("dont", "don't"); ("cant", "can't");
    ("shouldnt", "shouldn't");
    (* Common Abbreviations *)
    ("pls", "please"); ("plz", "please"); ("thx", "thanks");
    ("thks", "thanks"); ("tbh", "to be honest"); ("btw", "by the way");
    ("rn", "right now"); ("omg", "oh my god"); ("nvm", "never mind");
    ("idk", "i don't know"); ("imo", "in my opinion");
    ("imho", "in my honest opinion");
    (* Verbs & Slang *)
    ("wanna", "want to"); ("gonna", "going to"); ("gotta", "got to");
    ("tryna", "trying to"); ("kinda", "kind of"); ("sorta", "sort of");
    ("gimme", "give me"); ("lemme", "let me"); ("dunno", "don't know");
    (* Intensifiers *)
    ("v", "very"); ("rly", "really"); ("srsly", "seriously");
    (* Questions *)
    ("y", "why"); ("bc", "because"); ("cuz", "because"); ("coz", "because");
    ("r", "are"); ("wat", "what"); ("wen", "when") ]%string.

(* str.capitalize() on a replacement of SLANG_MAP; the replacements are
   ASCII, where the first character is uppercased and the rest lowercased *)
Definition capitalize (s : str) : str :=
  match s with
  | [] => []
  | c :: s' => (if ascii_islower c then (c - 32)%N else c) :: ascii_lower s'
  end.

Section Slang.
Context (U : Unicode).

(* re.sub(r'[^\w]', '', lower) *)
Definition strip_non_word (s : str) : str :=
  List.filter (fun c => u_isalnum U c || N.eqb c (ch "_")) s.

(* the body of the loop of normalize_slang for one word of text.split() *)
Definition normalize_word (word : str) : str :=
  let lower := u_lower U word in
  let clean := strip_non_word lower in
  match assoc clean SLANG_MAP with
  | Some replacement =>
      if first_isupper U word then capitalize replacement else replacement
  | None => word
  end.

Definition normalize_slang (text : str) : str :=
  join (lit " ") (map normalize_word (split_ws U [] text)).
End Slang.

Section Tagger.
Context (W : World).
(* get_spacy_nlp(): the loaded pipeline, or None when loading failed.  On
   a text the pipeline gives (token.text, token.tag_, token.pos_) for each
   token, or raises. *)
Context (spacy_nlp : option (str -> option (list (str * str * str)))).

(* the voting rules of lines 95-105 *)
Definition vote (i : nat) (spacy_tag nltk_tag : str) : str :=
  if bool_decide (spacy_tag = nltk_tag) then spacy_tag
  else if i =? 0 then spacy_tag
  else if (startswith (lit "NNP") spacy_tag || startswith (lit "NNP") nltk_tag)
          || (startswith (lit "VB") spacy_tag || startswith (lit "VB") nltk_tag)
  then spacy_tag
  else spacy_tag.

Definition get_pos_tags (text : str) : option (list (str * str)) :=
  match spacy_nlp with
  | None => pos_tag W (word_tokenize W text)
  | Some nlp =>
      spacy_results ← nlp text;
      nltk_results ← pos_tag W (word_tokenize W text);
      Some (imap (fun i r =>
                    let '(word, spacy_tag, spacy_pos) := r in
                    match nltk_results !! i with
                    | None => (word, spacy_tag)
                    | Some (nltk_word, nltk_tag) =>
                        (word, vote i spacy_tag nltk_tag)
                    end) spacy_results)
  end.
End Tagger.

End nlp_engine.

(* a text that slang normalization leaves alone: its words are unchanged
   and it is these words joined by single spaces *)
Definition settled (word_of : str -> str) (split : str -> list str)
    (r : str) : Prop :=
  map word_of (split r) = split r
  /\ split r <> []
  /\ join (lit " ") (split r) = r.

(* --------------------------------------------------------------------- *)
(*  resource_loader.load_data                                            *)
(* --------------------------------------------------------------------- *)

Module resource_loader.

(* what json.load returns; an object is the dict it has become, its keys
   distinct and in file order *)
#[warnings="-register-all"]
Inductive json :=
  | JNull
  | JBool (b : bool)
  | JNum (q : Q)
  | JNonFinite                      (* NaN, Infinity, -Infinity *)
  | JStr (s : str)
  | JArr (items : list json)
  | JObj (fields : list (str * json)).

(* bool(value) *)
Definition truthy (value : json) : bool :=
  match value with
  | JNull => false
  | JBool b => b
  | JNum q => negb (Qeq_bool q 0)
  | JNonFinite => true
  | JStr s => negb (bool_decide (s = []))
  | JArr items => negb (bool_decide (length items = 0))
  | JObj fields => negb (bool_decide (length fields = 0))
  end.

(* value.get(key, default): AttributeError (None) unless value is a dict *)
Definition get (value : json) (key : str) (dflt : json) : option json :=
  match value with
  | JObj fields => Some (default dflt (assoc key fields))
  | _ => None
  end.

(* for item in value: TypeError (None) when value is not iterable; a dict
   yields its keys, a string its characters *)
Definition iterate (value : json) : option (list json) :=
  match value with
  | JArr items => Some items
  | JObj fields => Some (map (fun kv => JStr kv.1) fields)
  | JStr s => Some (map (fun c => JStr [c]) s)
  | _ => None
  end.

(* what is on disk under a file name of the database directory *)
Inductive file :=
  | Missing                         (* os.path.exists is False *)
  | Unreadable                      (* open or json.load raises *)
  | Parsed (data : json).

(* the module globals *)
Record tables := {
  FORMALITY_SCORES  : gmap str json;
  MANUAL_KEEP_WORDS : gset str;
  TECH_TERMS        : gset str
}.

(* a for loop whose body may raise: the state reached, and whether the
   loop ran to its end *)
Fixpoint load_loop {S} (body : S -> json -> option S) (items : list json)
    (s : S) : S * bool :=
  match items with
  | [] => (s, true)
  | item :: items' =>
      match body s item with
      | Some s' => load_loop body items' s'
      | None => (s, false)
      end
  end.

Section Loader.
Context (U : Unicode).
Context (read : str -> file).
Context (zipf_frequency : str -> Q).   (* wordfreq.zipf_frequency(word, 'en') *)

(* value.lower(): AttributeError (None) unless value is a str *)
Definition lower (value : json) : option str :=
  match value with
  | JStr s => Some (u_lower U s)
  | _ => None
  end.

(* data.get('wordvalue', []), iterated *)
Definition wordvalue (data : json) : option (list json) :=
  value ← get data (lit "wordvalue") (JArr []); iterate value.

(* lines 69-72 *)
Definition formality_item (scores : gmap str json) (item : json)
    : option (gmap str json) :=
  value ← get item (lit "EnglishWord") (JStr []);
  word ← lower value;
  scale ← get item (lit "scale") (JNum 5);
  Some (<[word := scale]> scores).

(* one round of the loop over candidates: the scores, and whether the loop
   reached its break *)
Definition load_formality_file (fname : str) (scores : gmap str json)
    : gmap str json * bool :=
  match read fname with
  | Parsed data =>
      match wordvalue data with
      | Some items => load_loop formality_item items scores
      | None => (scores, false)
      end
  | _ => (scores, false)
  end.

Definition load_formality (scores : gmap str json) : gmap str json :=
  let '(scores, found) :=
    load_formality_file (lit "informalbechmark.json") scores in
  if found : bool then scores
  else (load_formality_file (lit "infornalbechmark.json") scores).1.

(* lines 86-98 *)
Definition manual_item (words : gset str) (item : json) : option (gset str) :=
  flag ← get item (lit "tobeused") (JBool false);
  if truthy flag then
    value ← get item (lit "EnglishWord") (JStr []);
    word ← lower value;
    if bool_decide (word = []) then Some words
    else if Qltb (642 # 100) (zipf_frequency word) then Some words
    else Some ({[word]} ∪ words)
  else Some words.

(* lines 110-114 *)
Definition tech_item (words : gset str) (item : json) : option (gset str) :=
  value ← get item (lit "EnglishWord") (JStr []);
  word ← lower value;
  if bool_decide (word = []) then Some words
  else Some ({[word]} ∪ words).

(* a try block that loads one word list *)
Definition load_words (body : gset str -> json -> option (gset str))
    (fname : str) (words : gset str) : gset str :=
  match read fname with
  | Parsed data =>
      match wordvalue data with
      | Some items => (load_loop body items words).1
      | None => words
      end
  | _ => words
  end.

Definition load_data (st : tables) : tables :=
  {| FORMALITY_SCORES := load_formality (FORMALITY_SCORES st);
     MANUAL_KEEP_WORDS :=
       load_words manual_item (lit "xglishwordhindi.json")
                  (MANUAL_KEEP_WORDS st);
     TECH_TERMS :=
       load_words tech_item (lit "TECH_TERMS.json") (TECH_TERMS st) |}.
End Loader.

(* the globals when the module is imported *)
Definition empty_tables : tables :=
  {| FORMALITY_SCORES := ∅; MANUAL_KEEP_WORDS := ∅; TECH_TERMS := ∅ |}.

End resource_loader.

(* [w] is the lowercased EnglishWord of an item of the word list in file
   [fname]; with [flagged], of an item whose tobeused is true *)
Definition listed (U : Unicode) (read : str -> resource_loader.file)
    (fname : str) (flagged : bool) (w : str) : Prop :=
  exists data items item s,
    read fname = resource_loader.Parsed data
    /\ resource_loader.wordvalue data = Some items
    /\ item ∈ items
    /\ resource_loader.get item (lit "EnglishWord") (resource_loader.JStr [])
       = Some (resource_loader.JStr s)
    /\ w = u_lower U s
    /\ (flagged = true ->
        exists flag,
          resource_loader.get item (lit "tobeused")
                              (resource_loader.JBool false) = Some flag
          /\ resource_loader.truthy flag = true).

(* --------------------------------------------------------------------- *)
(*  translator_service.get_indictrans2_model: the lazy model cache       *)
(* --------------------------------------------------------------------- *)

Section IndicTransModel.
Context {Model Tokenizer Processor : Type}.

(* the module globals *)
Record model_cache := {
  _indictrans_model : option Model;
  _indictrans_tokenizer : option Tokenizer;
  _indictrans_processor : option Processor;
  _indictrans_loaded_model_name : option str
}.

(* what one call meets: the configured model name and the outcome of each
   step of the try block, None when the step raises *)
Record load_env := {
  (* cfg.get("indictrans_model", ...) *)
  target_model_name : str;
  (* the imports, config.get_hf_token() and torch.cuda.is_available() *)
  prepare : option unit;
  (* AutoTokenizer.from_pretrained(target_model_name, ...) *)
  load_tokenizer : option Tokenizer;
  (* AutoModelForSeq2SeqLM.from_pretrained(target_model_name, ...).to(device) *)
  load_model : option Model;
  (* IndicProcessor(inference=True) *)
  new_processor : option Processor
}.

(* the try block of lines 30-47: the globals after it, and the triple
   returned, None when it raises *)
Definition load_indictrans2 (env : load_env) (st : model_cache)
    : model_cache * option (Model * option Tokenizer * option Processor) :=
  match prepare env with
  | None => (st, None)
  | Some _ =>
      match load_tokenizer env with
      | None => (st, None)
      | Some tokenizer =>
          let st :=
            {| _indictrans_model := _indictrans_model st;
               _indictrans_tokenizer := Some tokenizer;
               _indictrans_processor := _indictrans_processor st;
               _indictrans_loaded_model_name :=
                 _indictrans_loaded_model_name st |} in
          match load_model env with
          | None => (st, None)
          | Some model =>
              let st :=
                {| _indictrans_model := Some model;
                   _indictrans_tokenizer := _indictrans_tokenizer st;
                   _indictrans_processor := _indictrans_processor st;
                   _indictrans_loaded_model_name :=
                     _indictrans_loaded_model_name st |} in
              match new_processor env with
              | None => (st, None)
              | Some processor =>
                  ({| _indictrans_model := _indictrans_model st;
                      _indictrans_tokenizer := _indictrans_tokenizer st;
                      _indictrans_processor := Some processor;
                      _indictrans_loaded_model_name :=
                        Some (target_model_name env) |},
                   Some (model, Some tokenizer, Some processor))
              end
          end
      end
  end.

Definition get_indictrans2_model (env : load_env) (st : model_cache)
    : model_cache * option (Model * option Tokenizer * option Processor) :=
  match _indictrans_model st with
  | Some model =>
      if bool_decide (_indictrans_loaded_model_name st
                      = Some (target_model_name env))
      then (st, Some (model, _indictrans_tokenizer st,
                      _indictrans_processor st))
      else
        (* "Switching model": _indictrans_model = None *)
        load_indictrans2 env
          {| _indictrans_model := None;
             _indictrans_tokenizer := _indictrans_tokenizer st;
             _indictrans_processor := _indictrans_processor st;
             _indictrans_loaded_model_name :=
               _indictrans_loaded_model_name st |}
  | None => load_indictrans2 env st
  end.

(* the globals when the module is imported *)
Definition no_model : model_cache :=
  {| _indictrans_model := None; _indictrans_tokenizer := None;
     _indictrans_processor := None; _indictrans_loaded_model_name := None |}.

(* the globals after a sequence of calls *)
Definition after_calls (envs : list load_env) (st : model_cache)
    : model_cache :=
  foldl (fun st env => (get_indictrans2_model env st).1) st envs.

(* the cached model, if any, was loaded for the recorded name by one of
   the calls [envs], together with the cached tokenizer and processor *)
Definition cache_coherent (envs : list load_env) (st : model_cache) : Prop :=
  forall model,
    _indictrans_model st = Some model ->
    exists env,
      env ∈ envs
      /\ _indictrans_loaded_model_name st = Some (target_model_name env)
      /\ load_model env = Some model
      /\ _indictrans_tokenizer st = load_tokenizer env
      /\ _indictrans_processor st = new_processor env
      /\ is_Some (load_tokenizer env)
      /\ is_Some (new_processor env).
End IndicTransModel.

Global Arguments model_cache : clear implicits.
Global Arguments load_env : clear implicits.

(* a call for the model [name] whose steps succeed, the model load with the
   given outcome and the processor with the given outcome *)
Definition sample_env (name : string) (model : option nat)
    (processor : option nat) : load_env nat nat nat :=
  {| target_model_name := lit name; prepare := Some tt;
     load_tokenizer := Some 1; load_model := model;
     new_processor := processor |}.

(* --------------------------------------------------------------------- *)
(*  Whitespace left before punctuation                                   *)
(* --------------------------------------------------------------------- *)

(* some whitespace character of [s] stands directly before one of the
   marks , . ? ! ; : *)
Fixpoint space_before_punct (U : Unicode) (s : str) : bool :=
  match s with
  | w :: s' =>
      match s' with
      | c :: _ => u_isspace U w && bool_decide (c ∈ lit ",.?!;:")
      | [] => false
      end
      || space_before_punct U s'
  | [] => false
  end.

(* the characters of [s] that are not whitespace *)
Definition non_space (U : Unicode) (s : str) : str :=
  List.filter (fun c => negb (u_isspace U c)) s.

(* --------------------------------------------------------------------- *)
(*  Sample data                                                          *)
(* --------------------------------------------------------------------- *)

Definition sample_resources : Resources :=
  {| FORMALITY_SCORES := {[ lit "nasa" := 1%Q ]};
     MANUAL_KEEP_WORDS := {[ lit "chai" ]};
     TECH_TERMS := {[ lit "api" ]};
     zipf_frequency := fun _ => 5%Q |}.

(* LibreTranslate selected, a translator and a transliterator that return
   their input, whitespace tokenizers, taggers that fail (no tags) *)
Definition sample_world : World :=
  {| translation_model := lit "libretranslate";
     tokenize := split_ws ascii_unicode [];
     normalize_slang := fun s => Some s;
     get_pos_tags := fun _ => None;
     pos_tag := fun _ => None;
     word_tokenize := split_ws ascii_unicode [];
     transliterate_process := fun _ _ s => Some s;
     extract_and_mask_nouns := fun s => Some (s, []);
     restore_nouns := fun s _ => Some s;
     libre_lookup := fun _ => Translator (fun s => Some s);
     indic_generate := fun l _ => Some l |}.

(* the same, with every translation engine raising *)
Definition failing_world : World :=
  {| translation_model := lit "indictrans2";
     tokenize := split_ws ascii_unicode [];
     normalize_slang := fun s => Some s;
     get_pos_tags := fun _ => None;
     pos_tag := fun _ => None;
     word_tokenize := split_ws ascii_unicode [];
     transliterate_process := fun _ _ s => Some s;
     extract_and_mask_nouns := fun s => Some (s, []);
     restore_nouns := fun s _ => Some s;
     libre_lookup := fun _ => LookupRaised;
     indic_generate := fun _ _ => None |}.


(* LibreTranslate selected, a translator that answers every input with the
   same word *)
Definition rewording_world : World :=
  {| translation_model := lit "libretranslate";
     tokenize := split_ws ascii_unicode [];
     normalize_slang := fun s => Some s;
     get_pos_tags := fun _ => None;
     pos_tag := fun _ => None;
     word_tokenize := split_ws ascii_unicode [];
     transliterate_process := fun _ _ s => Some s;
     extract_and_mask_nouns := fun s => Some (s, []);
     restore_nouns := fun s _ => Some s;
     libre_lookup := fun _ => Translator (fun _ => Some (lit "shunya"));
     indic_generate := fun l _ => Some l |}.

Definition sample_request (id : nat) (text lang : string) : request :=
  {| req_id := id; req_text := lit text; req_lang := lit lang |}.

(* three requests waiting, nothing delivered yet *)
Definition sample_processor : processor :=
  {| queue := [sample_request 1 "hello" "hi"; sample_request 2 "bye" "ta";
               sample_request 3 "thanks" "hi"];
     results := ∅; signalled := ∅; calls := [] |}.

(* a clock that does not advance, and one that jumps past any budget *)
Definition frozen_clock : nat -> Q := fun _ => 0%Q.
Definition jumping_clock : nat -> Q := fun k => inject_Z (Z.of_nat k).

Definition sample_words : list str := [lit "come"; lit "to"; lit "office"].
Definition sample_tags : gmap str str :=
  {[ lit "come" := lit "VB"; lit "to" := lit "TO"; lit "office" := lit "NN" ]}.

(* ===================================================================== *)
(*  Properties                                                           *)
(* ===================================================================== *)

(* --------------------------------------------------------------------- *)
(*  Strings                                                              *)
(* --------------------------------------------------------------------- *)

Lemma startswith_prefix (p s : str) :
  startswith p s = true <-> p `prefix_of` s.
Proof.
  revert s. induction p as [|a p IH]; intros s; simpl.
  - split; [intros _; apply prefix_nil | done].
  - destruct s as [|b s].
    + split; [done | intros H; by apply prefix_nil_not in H].
    + rewrite andb_true_iff, N.eqb_eq, IH. split.
      * intros [-> H]. by apply prefix_cons.
      * intros H. split; [by apply prefix_cons_inv_1 in H
                         | by apply prefix_cons_inv_2 in H].
Qed.

Lemma endswith_suffix (suf s : str) :
  endswith suf s = true <-> suf `suffix_of` s.
Proof.
  unfold endswith. rewrite startswith_prefix, suffix_prefix_reverse.
  unfold reverse. by rewrite <- !rev_alt.
Qed.

Lemma endswith_any_spec (sufs : list str) (s : str) :
  endswith_any sufs s = true <-> exists suf, suf ∈ sufs /\ suf `suffix_of` s.
Proof.
  unfold endswith_any. rewrite existsb_exists. split.
  - intros (suf & Hin & H). exists suf. split.
    + by apply list_elem_of_In.
    + by apply endswith_suffix.
  - intros (suf & Hin & H). exists suf. split.
    + by apply list_elem_of_In.
    + by apply endswith_suffix.
Qed.

Lemma removelast_snoc (w : str) (c : char) : removelast (w ++ [c]) = w.
Proof. apply removelast_last. Qed.

(* --------------------------------------------------------------------- *)
(*  C3: schwa deletion                                                   *)
(* --------------------------------------------------------------------- *)

Lemma schwa_word_cases (should : bool) (prot : list str) (w : str) :
  (should = true /\ 3 < length w /\ lit "a" `suffix_of` w
   /\ (forall c, penultimate w = Some c -> c ∉ lit "aeiou")
   /\ (forall suf, suf ∈ prot -> ~ suf `suffix_of` w)
   /\ schwa_word should prot w = removelast w)
  \/
  (~ (should = true /\ 3 < length w /\ lit "a" `suffix_of` w
      /\ (forall c, penultimate w = Some c -> c ∉ lit "aeiou")
      /\ (forall suf, suf ∈ prot -> ~ suf `suffix_of` w))
   /\ schwa_word should prot w = w).
Proof.
  unfold schwa_word.
  destruct should; simpl; [|right; split; [intros [? _]; done | done]].
  destruct (3 <? length w) eqn:Hlen; simpl;
    [apply Nat.ltb_lt in Hlen
    | apply Nat.ltb_ge in Hlen; right; split; [intros (_ & ? & _); lia | done]].
  destruct (endswith (lit "a") w) eqn:Ha;
    [apply endswith_suffix in Ha
    | right; split; [|done]; intros (_ & _ & H & _);
      apply endswith_suffix in H; congruence].
  assert (Hpen : exists c, penultimate w = Some c).
  { unfold penultimate. apply lookup_lt_is_Some. lia. }
  destruct Hpen as [c Hc]. rewrite Hc.
  destruct (is_vowel c) eqn:Hv; simpl.
  { right. split; [|done]. intros (_ & _ & _ & H & _).
    apply (H c eq_refl). unfold is_vowel in Hv.
    by apply bool_decide_eq_true in Hv. }
  destruct (endswith_any prot w) eqn:Hp; simpl.
  { right. split; [|done]. intros (_ & _ & _ & _ & H).
    apply endswith_any_spec in Hp as (suf & Hin & Hsuf). by apply (H suf). }
  left. repeat split; try done.
  - intros c' Hc'. injection Hc' as <-.
    unfold is_vowel in Hv. by apply bool_decide_eq_false in Hv.
  - intros suf Hin Hsuf.
    assert (endswith_any prot w = true); [|congruence].
    apply endswith_any_spec. eauto.
Qed.


Example schwa_deleted_hindi : schwa_for (lit "hi") (lit "kitaba") = lit "kitab".
Proof. vm_compute. reflexivity. Qed.

Example schwa_protected_suffix :
  schwa_for (lit "hi") (lit "karata") = lit "karata".
Proof. vm_compute. reflexivity. Qed.

Example schwa_vowel_before_last : schwa_for (lit "gu") (lit "bhaia") = lit "bhaia".
Proof. vm_compute. reflexivity. Qed.

Example schwa_short_word : schwa_for (lit "hi") (lit "aba") = lit "aba".
Proof. vm_compute. reflexivity. Qed.

Example schwa_disabled_tamil :
  schwa_for (lit "ta") (lit "kitaba") = lit "kitaba".
Proof. vm_compute. reflexivity. Qed.

Example schwa_unlisted_language :
  schwa_for (lit "xx") (lit "kitaba") = lit "kitab".
Proof. vm_compute. reflexivity. Qed.

(* --------------------------------------------------------------------- *)
(*  C2: the classifier's priority order                                  *)
(* --------------------------------------------------------------------- *)




Example contraction_before_tech_term :
  is_keep_word ascii_unicode
    {| FORMALITY_SCORES := ∅; MANUAL_KEEP_WORDS := ∅;
       TECH_TERMS := {[ lit "can't" ]}; zipf_frequency := fun _ => 0%Q |}
    (lit "Can't") None 2 7 = false.
Proof. vm_compute. reflexivity. Qed.

Example tech_term_before_verb :
  is_keep_word ascii_unicode sample_resources (lit "API") (Some (lit "VBP")) 2 7
  = true.
Proof. vm_compute. reflexivity. Qed.

Example verb_before_formality :
  is_keep_word ascii_unicode
    {| FORMALITY_SCORES := {[ lit "send" := 9%Q ]}; MANUAL_KEEP_WORDS := ∅;
       TECH_TERMS := ∅; zipf_frequency := fun _ => 0%Q |}
    (lit "send") (Some (lit "VB")) 2 7 = false.
Proof. vm_compute. reflexivity. Qed.

Example formality_at_threshold :
  is_keep_word ascii_unicode
    {| FORMALITY_SCORES := {[ lit "report" := 3%Q ]}; MANUAL_KEEP_WORDS := ∅;
       TECH_TERMS := ∅; zipf_frequency := fun _ => 9%Q |}
    (lit "report") (Some (lit "NN")) 2 7 = true.
Proof. vm_compute. reflexivity. Qed.

(* --------------------------------------------------------------------- *)
(*  C4: the cohesion pass                                                *)
(* --------------------------------------------------------------------- *)

Lemma for_range_invariant {A} (body : nat -> A -> option A)
    (P : nat -> A -> Prop) (n : nat) :
  forall i a,
    P i a ->
    (forall k b, i <= k < i + n -> P k b ->
                 exists b', body k b = Some b' /\ P (S k) b') ->
    exists a', for_range body i n a = Some a' /\ P (i + n) a'.
Proof.
  induction n as [|n IH]; intros i a HP Hstep; simpl.
  - exists a. by rewrite Nat.add_0_r.
  - destruct (Hstep i a) as (a1 & -> & HP1); [lia | done |]. simpl.
    destruct (IH (S i) a1 HP1) as (a' & Hrun & HP').
    + intros k b Hk. apply Hstep. lia.
    + exists a'. split; [done|]. by replace (i + S n) with (S i + n) by lia.
Qed.

Section CohesionProof.
Context (U : Unicode) (R : Resources).
Context (words clean_words : list str) (tags : gmap str str).
Context (decisions : list bool).

Local Abbreviation verdict :=
  (cohesion_verdict U R words clean_words tags decisions).
Local Abbreviation inv :=
  (cohesion_inv U R words clean_words tags decisions).

Lemma cohesion_verdict_insert (j k : nat) (d b : bool) (cur : list bool) :
  j < k -> verdict j d (<[k := b]> cur) = verdict j d cur.
Proof.
  intros Hjk. unfold cohesion_verdict, left_is_translate.
  destruct (0 <? j) eqn:Hj; [|done].
  apply Nat.ltb_lt in Hj.
  by rewrite list_lookup_insert_ne by lia.
Qed.

Lemma cohesion_inv_keep (k : nat) (cur : list bool) (d : bool) :
  inv k cur -> decisions !! k = Some d ->
  verdict k d cur = d ->
  inv (S k) cur.
Proof.
  intros (Hlen & Hright & Hleft) Hd Hv. split; [done|]. split.
  - intros j Hj. apply Hright. lia.
  - intros j d' Hj Hd'. destruct (decide (j = k)) as [->|Hne].
    + rewrite Hd in Hd'. injection Hd' as <-. rewrite Hv.
      by rewrite Hright.
    + apply Hleft; [lia | done].
Qed.

Lemma cohesion_inv_flip (k : nat) (cur : list bool) (d : bool) :
  inv k cur -> decisions !! k = Some d ->
  verdict k d cur = false ->
  inv (S k) (<[k := false]> cur).
Proof.
  intros (Hlen & Hright & Hleft) Hd Hv.
  assert (Hk : k < length cur).
  { rewrite Hlen. by apply lookup_lt_Some in Hd. }
  split; [by rewrite length_insert|]. split.
  - intros j Hj. rewrite list_lookup_insert_ne by lia. apply Hright. lia.
  - intros j d' Hj Hd'. destruct (decide (j = k)) as [->|Hne].
    + rewrite Hd in Hd'. injection Hd' as <-.
      rewrite list_lookup_insert_eq by done.
      f_equal. symmetry.
      unfold cohesion_verdict, left_is_translate in *.
      destruct (0 <? k) eqn:H0; [|done].
      apply Nat.ltb_lt in H0.
      by rewrite list_lookup_insert_ne by lia.
    + rewrite list_lookup_insert_ne by done.
      rewrite cohesion_verdict_insert by lia.
      apply Hleft; [lia | done].
Qed.

Hypothesis Hclean : length clean_words = length words.
Hypothesis Hdec : length decisions = length words.

Lemma cohesion_step_inv (k : nat) (cur : list bool) :
  k < length words -> inv k cur ->
  exists cur', cohesion_step U R words clean_words tags k cur = Some cur'
               /\ inv (S k) cur'.
Proof.
  intros Hk Hinv. pose proof Hinv as (Hlen & Hright & Hleft).
  destruct (lookup_lt_is_Some_2 decisions k) as [d Hd]; [lia|].
  destruct (lookup_lt_is_Some_2 clean_words k) as [clean Hc]; [lia|].
  destruct (lookup_lt_is_Some_2 words k) as [word Hw]; [lia|].
  assert (Hcur : cur !! k = Some d) by (rewrite Hright by lia; done).
  unfold cohesion_step. rewrite Hcur. simpl.
  assert (Hflip : flippable U R words clean_words tags k
                  = negb (bool_decide (u_lower U clean ∈ TECH_TERMS R))
                    && is_weak_tag (lookup_tag tags clean word)).
  { unfold flippable. by rewrite Hc, Hw. }
  destruct d.
  2:{ exists cur. split; [done|]. by apply (cohesion_inv_keep k cur false). }
  rewrite Hc. simpl.
  destruct (bool_decide (u_lower U clean ∈ TECH_TERMS R)) eqn:Htech.
  { exists cur. split; [done|]. apply (cohesion_inv_keep k cur true); try done.
    unfold cohesion_verdict. by rewrite Hflip. }
  rewrite Hw. simpl.
  destruct (is_weak_tag (lookup_tag tags clean word)) eqn:Hweak.
  2:{ exists cur. split; [done|]. apply (cohesion_inv_keep k cur true); try done.
      unfold cohesion_verdict. by rewrite Hflip. }
  assert (Hl : (if 0 <? k then negb <$> cur !! (k - 1) else Some false)
               = Some (left_is_translate k cur)).
  { unfold left_is_translate. destruct (0 <? k) eqn:H0; [|done].
    apply Nat.ltb_lt in H0.
    destruct (lookup_lt_is_Some_2 cur (k - 1)) as [x Hx]; [lia|].
    by rewrite Hx. }
  assert (Hr : (if k <? length words - 1 then negb <$> cur !! (k + 1)
                else Some false)
               = Some (right_is_translate (length words) k decisions)).
  { unfold right_is_translate.
    destruct (k <? length words - 1) eqn:H1; [|done].
    apply Nat.ltb_lt in H1. rewrite Hright by lia.
    destruct (lookup_lt_is_Some_2 decisions (k + 1)) as [x Hx]; [lia|].
    by rewrite Hx. }
  rewrite Hl. simpl. rewrite Hr. simpl.
  destruct (left_is_translate k cur
            || right_is_translate (length words) k decisions) eqn:Hn.
  - exists (<[k := false]> cur). split; [done|].
    apply (cohesion_inv_flip k cur true); try done.
    unfold cohesion_verdict. by rewrite Hflip, Hn.
  - exists cur. split; [done|]. apply (cohesion_inv_keep k cur true); try done.
    unfold cohesion_verdict. by rewrite Hflip, Hn.
Qed.

Lemma cohesion_runs :
  exists out, cohesion U R words clean_words tags decisions = Some out
              /\ inv (length words) out.
Proof.
  unfold cohesion.
  destruct (for_range_invariant
              (cohesion_step U R words clean_words tags)
              inv (length words) 0 decisions)
    as (out & Hrun & Hinv).
  - split; [done|]. split; [done|]. intros j d Hj. lia.
  - intros k b Hk Hb. apply cohesion_step_inv; [lia | done].
  - exists out. split; [done|]. done.
Qed.
End CohesionProof.

Lemma is_weak_tag_spec (tag : option str) :
  is_weak_tag tag = true <->
  exists t p, tag = Some t /\ p ∈ WEAK_TAGS /\ p `prefix_of` t.
Proof.
  unfold is_weak_tag. rewrite existsb_exists. split.
  - intros (p & Hin & Hp). destruct tag as [t|]; [|done].
    exists t, p. split; [done|]. split; [by apply list_elem_of_In|].
    by apply startswith_prefix.
  - intros (t & p & -> & Hin & Hp). exists p.
    split; [by apply list_elem_of_In|]. by apply startswith_prefix.
Qed.

(** C4. The cohesion pass visits the decision array once, left to right.
    It returns an array of the same length in which a token is translate
    exactly when it was translate before, or it was keep, carries a weak
    tag (a tag starting with RB, RBR, RBS, IN, CC, TO, DT, UH or MD), is not
    a technical term, and its left neighbour (as the pass has left it) or
    its right neighbour (as classification left it, the pass not having
    reached it) is translate.  Every other decision is returned as it was;
    the classifier is not consulted. *)
Theorem cohesion_pass (U : Unicode) (R : Resources) (words clean_words : list str)
    (tags : gmap str str) (decisions : list bool) :
  length clean_words = length words ->
  length decisions = length words ->
  (exists out,
      cohesion U R words clean_words tags decisions = Some out
      /\ length out = length decisions
      /\ forall i d, decisions !! i = Some d ->
           out !! i =
           Some (if d && flippable U R words clean_words tags i
                    && (left_is_translate i out
                        || right_is_translate (length words) i decisions)
                 then false else d))
  /\ (forall tag, is_weak_tag tag = true <->
                  exists t p, tag = Some t /\ p ∈ WEAK_TAGS /\ p `prefix_of` t).
Proof.
  intros Hclean Hdec. split; [|apply is_weak_tag_spec].
  destruct (cohesion_runs U R words clean_words tags decisions Hclean Hdec)
    as (out & Hrun & Hlen & _ & Hleft).
  exists out. split; [done|]. split; [done|].
  intros i d Hd. apply Hleft; [|done].
  apply lookup_lt_Some in Hd. lia.
Qed.

Lemma cohesion_pass_witness :
  exists out,
    cohesion ascii_unicode sample_resources sample_words sample_words
             sample_tags [false; true; true] = Some out
    /\ out !! 1 = Some false /\ out !! 2 = Some true.
Proof.
  destruct (cohesion_pass ascii_unicode sample_resources sample_words
              sample_words sample_tags [false; true; true] eq_refl eq_refl)
    as [(out & Hrun & Hlen & Hout) _].
  exists out. split; [exact Hrun|].
  assert (H0 : out !! 0 = Some false) by exact (Hout 0 false eq_refl).
  assert (H1 : out !! 1 = Some false).
  { rewrite (Hout 1 true eq_refl). unfold left_is_translate.
    simpl. rewrite H0. reflexivity. }
  split; [exact H1|].
  rewrite (Hout 2 true eq_refl). reflexivity.
Defined.

Example cohesion_cascade :
  cohesion ascii_unicode sample_resources
           [lit "come"; lit "to"; lit "to"; lit "office"]
           [lit "come"; lit "to"; lit "to"; lit "office"]
           sample_tags [false; true; true; true]
  = Some [false; false; false; true].
Proof. vm_compute. reflexivity. Qed.

(* --------------------------------------------------------------------- *)
(*  Placeholders                                                         *)
(* --------------------------------------------------------------------- *)

Lemma lit_inj (s1 s2 : string) : lit s1 = lit s2 -> s1 = s2.
Proof.
  unfold lit. intros H.
  rewrite <- (string_of_list_ascii_of_string s1).
  rewrite <- (string_of_list_ascii_of_string s2). f_equal.
  revert H. generalize (list_ascii_of_string s1) (list_ascii_of_string s2).
  intros l1. induction l1 as [|a l1 IH]; intros [|b l2] H; try done.
  simpl in H. injection H as Hab Hl. f_equal; [|by apply IH].
  rewrite <- (ascii_N_embedding a), <- (ascii_N_embedding b). by rewrite Hab.
Qed.

Lemma dec_inj (n m : nat) : dec n = dec m -> n = m.
Proof.
  unfold dec. intros H. apply lit_inj in H.
  apply Unsigned.to_uint_inj.
  assert (Hs : Some (Nat.to_uint n) = Some (Nat.to_uint m)).
  { rewrite <- !NilEmpty.usu. by rewrite H. }
  by injection Hs.
Qed.

Lemma token_key_inj (b : bool) (id1 id2 : str) :
  token_key b id1 = token_key b id2 -> id1 = id2.
Proof.
  unfold token_key. destruct b; intros H.
  - apply app_inv_head in H. by apply app_inv_tail in H.
  - by apply app_inv_head in H.
Qed.

Lemma token_inj (b : bool) (n m : nat) :
  token_key b (dec n) = token_key b (dec m) -> n = m.
Proof. intros H. by apply dec_inj, (token_key_inj b). Qed.

(* --------------------------------------------------------------------- *)
(*  The masker against its specification                                 *)
(* --------------------------------------------------------------------- *)

Lemma keep_runs_from_run (cur words : list str) (decisions : list bool) :
  keep_runs_from cur words decisions =
  flush (cur ++ run_of words decisions)
  ++ keep_runs_from [] (drop (length (run_of words decisions)) words)
                       (drop (length (run_of words decisions)) decisions).
Proof.
  revert cur decisions.
  induction words as [|w words IH]; intros cur [|[] decisions]; simpl;
    rewrite ?app_nil_r; try done.
  rewrite IH. by rewrite <- app_assoc.
Qed.

Lemma keep_runs_cons_true (w : str) (words : list str) (decisions : list bool) :
  keep_runs (w :: words) (true :: decisions) =
  (w :: run_of words decisions)
  :: keep_runs (drop (length (run_of words decisions)) words)
               (drop (length (run_of words decisions)) decisions).
Proof. unfold keep_runs. simpl. by rewrite keep_runs_from_run. Qed.

Lemma keep_runs_cons_false (w : str) (words : list str) (decisions : list bool) :
  keep_runs (w :: words) (false :: decisions) = keep_runs words decisions.
Proof. done. Qed.

Lemma masked_from_in_run (b : bool) (token_id : nat) (words : list str)
    (decisions : list bool) :
  masked_from b true token_id words decisions =
  masked_from b false token_id
              (drop (length (run_of words decisions)) words)
              (drop (length (run_of words decisions)) decisions).
Proof.
  revert decisions.
  induction words as [|w words IH]; intros [|[] decisions]; simpl; done.
Qed.

Section MaskerProof.
Context (is_indictrans : bool) (words : list str) (decisions : list bool).
Hypothesis Hdec : length decisions = length words.

Lemma extend_chunk_spec (fuel j : nat) (chunk : list str) :
  length words - j < fuel ->
  extend_chunk fuel words decisions j chunk =
  Some (chunk ++ run_of (drop j words) (drop j decisions),
        j + length (run_of (drop j words) (drop j decisions))).
Proof.
  revert j chunk. induction fuel as [|fuel IH]; intros j chunk Hfuel; [lia|].
  simpl. destruct (j <? length words) eqn:Hj.
  - apply Nat.ltb_lt in Hj.
    destruct (lookup_lt_is_Some_2 words j) as [w Hw]; [lia|].
    destruct (lookup_lt_is_Some_2 decisions j) as [d Hd]; [lia|].
    rewrite Hd. simpl. rewrite (drop_S _ _ _ Hw), (drop_S _ _ _ Hd).
    destruct d; simpl.
    + rewrite Hw. simpl. rewrite IH by lia. rewrite <- app_assoc. simpl.
      do 2 f_equal. lia.
    + rewrite app_nil_r. do 2 f_equal. lia.
  - apply Nat.ltb_ge in Hj. rewrite !drop_ge by lia. simpl.
    rewrite app_nil_r. do 2 f_equal. lia.
Qed.

Lemma mask_loop_spec (fuel i token_id : nat) (kept_words : gmap str str)
    (masked_words : list str) :
  length words - i < fuel ->
  mask_loop is_indictrans fuel words decisions i token_id kept_words
            masked_words =
  Some (add_chunks is_indictrans token_id
                   (keep_runs (drop i words) (drop i decisions)) kept_words,
        masked_words
        ++ masked_from is_indictrans false token_id
                       (drop i words) (drop i decisions)).
Proof.
  revert i token_id kept_words masked_words.
  induction fuel as [|fuel IH]; intros i token_id kept_words masked_words Hfuel;
    [lia|].
  simpl. destruct (i <? length words) eqn:Hi.
  - apply Nat.ltb_lt in Hi.
    destruct (lookup_lt_is_Some_2 words i) as [w Hw]; [lia|].
    destruct (lookup_lt_is_Some_2 decisions i) as [d Hd]; [lia|].
    rewrite Hd, Hw. simpl. rewrite (drop_S _ _ _ Hw), (drop_S _ _ _ Hd).
    destruct d.
    + pose proof (extend_chunk_spec (S (length words)) (i + 1) [w]) as Hext.
      simpl in Hext. rewrite Hext by lia. clear Hext. simpl.
      replace (i + 1) with (S i) by lia.
      set (run := run_of (drop (S i) words) (drop (S i) decisions)).
      rewrite IH by lia.
      rewrite keep_runs_cons_true. fold run. simpl.
      rewrite masked_from_in_run. fold run.
      rewrite !drop_drop. rewrite <- app_assoc. simpl.
      by replace (token_id + 1) with (S token_id) by lia.
    + rewrite IH by lia. rewrite keep_runs_cons_false. simpl.
      replace (i + 1) with (S i) by lia. by rewrite <- app_assoc.
  - apply Nat.ltb_ge in Hi. rewrite !drop_ge by lia. simpl.
    by rewrite app_nil_r.
Qed.

Lemma mask_spec :
  mask is_indictrans words decisions =
  Some (add_chunks is_indictrans 0 (keep_runs words decisions) ∅,
        masked_from is_indictrans false 0 words decisions).
Proof.
  unfold mask. rewrite mask_loop_spec by lia. by rewrite !drop_0.
Qed.
End MaskerProof.

Lemma add_chunks_lookup_other (b : bool) (runs : list (list str)) :
  forall (token_id : nat) (kept_words : gmap str str) (key : str),
    (forall k, token_id <= k < token_id + length runs ->
               key <> token_key b (dec k)) ->
    add_chunks b token_id runs kept_words !! key = kept_words !! key.
Proof.
  induction runs as [|run runs IH]; intros token_id kept_words key Hkey;
    simpl; [done|].
  rewrite IH.
  - apply lookup_insert_ne. intros Heq. apply (Hkey token_id); [simpl; lia|].
    done.
  - intros k Hk. apply Hkey. simpl. lia.
Qed.

Lemma add_chunks_lookup (b : bool) (runs : list (list str)) :
  forall (token_id : nat) (kept_words : gmap str str) (k : nat) (run : list str),
    runs !! k = Some run ->
    add_chunks b token_id runs kept_words !! token_key b (dec (token_id + k))
    = Some (join (lit " ") run).
Proof.
  induction runs as [|run0 runs IH]; intros token_id kept_words k run Hk;
    [done|].
  destruct k as [|k]; simpl in *.
  - injection Hk as ->. rewrite Nat.add_0_r. rewrite add_chunks_lookup_other.
    + apply lookup_insert_eq.
    + intros k Hk Heq. apply token_inj in Heq. lia.
  - replace (token_id + S k) with (S token_id + k) by lia. by apply IH.
Qed.

Lemma add_chunks_size (b : bool) (runs : list (list str)) :
  forall (token_id : nat) (kept_words : gmap str str),
    (forall k, token_id <= k -> kept_words !! token_key b (dec k) = None) ->
    size (add_chunks b token_id runs kept_words)
    = size kept_words + length runs.
Proof.
  induction runs as [|run runs IH]; intros token_id kept_words Hfresh; simpl;
    [lia|].
  rewrite IH.
  - rewrite map_size_insert_None by (apply Hfresh; lia). lia.
  - intros k Hk. rewrite lookup_insert_ne; [apply Hfresh; lia|].
    intros Heq. apply token_inj in Heq. lia.
Qed.

Lemma keep_runs_from_count (words : list str) :
  forall (cur : list str) (decisions : list bool),
    length decisions = length words ->
    length (keep_runs_from cur words decisions)
    = length (flush cur)
      + run_starts (match cur with [] => false | _ => true end) decisions.
Proof.
  induction words as [|w words IH]; intros cur [|d decisions] Hlen;
    simpl in *; try lia.
  destruct d; simpl.
  - rewrite IH by lia. destruct cur; simpl; lia.
  - rewrite length_app, IH by lia. simpl. lia.
Qed.

Lemma keep_runs_count (words : list str) (decisions : list bool) :
  length decisions = length words ->
  length (keep_runs words decisions) = run_starts false decisions.
Proof. intros H. unfold keep_runs. by rewrite keep_runs_from_count. Qed.

(* --------------------------------------------------------------------- *)
(*  The restorer, part by part                                           *)
(* --------------------------------------------------------------------- *)

Section RestorerProof.
Context (U : Unicode) (W : World) (target_lang : str).
Context (kept_words : gmap str str).

Lemma restore_loop_parts (parts : list str) :
  forall (b : bool) (final_parts : list str),
    restore_loop U W target_lang kept_words b parts = Some final_parts ->
    length final_parts = length parts
    /\ forall i part, parts !! i = Some part ->
         if is_id_at b i
         then final_parts !! i = Some (restore_id W kept_words part)
         else exists restored,
                restore_literal U W target_lang part = Some restored
                /\ final_parts !! i = Some restored.
Proof.
  induction parts as [|part parts IH]; intros b final_parts Hrun.
  - injection Hrun as <-. split; [done|]. intros i part Hi. done.
  - simpl in Hrun. destruct b.
    + destruct (restore_loop U W target_lang kept_words false parts)
        as [rest|] eqn:Hrest; [|done].
      simpl in Hrun. injection Hrun as <-.
      destruct (IH false rest Hrest) as [Hlen Hparts].
      split; [simpl; lia|]. intros [|i] p Hp; simpl in *.
      * by injection Hp as ->.
      * specialize (Hparts i p Hp). unfold is_id_at in *.
        rewrite Nat.odd_succ, <- Nat.negb_odd. simpl in *.
        by destruct (Nat.odd i).
    + destruct (restore_literal U W target_lang part) as [restored|] eqn:Hlit;
        [|done].
      simpl in Hrun.
      destruct (restore_loop U W target_lang kept_words true parts)
        as [rest|] eqn:Hrest; [|done].
      simpl in Hrun. injection Hrun as <-.
      destruct (IH true rest Hrest) as [Hlen Hparts].
      split; [simpl; lia|]. intros [|i] p Hp; simpl in *.
      * injection Hp as ->. by exists restored.
      * specialize (Hparts i p Hp). unfold is_id_at in *.
        rewrite Nat.odd_succ, <- Nat.negb_odd. simpl in *.
        by destruct (Nat.odd i).
Qed.

Lemma restore_loop_total (parts : list str) :
  forall b : bool,
    (forall i part, parts !! i = Some part -> is_id_at b i = false ->
                    is_Some (restore_literal U W target_lang part)) ->
    is_Some (restore_loop U W target_lang kept_words b parts).
Proof.
  induction parts as [|part parts IH]; intros b Hlit; simpl; [done|].
  destruct b.
  - destruct (IH false) as [rest ->]; [|done].
    intros i p Hp Hi. apply (Hlit (S i) p Hp). unfold is_id_at in *.
    rewrite Nat.odd_succ, <- Nat.negb_odd. simpl in *. by destruct (Nat.odd i).
  - destruct (Hlit 0 part eq_refl eq_refl) as [restored ->]. simpl.
    destruct (IH true) as [rest ->]; [|done].
    intros i p Hp Hi. apply (Hlit (S i) p Hp). unfold is_id_at in *.
    rewrite Nat.odd_succ, <- Nat.negb_odd. simpl in *. by destruct (Nat.odd i).
Qed.

Lemma placeholder_ids_lookup (parts : list str) :
  forall (b : bool) (id : str),
    id ∈ placeholder_ids b parts ->
    exists i, is_id_at b i = true /\ parts !! i = Some id.
Proof.
  induction parts as [|part parts IH]; intros b id Hin; simpl in *.
  - by apply elem_of_nil in Hin.
  - destruct b.
    + apply elem_of_cons in Hin as [->|Hin].
      * by exists 0.
      * destruct (IH false id Hin) as (i & Hi & Hp). exists (S i).
        split; [|done]. unfold is_id_at in *.
        rewrite Nat.odd_succ, <- Nat.negb_odd. simpl in *.
        by destruct (Nat.odd i).
    + destruct (IH true id Hin) as (i & Hi & Hp). exists (S i).
      split; [|done]. unfold is_id_at in *.
      rewrite Nat.odd_succ, <- Nat.negb_odd. simpl in *.
      by destruct (Nat.odd i).
Qed.
End RestorerProof.

(* --------------------------------------------------------------------- *)
(*  re.split on markup written out segment by segment                    *)
(* --------------------------------------------------------------------- *)

Lemma dec_digits (n : nat) :
  dec n <> [] /\ Forall (fun c => ascii_isdigit c = true) (dec n).
Proof.
  unfold dec. split.
  - destruct (Nat.to_uint n) eqn:E; try done.
    pose proof (Unsigned.of_to n) as Hn. rewrite E in Hn. simpl in Hn.
    subst n. discriminate E.
  - induction (Nat.to_uint n) as [|d IH|d IH|d IH|d IH|d IH|d IH|d IH|d IH|d IH
                                  |d IH]; simpl;
      [constructor | constructor; [reflexivity | exact IH] ..].
Qed.

Lemma ascii_digit_classes (U : Unicode) (c : char) :
  ascii_isdigit c = true -> u_isdigit U c = true /\ u_isspace U c = false.
Proof.
  intros Hc. assert (Hlt : (c < 128)%N).
  { unfold ascii_isdigit in Hc. apply andb_true_iff in Hc as [_ H].
    apply N.leb_le in H. lia. }
  rewrite u_isdigit_ascii, u_isspace_ascii by done. split; [done|].
  unfold ascii_isdigit in Hc. apply andb_true_iff in Hc as [H1 H2].
  apply N.leb_le in H1. apply N.leb_le in H2. unfold ascii_isspace.
  apply orb_false_iff; split; [apply orb_false_iff; split|].
  - apply N.eqb_neq. lia.
  - apply andb_false_iff. right. apply N.leb_gt. lia.
  - apply andb_false_iff. right. apply N.leb_gt. lia.
Qed.

Lemma span_app_all (p : char -> bool) (s rest : str) :
  Forall (fun c => p c = true) s ->
  span p (s ++ rest) = (s ++ (span p rest).1, (span p rest).2).
Proof.
  induction 1 as [|c s Hc _ IH]; simpl; [by destruct (span p rest)|].
  by rewrite Hc, IH.
Qed.

Lemma span_length (p : char -> bool) (s : str) :
  length (span p s).2 <= length s.
Proof.
  induction s as [|c s IH]; simpl; [done|].
  destruct (p c); [|simpl; lia]. destruct (span p s). simpl in *. lia.
Qed.

Section SplitProof.
Context (U : Unicode).

Lemma span_no_digit (s : str) :
  starts_with_digit U s = false -> span (u_isdigit U) s = ([], s).
Proof. destruct s as [|c s]; simpl; [done|]. by intros ->. Qed.

Lemma match_var_token (id rest : str) :
  id <> [] -> Forall (fun c => ascii_isdigit c = true) id ->
  starts_with_digit U rest = false ->
  match_var U (token_key false id ++ rest) = Some (id, rest).
Proof.
  intros Hne Hid Hrest.
  change (token_key false id ++ rest)
    with (ch "V" :: ch "A" :: ch "R" :: ch "_" :: id ++ rest).
  unfold match_var.
  change (ci "V" (ch "V") && ci "A" (ch "A") && ci "R" (ch "R")
          && (ch "_" =? ch "_")%N) with true.
  cbv iota. rewrite span_app_all, span_no_digit by
    (done || (eapply Forall_impl; [exact Hid|];
              intros c Hc; by apply ascii_digit_classes)).
  simpl. rewrite app_nil_r. by destruct id.
Qed.

Lemma match_brace_token (id rest : str) :
  id <> [] -> Forall (fun c => ascii_isdigit c = true) id ->
  match_brace U (token_key true id ++ rest) = Some (id, rest).
Proof.
  intros Hne Hid.
  assert (Hclose : forall t, span (u_isspace U) (ch "}" :: t)
                             = ([], ch "}" :: t)).
  { intros t. simpl. by rewrite u_isspace_ascii by reflexivity. }
  assert (Hnodigit : forall t, span (u_isdigit U) (ch "}" :: t)
                               = ([], ch "}" :: t)).
  { intros t. simpl. by rewrite u_isdigit_ascii by reflexivity. }
  unfold token_key. rewrite <- !app_assoc.
  change (lit "{{" ++ id ++ lit "}}" ++ rest)
    with (ch "{" :: ch "{" :: id ++ ch "}" :: ch "}" :: rest).
  unfold match_brace.
  change ((ch "{" =? ch "{")%N && (ch "{" =? ch "{")%N) with true. cbv iota.
  assert (Hsp : span (u_isspace U) (id ++ ch "}" :: ch "}" :: rest)
                = ([], id ++ ch "}" :: ch "}" :: rest)).
  { destruct id as [|c id]; [done|]. apply Forall_cons in Hid as [Hc _].
    simpl. by rewrite (proj2 (ascii_digit_classes U c Hc)). }
  rewrite Hsp. cbn [snd]. rewrite span_app_all, Hnodigit by
    (eapply Forall_impl; [exact Hid|];
     intros c Hc; by apply ascii_digit_classes).
  cbn [fst snd]. rewrite app_nil_r, Hclose. cbn [snd].
  change ((ch "}" =? ch "}")%N && (ch "}" =? ch "}")%N) with true.
  by destruct id.
Qed.

Lemma match_token_placeholder (b : bool) (id rest : str) :
  id <> [] -> Forall (fun c => ascii_isdigit c = true) id ->
  starts_with_digit U rest = false ->
  match_token U b (token_key b id ++ rest) = Some (id, rest).
Proof.
  intros. destruct b; simpl;
    [by apply match_brace_token | by apply match_var_token].
Qed.

Lemma match_token_not_opening (b : bool) (c : char) (s : str) :
  opens_placeholder b c = false -> match_token U b (c :: s) = None.
Proof.
  unfold opens_placeholder, match_token. destruct b; intros Hc.
  - unfold match_brace. destruct s as [|c2 s]; [done|]. by rewrite Hc.
  - unfold match_var. destruct s as [|a [|r [|u s]]]; try done. by rewrite Hc.
Qed.

Lemma match_token_shorter (b : bool) (s id rest : str) :
  match_token U b s = Some (id, rest) -> length rest < length s.
Proof.
  unfold match_token. destruct b.
  - unfold match_brace. destruct s as [|o1 [|o2 t]]; try done.
    destruct (_ && _); [|done].
    pose proof (span_length (u_isspace U) t) as H1.
    destruct (span (u_isdigit U) (span (u_isspace U) t).2)
      as [digits rest'] eqn:Hd.
    pose proof (span_length (u_isdigit U) (span (u_isspace U) t).2) as H2.
    rewrite Hd in H2. simpl in H2.
    destruct digits; [done|].
    pose proof (span_length (u_isspace U) rest') as H3.
    destruct (span (u_isspace U) rest').2 as [|c1 [|c2 r]] eqn:Hs; try done.
    destruct (_ && _); [|done]. intros [= _ <-]. simpl in *. lia.
  - unfold match_var. destruct s as [|v [|a [|r [|u t]]]]; try done.
    destruct (_ && _); [|done].
    pose proof (span_length (u_isdigit U) t) as H1.
    destruct (span (u_isdigit U) t) as [digits rest']. simpl in H1.
    destruct digits; [done|]. intros [= _ <-]. simpl. lia.
Qed.

Lemma split_loop_fuel (b : bool) (fuel1 : nat) :
  forall (fuel2 : nat) (acc s : str),
    length s <= fuel1 -> length s <= fuel2 ->
    split_loop U b fuel1 acc s = split_loop U b fuel2 acc s.
Proof.
  induction fuel1 as [|fuel1 IH]; intros fuel2 acc s H1 H2.
  - destruct s; [|simpl in H1; lia]. by destruct fuel2.
  - destruct s as [|c s]; [by destruct fuel2|].
    destruct fuel2 as [|fuel2]; [simpl in H2; lia|]. simpl in *.
    destruct (match_token U b (c :: s)) as [[id rest]|] eqn:Hm.
    + apply match_token_shorter in Hm. simpl in Hm.
      do 2 f_equal. apply IH; lia.
    + apply IH; lia.
Qed.

Lemma split_loop_literal (b : bool) (literal : str) :
  forall (fuel : nat) (acc s : str),
    Forall (fun c => opens_placeholder b c = false) literal ->
    length literal <= fuel ->
    split_loop U b fuel acc (literal ++ s)
    = split_loop U b (fuel - length literal) (acc ++ literal) s.
Proof.
  induction literal as [|c literal IH]; intros fuel acc s Hlit Hfuel; simpl.
  - by rewrite Nat.sub_0_r, app_nil_r.
  - apply Forall_cons in Hlit as [Hc Hlit].
    destruct fuel as [|fuel]; [simpl in Hfuel; lia|]. simpl.
    rewrite (match_token_not_opening b c _ Hc).
    rewrite IH by (done || simpl in Hfuel; lia).
    by rewrite <- app_assoc.
Qed.

Lemma re_split_literal (b : bool) (literal : str) :
  Forall (fun c => opens_placeholder b c = false) literal ->
  re_split U b literal = [literal].
Proof.
  intros Hlit. unfold re_split.
  rewrite <- (app_nil_r literal) at 2.
  rewrite split_loop_literal by done.
  rewrite Nat.sub_diag. simpl. by rewrite app_nil_r.
Qed.

Lemma re_split_placeholder (b : bool) (literal id rest : str) :
  Forall (fun c => opens_placeholder b c = false) literal ->
  id <> [] -> Forall (fun c => ascii_isdigit c = true) id ->
  starts_with_digit U rest = false ->
  re_split U b (literal ++ token_key b id ++ rest)
  = literal :: id :: re_split U b rest.
Proof.
  intros Hlit Hne Hid Hrest. unfold re_split.
  rewrite split_loop_literal by (done || rewrite length_app; lia).
  rewrite length_app, Nat.add_sub'. simpl.
  assert (Htok : exists c t, token_key b id ++ rest = c :: t).
  { unfold token_key. destruct b; by eexists _, _. }
  destruct Htok as (c & t & Htok).
  pose proof (match_token_placeholder b id rest Hne Hid Hrest) as Hm.
  rewrite Htok in *. simpl. rewrite Hm. do 2 f_equal.
  apply match_token_shorter in Hm. simpl in Hm.
  apply split_loop_fuel; lia.
Qed.

Lemma render_no_digit (b : bool) (segments : list (str * nat)) (last : str) :
  Forall (fun seg => plain_literal U b seg.1) segments ->
  plain_literal U b last ->
  starts_with_digit U (render b segments last) = false.
Proof.
  intros Hsegs [_ Hlast]. destruct segments as [|[literal k] segments];
    [done|].
  apply Forall_cons in Hsegs as [[_ Hl] _]. simpl in *.
  destruct literal as [|c literal]; [|done]. simpl.
  unfold token_key. destruct b; simpl;
    by rewrite u_isdigit_ascii by reflexivity.
Qed.

Lemma re_split_render (b : bool) (segments : list (str * nat)) (last : str) :
  Forall (fun seg => plain_literal U b seg.1) segments ->
  plain_literal U b last ->
  re_split U b (render b segments last)
  = flat_map (fun seg => [seg.1; dec seg.2]) segments ++ [last].
Proof.
  intros Hsegs Hlast. induction segments as [|[literal k] segments IH]; simpl.
  - apply re_split_literal. by destruct Hlast.
  - pose proof Hsegs as Hall. apply Forall_cons in Hsegs as [[Hl _] Hsegs].
    destruct (dec_digits k) as [Hne Hdigits].
    rewrite re_split_placeholder; try done.
    + by rewrite IH.
    + by apply render_no_digit.
Qed.

End SplitProof.

Lemma restore_literal_total (U : Unicode) (W : World) (target_lang part : str) :
  (forall source target s, is_Some (transliterate_process W source target s)) ->
  is_Some (restore_literal U W target_lang part).
Proof.
  intros Htotal. unfold restore_literal, romanize.
  destruct (blank U part); [done|]. destruct (has_mask U part); [done|].
  destruct (Htotal (get_script_name target_lang) (lit "RomanColloquial") part)
    as [roman ->].
  done.
Qed.

(* --------------------------------------------------------------------- *)
(*  C1: masker and restorer                                              *)
(* --------------------------------------------------------------------- *)

Lemma rendered_part (segments : list (str * nat)) (last : str) :
  forall j literal k,
    segments !! j = Some (literal, k) ->
    (flat_map (fun seg : str * nat => [seg.1; dec seg.2]) segments ++ [last])
      !! (2 * j + 1) = Some (dec k).
Proof.
  induction segments as [|seg segments IH]; intros j literal k Hj; [done|].
  destruct j as [|j]; simpl in *.
  - by injection Hj as ->.
  - replace (j + S (j + 0) + 1) with (S (2 * j + 1)) by lia.
    by apply (IH j literal k).
Qed.

(** C1. For every token list and decision array of the same length the
    masker returns a placeholder map and masked words such that the k-th
    maximal run of keep tokens (k counted from 0) is the chunk stored under
    placeholder id k, its text being the run's tokens joined by single
    spaces; the map has exactly as many placeholders as there are maximal
    keep-runs, which is the number of places where a keep token opens the
    array or follows a translate token.  For every target language and
    every translated markup whose placeholder occurrences are the emitted
    ids, each exactly once and in any order, the restorer puts each chunk's
    exact text at the place of its placeholder; it returns whenever the
    transliterator does.  This covers every markup made of literal
    segments in which no placeholder can start, interleaved with the
    emitted placeholders, each written once. *)
Theorem mask_restore_round_trip (U : Unicode) (W : World) (words : list str)
    (decisions : list bool) :
  length decisions = length words ->
  exists kept_words masked_words,
    mask (is_indictrans W) words decisions = Some (kept_words, masked_words)
    /\ masked_words = masked_from (is_indictrans W) false 0 words decisions
    /\ (forall k run, keep_runs words decisions !! k = Some run ->
          kept_words !! token_key (is_indictrans W) (dec k)
          = Some (join (lit " ") run))
    /\ size kept_words = length (keep_runs words decisions)
    /\ length (keep_runs words decisions) = run_starts false decisions
    /\ (forall target_lang translated_markup,
          placeholder_ids false
            (re_split U (is_indictrans W) translated_markup)
          ≡ₚ map dec (seq 0 (length (keep_runs words decisions))) ->
          (forall final_parts,
              restore U W target_lang kept_words translated_markup
              = Some final_parts ->
              forall k run, keep_runs words decisions !! k = Some run ->
                exists i,
                  is_id_at false i = true
                  /\ re_split U (is_indictrans W) translated_markup !! i
                     = Some (dec k)
                  /\ final_parts !! i = Some (join (lit " ") run))
          /\ ((forall source target s,
                  is_Some (transliterate_process W source target s)) ->
              is_Some (restore U W target_lang kept_words translated_markup)))
    /\ (forall target_lang segments last_literal,
          Forall (fun seg => plain_literal U (is_indictrans W) seg.1) segments ->
          plain_literal U (is_indictrans W) last_literal ->
          map snd segments ≡ₚ seq 0 (length (keep_runs words decisions)) ->
          forall final_parts,
            restore U W target_lang kept_words
                    (render (is_indictrans W) segments last_literal)
            = Some final_parts ->
            forall j literal k, segments !! j = Some (literal, k) ->
              exists run,
                keep_runs words decisions !! k = Some run
                /\ final_parts !! (2 * j + 1) = Some (join (lit " ") run)).
Proof.
  intros Hdec. eexists _, _. split; [by apply mask_spec|].
  split; [done|].
  assert (Hlookup : forall k run, keep_runs words decisions !! k = Some run ->
            add_chunks (is_indictrans W) 0 (keep_runs words decisions) ∅
              !! token_key (is_indictrans W) (dec k)
            = Some (join (lit " ") run)).
  { intros k run Hk.
    by apply (add_chunks_lookup _ _ 0 ∅ k run). }
  split; [done|]. split.
  { rewrite add_chunks_size; [by rewrite map_size_empty|].
    intros k _. apply lookup_empty. }
  split; [by apply keep_runs_count|]. split.
  - intros target_lang translated_markup Hperm. split.
    + intros final_parts Hrestore k run Hk.
      assert (Hin : dec k ∈ placeholder_ids false
                      (re_split U (is_indictrans W) translated_markup)).
      { rewrite Hperm. apply list_elem_of_fmap. exists k. split; [done|].
        apply elem_of_seq. apply lookup_lt_Some in Hk. lia. }
      apply placeholder_ids_lookup in Hin as (i & Hi & Hpart).
      exists i. split; [done|]. split; [done|].
      apply restore_loop_parts in Hrestore as [_ Hparts].
      specialize (Hparts i (dec k) Hpart). rewrite Hi in Hparts.
      rewrite Hparts. unfold restore_id.
      by rewrite (Hlookup k run Hk).
    + intros Htotal. apply restore_loop_total.
      intros i part _ _. by apply restore_literal_total.
  - intros target_lang segments last_literal Hsegs Hlast Hperm final_parts
           Hrestore j literal k Hj.
    assert (Hk : k < length (keep_runs words decisions)).
    { assert (Hin : k ∈ map snd segments).
      { apply list_elem_of_fmap. exists (literal, k). split; [done|].
        by apply list_elem_of_lookup; exists j. }
      rewrite Hperm in Hin. apply elem_of_seq in Hin. lia. }
    destruct (lookup_lt_is_Some_2 _ _ Hk) as [run Hrun].
    exists run. split; [done|].
    unfold restore in Hrestore.
    rewrite (re_split_render U _ _ _ Hsegs Hlast) in Hrestore.
    apply restore_loop_parts in Hrestore as [_ Hparts].
    specialize (Hparts (2 * j + 1) (dec k)
                  (rendered_part segments last_literal j literal k Hj)).
    assert (Hodd : is_id_at false (2 * j + 1) = true).
    { unfold is_id_at. simpl xorb.
      rewrite Nat.add_1_r, Nat.odd_succ. apply Nat.even_spec.
      by exists j. }
    rewrite Hodd in Hparts. rewrite Hparts. unfold restore_id.
    by rewrite (Hlookup k run Hrun).
Qed.

Lemma mask_restore_round_trip_witness :
  exists kept_words masked_words,
    mask false [lit "my"; lit "API"; lit "is"; lit "Rahul"]
         [true; true; false; true]
    = Some (kept_words, masked_words)
    /\ size kept_words = 2
    /\ forall final_parts,
         restore ascii_unicode sample_world (lit "ta") kept_words
                 (lit "VAR_1 hai VAR_0") = Some final_parts ->
         exists i, final_parts !! i = Some (lit "my API").
Proof.
  destruct (mask_restore_round_trip ascii_unicode sample_world
              [lit "my"; lit "API"; lit "is"; lit "Rahul"]
              [true; true; false; true] eq_refl)
    as (kept_words & masked_words & Hmask & _ & _ & Hsize & _ & Hrestore & _).
  exists kept_words, masked_words. split; [exact Hmask|].
  split; [exact Hsize|].
  intros final_parts Hfinal.
  destruct (Hrestore (lit "ta") (lit "VAR_1 hai VAR_0")) as [Hchunks _].
  { vm_compute. apply perm_swap. }
  destruct (Hchunks final_parts Hfinal 0 [lit "my"; lit "API"] eq_refl)
    as (i & _ & _ & Hi).
  exists i. exact Hi.
Defined.

(* --------------------------------------------------------------------- *)
(*  C9: a placeholder id that is not in the map                          *)
(* --------------------------------------------------------------------- *)

(** C9. Let [id] be a placeholder-id segment parsed out of the translated
    markup (the part at position [i] of the split, [i] a position of
    captured ids).  If the placeholder built from [id] is not a key of the
    placeholder map, the restorer does not fail on it: provided every
    literal segment is restored, it returns one final part per segment, the
    part at position [i] being the text "(id)", and every other segment,
    before and after, is restored as usual. *)
Theorem restorer_unknown_id (U : Unicode) (W : World) (target_lang : str)
    (kept_words : gmap str str) (translated_markup : str) (i : nat) (id : str) :
  let parts := re_split U (is_indictrans W) translated_markup in
  parts !! i = Some id ->
  is_id_at false i = true ->
  kept_words !! token_key (is_indictrans W) id = None ->
  (forall j part, parts !! j = Some part -> is_id_at false j = false ->
                  is_Some (restore_literal U W target_lang part)) ->
  exists final_parts,
    restore U W target_lang kept_words translated_markup = Some final_parts
    /\ length final_parts = length parts
    /\ final_parts !! i = Some (lit "(" ++ id ++ lit ")")
    /\ forall j part, parts !! j = Some part ->
         if is_id_at false j
         then final_parts !! j = Some (restore_id W kept_words part)
         else exists restored,
                restore_literal U W target_lang part = Some restored
                /\ final_parts !! j = Some restored.
Proof.
  intros parts Hi Hid Hkey Hlit.
  destruct (restore_loop_total U W target_lang kept_words parts false Hlit)
    as [final_parts Hrun].
  exists final_parts. split; [exact Hrun|].
  destruct (restore_loop_parts U W target_lang kept_words parts false
              final_parts Hrun) as [Hlen Hparts].
  split; [exact Hlen|]. split; [|exact Hparts].
  specialize (Hparts i id Hi). rewrite Hid in Hparts. rewrite Hparts.
  unfold restore_id. by rewrite Hkey.
Qed.

Lemma restorer_unknown_id_witness :
  exists final_parts,
    restore ascii_unicode sample_world (lit "hi")
            {[ lit "VAR_0" := lit "Rahul" ]} (lit "namaste VAR_7 aur VAR_0")
    = Some final_parts
    /\ final_parts !! 1 = Some (lit "(7)")
    /\ final_parts !! 3 = Some (lit "Rahul").
Proof.
  destruct (restorer_unknown_id ascii_unicode sample_world (lit "hi")
              {[ lit "VAR_0" := lit "Rahul" ]} (lit "namaste VAR_7 aur VAR_0")
              1 (lit "7"))
    as (final_parts & Hrun & _ & H1 & Hall).
  - vm_compute. reflexivity.
  - reflexivity.
  - vm_compute. reflexivity.
  - intros j part _ _. apply restore_literal_total. intros ? ? s. by exists s.
  - exists final_parts. split; [exact Hrun|]. split; [exact H1|].
    assert (H3 : re_split ascii_unicode (is_indictrans sample_world)
                   (lit "namaste VAR_7 aur VAR_0") !! 3 = Some (lit "0"))
      by (vm_compute; reflexivity).
    apply Hall in H3. vm_compute in H3. vm_compute. exact H3.
Defined.

Example split_var_form :
  re_split ascii_unicode false (lit "kal var_1 hai VAR_10 VAR_x")
  = [lit "kal "; lit "1"; lit " hai "; lit "10"; lit " VAR_x"].
Proof. vm_compute. reflexivity. Qed.

Example split_brace_form :
  re_split ascii_unicode true (lit "kal {{ 1 }} hai {{0}}{ {2}}")
  = [lit "kal "; lit "1"; lit " hai "; lit "0"; lit "{ {2}}"].
Proof. vm_compute. reflexivity. Qed.

Example masker_two_runs :
  mask false [lit "my"; lit "API"; lit "is"; lit "n't"; lit "Rahul"]
       [true; true; false; false; true]
  = Some ({[ lit "VAR_0" := lit "my API"; lit "VAR_1" := lit "Rahul" ]},
          [lit "VAR_0"; lit "is"; lit "n't"; lit "VAR_1"])
  /\ masked_text_of ascii_unicode
       [lit "VAR_0"; lit "is"; lit "n't"; lit "VAR_1"]
     = lit "VAR_0 isn't VAR_1".
Proof. split; vm_compute; reflexivity. Qed.

(* --------------------------------------------------------------------- *)
(*  The batch processor                                                  *)
(* --------------------------------------------------------------------- *)

Section BatchProof.
Context (batch_wait_ms : Q) (max_batch_size : Z).
Context (translate_texts : list str -> str -> option (list str)).

Lemma collect_more_spec (clock : nat -> Q) (start_wait : Q)
    (pending : list request) :
  forall (k : nat) (batch : list request),
    let out := collect_more batch_wait_ms max_batch_size clock start_wait k
                            batch pending in
    out.1 ++ out.2 = batch ++ pending
    /\ batch `prefix_of` out.1
    /\ (Z.of_nat (length out.1)
        <= Z.max (Z.of_nat (length batch)) max_batch_size)%Z
    /\ forall j, length batch <= j < length out.1 ->
         Qltb (clock (k + (j - length batch)) - start_wait) batch_wait_ms = true.
Proof.
  induction pending as [|item pending IH]; intros k batch; simpl.
  - destruct ((Z.of_nat (length batch) <? max_batch_size)%Z
              && Qltb (clock k - start_wait) batch_wait_ms); simpl;
      (split; [done|]; split; [done|]; split; [lia|]; intros j Hj; lia).
  - destruct (Z.of_nat (length batch) <? max_batch_size)%Z eqn:Hmax; simpl.
    2:{ split; [done|]. split; [done|]. split; [lia|]. intros j Hj. lia. }
    destruct (Qltb (clock k - start_wait) batch_wait_ms) eqn:Htime; simpl.
    2:{ split; [done|]. split; [done|]. split; [lia|]. intros j Hj. lia. }
    apply Z.ltb_lt in Hmax.
    destruct (IH (S k) (batch ++ [item])) as (Happ & Hpre & Hlen & Hclock).
    rewrite length_app in *. simpl in *.
    split; [by rewrite Happ, <- app_assoc|].
    split; [etrans; [|exact Hpre]; by apply prefix_app_r|].
    split; [lia|].
    intros j Hj. destruct (decide (j = length batch)) as [->|Hne].
    + by replace (k + (length batch - length batch)) with k by lia.
    + replace (k + (j - length batch))
        with (S k + (j - (length batch + 1))) by lia.
      apply Hclock. lia.
Qed.

Lemma next_batch_spec (clock : nat -> Q) (first : request)
    (rest : list request) :
  let out := next_batch batch_wait_ms max_batch_size clock (first :: rest) in
  out.1 ++ out.2 = first :: rest
  /\ out.1 !! 0 = Some first
  /\ (Z.of_nat (length out.1) <= Z.max 1 max_batch_size)%Z
  /\ forall j, 1 <= j < length out.1 ->
       Qltb (clock j - clock 0) batch_wait_ms = true.
Proof.
  simpl.
  destruct (collect_more_spec clock (clock 0) rest 1 [first])
    as (Happ & Hpre & Hlen & Hclock).
  split; [exact Happ|]. split.
  { destruct Hpre as [k ->]. done. }
  split; [exact Hlen|].
  intros j Hj. specialize (Hclock j). simpl in Hclock.
  replace (S (j - 1)) with j in Hclock by lia. apply Hclock. lia.
Qed.

(* the failure path: every request of the batch gets its own text *)
Lemma deliver_original_other (batch : list request) :
  forall (st : gmap nat str * gset nat) (id : nat),
    id ∉ map req_id batch ->
    (foldl deliver_original st batch).1 !! id = st.1 !! id.
Proof.
  induction batch as [|r batch IH]; intros st id Hid; simpl; [done|].
  rewrite IH.
  - simpl. apply lookup_insert_ne. intros <-. apply Hid. simpl. left.
  - intros Hin. apply Hid. simpl. by right.
Qed.

Lemma deliver_original_signalled (batch : list request) :
  forall (st : gmap nat str * gset nat) (id : nat),
    id ∈ st.2 -> id ∈ (foldl deliver_original st batch).2.
Proof.
  induction batch as [|r batch IH]; intros st id Hid; simpl; [done|].
  apply IH. simpl. set_solver.
Qed.

Lemma deliver_original_spec (batch : list request) :
  forall (st : gmap nat str * gset nat) (r : request),
    NoDup (map req_id batch) -> r ∈ batch ->
    (foldl deliver_original st batch).1 !! req_id r = Some (req_text r)
    /\ req_id r ∈ (foldl deliver_original st batch).2.
Proof.
  induction batch as [|r0 batch IH]; intros st r Hnd Hin; simpl in *.
  - by apply elem_of_nil in Hin.
  - apply NoDup_cons in Hnd as [Hfresh Hnd].
    destruct (decide (req_id r = req_id r0)) as [Heq|Hne].
    + apply elem_of_cons in Hin as [->|Hin].
      * split.
        -- rewrite deliver_original_other by done. simpl.
           apply lookup_insert_eq.
        -- apply deliver_original_signalled. simpl.
           apply elem_of_union_l. by apply elem_of_singleton.
      * exfalso. apply Hfresh. rewrite <- Heq.
        apply list_elem_of_fmap. by exists r.
    + apply elem_of_cons in Hin as [->|Hin]; [done|]. apply IH; done.
Qed.
End BatchProof.

Lemma deliver_other (texts translations : list str)
    (items : list (nat * request)) :
  forall (st : gmap nat str * gset nat) (id : nat),
    id ∉ map (fun ir => req_id ir.2) items ->
    (foldl (deliver texts translations) st items).1 !! id = st.1 !! id.
Proof.
  induction items as [|[i r] items IH]; intros st id Hid; simpl; [done|].
  rewrite IH.
  - simpl. apply lookup_insert_ne. intros <-. apply Hid. simpl. left.
  - intros Hin. apply Hid. simpl. by right.
Qed.

Lemma deliver_signalled (texts translations : list str)
    (items : list (nat * request)) :
  forall (st : gmap nat str * gset nat) (id : nat),
    id ∈ st.2 -> id ∈ (foldl (deliver texts translations) st items).2.
Proof.
  induction items as [|[i r] items IH]; intros st id Hid; simpl; [done|].
  apply IH. simpl. set_solver.
Qed.

Lemma indexed_ids (batch : list request) (k : nat) :
  map (fun ir : nat * request => req_id ir.2)
      (imap (fun j r => (k + j, r)) batch)
  = map req_id batch.
Proof.
  revert k. induction batch as [|r batch IH]; intros k; simpl; [done|].
  f_equal. rewrite <- (IH (S k)). f_equal. apply imap_ext.
  intros j x _. simpl. f_equal. lia.
Qed.

Lemma deliver_spec (texts translations : list str) (batch : list request) :
  forall (k : nat) (st : gmap nat str * gset nat) (i : nat) (r : request),
    NoDup (map req_id batch) -> batch !! i = Some r ->
    let out := foldl (deliver texts translations) st
                     (imap (fun j r => (k + j, r)) batch) in
    out.1 !! req_id r = Some (delivered texts translations (k + i))
    /\ req_id r ∈ out.2.
Proof.
  induction batch as [|r0 batch IH]; intros k st i r Hnd Hi; [done|].
  apply NoDup_cons in Hnd as [Hfresh Hnd]. simpl.
  assert (Htail : imap ((fun j r => (k + j, r)) ∘ S) batch
                  = imap (fun j r => (S k + j, r)) batch).
  { apply imap_ext. intros j x _. simpl. f_equal. lia. }
  rewrite Htail. destruct i as [|i]; simpl in Hi.
  - injection Hi as ->. split.
    + rewrite deliver_other by (by rewrite indexed_ids). simpl.
      rewrite lookup_insert_eq. by rewrite !Nat.add_0_r.
    + apply deliver_signalled. simpl.
      apply elem_of_union_l. by apply elem_of_singleton.
  - replace (k + S i) with (S k + i) by lia. apply IH; done.
Qed.

Section BatchRound.
Context (batch_wait_ms : Q) (max_batch_size : Z).
Context (translate_texts : list str -> str -> option (list str)).

Lemma round_unfold (clock : nat -> Q) (st : processor) (first : request)
    (rest : list request) :
  queue st = first :: rest ->
  let out := next_batch batch_wait_ms max_batch_size clock (first :: rest) in
  let texts := map req_text out.1 in
  let delivery :=
    match translate_texts texts (req_lang first) with
    | Some translations =>
        foldl (deliver texts translations) (results st, signalled st)
              (imap (fun i r => (0 + i, r)) out.1)
    | None => foldl deliver_original (results st, signalled st) out.1
    end in
  process_queue_round batch_wait_ms max_batch_size translate_texts clock st
  = {| queue := out.2; results := delivery.1; signalled := delivery.2;
       calls := calls st ++ [(texts, req_lang first)] |}.
Proof.
  intros Hq. unfold process_queue_round. rewrite Hq.
  destruct (next_batch batch_wait_ms max_batch_size clock (first :: rest))
    as [batch remaining].
  simpl.
  destruct (translate_texts (map req_text batch) (req_lang first))
    as [translations|].
  - by destruct (foldl _ _ _).
  - by destruct (foldl _ _ _).
Qed.
End BatchRound.

Lemma Qltb_lt (a b : Q) : Qltb a b = true <-> (a < b)%Q.
Proof.
  unfold Qltb. rewrite negb_true_iff. split.
  - intros H. apply Qnot_le_lt. intros Hle.
    apply Qle_bool_iff in Hle. congruence.
  - intros H. destruct (Qle_bool b a) eqn:Hle; [|done].
    apply Qle_bool_iff in Hle. exfalso. by apply (Qlt_not_le a b).
Qed.

Lemma batch_ids_nodup (batch remaining q : list request) :
  batch ++ remaining = q -> NoDup (map req_id q) -> NoDup (map req_id batch).
Proof.
  intros <- Hnd. rewrite map_app in Hnd. by apply NoDup_app in Hnd as [? _].
Qed.

(* --------------------------------------------------------------------- *)
(*  C6: fail-open translation                                            *)
(* --------------------------------------------------------------------- *)

Lemma libretranslate_fails_open (U : Unicode) (W : World)
    (text target_lang : str) (preserve_nouns : bool) :
  libretranslate_try W text target_lang preserve_nouns = None
  \/ libre_lookup W target_lang = NoLanguage
  \/ libre_lookup W target_lang = NoTranslator ->
  translate_batch_libretranslate U W text target_lang preserve_nouns = text.
Proof.
  intros H. unfold translate_batch_libretranslate.
  destruct (blank U text); [done|].
  destruct H as [-> | H]; [done|].
  unfold libretranslate_try.
  destruct (mask_nouns W text preserve_nouns) as [[masked noun_map]|];
    simpl; [|done].
  by destruct H as [-> | ->].
Qed.

Lemma translate_batch_fails_open (U : Unicode) (W : World)
    (text target_lang : str) (preserve_nouns : bool) :
  libretranslate_try W text target_lang preserve_nouns = None ->
  (use_indictrans W = true ->
   indictrans2_try W text target_lang preserve_nouns = None) ->
  translate_batch U W text target_lang preserve_nouns = text.
Proof.
  intros Hl Hi. unfold translate_batch.
  destruct (use_indictrans W).
  - unfold translate_batch_indictrans2. destruct (blank U text); [done|].
    rewrite Hi by done. apply libretranslate_fails_open. by left.
  - apply libretranslate_fails_open. by left.
Qed.

(** C6. Single-item path: when the LibreTranslate attempt raises, or the
    target language or its translation is missing, the operation returns
    its input text unchanged; routed through translate_batch the same holds
    once every engine that is tried has failed.  Batched path: when the
    batched translator call of a worker round raises, every request of
    that batch is resolved (its result stored and its future set) with its
    own original text, which is what its translate() call returns. *)
Theorem fail_open (U : Unicode) (W : World) :
  (forall text target_lang preserve_nouns,
      libretranslate_try W text target_lang preserve_nouns = None
      \/ libre_lookup W target_lang = NoLanguage
      \/ libre_lookup W target_lang = NoTranslator ->
      translate_batch_libretranslate U W text target_lang preserve_nouns = text)
  /\ (forall text target_lang preserve_nouns,
        libretranslate_try W text target_lang preserve_nouns = None ->
        (use_indictrans W = true ->
         indictrans2_try W text target_lang preserve_nouns = None) ->
        translate_batch U W text target_lang preserve_nouns = text)
  /\ (forall batch_wait_ms max_batch_size translate_texts clock st first rest,
        queue st = first :: rest ->
        NoDup (map req_id (queue st)) ->
        let batch :=
          (next_batch batch_wait_ms max_batch_size clock (queue st)).1 in
        let st' := process_queue_round batch_wait_ms max_batch_size
                                       translate_texts clock st in
        translate_texts (map req_text batch) (req_lang first) = None ->
        forall r, r ∈ batch ->
          results st' !! req_id r = Some (req_text r)
          /\ req_id r ∈ signalled st'
          /\ (collect_result r st').1 = req_text r).
Proof.
  split; [intros; by apply libretranslate_fails_open|]. split.
  - intros. by apply translate_batch_fails_open.
  - intros batch_wait_ms max_batch_size translate_texts clock st first rest
           Hq Hnd batch st' Hfail r Hr.
    subst st' batch.
    rewrite (round_unfold _ _ _ clock st first rest Hq).
    rewrite Hq in Hfail, Hnd, Hr. cbv zeta. rewrite Hfail.
    destruct (next_batch_spec batch_wait_ms max_batch_size clock first rest)
      as (Happ & _).
    destruct (deliver_original_spec
                (next_batch batch_wait_ms max_batch_size clock
                            (first :: rest)).1
                (results st, signalled st) r) as [Hres Hsig].
    + by eapply batch_ids_nodup.
    + done.
    + unfold collect_result. cbn [results signalled fst].
      split; [exact Hres|]. split; [exact Hsig|]. by rewrite Hres.
Qed.

Lemma fail_open_witness :
  translate_batch ascii_unicode failing_world (lit "VAR_0 is here") (lit "hi")
                  false
  = lit "VAR_0 is here"
  /\ results (process_queue_round (1 # 20) 32 (fun _ _ => None) frozen_clock
                                  sample_processor) !! 2
     = Some (lit "bye").
Proof.
  destruct (fail_open ascii_unicode failing_world) as (_ & Hsingle & Hbatch).
  split.
  - apply Hsingle; reflexivity.
  - assert (Hnd : NoDup (map req_id (queue sample_processor))).
    { apply (bool_decide_unpack _). vm_compute. exact I. }
    assert (Hin : sample_request 2 "bye" "ta"
                  ∈ (next_batch (1 # 20) 32 frozen_clock
                                (queue sample_processor)).1).
    { vm_compute. apply list_elem_of_further, list_elem_of_here. }
    exact (proj1 (Hbatch (1 # 20) 32%Z (fun _ _ => None) frozen_clock
                    sample_processor (sample_request 1 "hello" "hi")
                    [sample_request 2 "bye" "ta";
                     sample_request 3 "thanks" "hi"]
                    eq_refl Hnd eq_refl (sample_request 2 "bye" "ta") Hin)).
Defined.

(* --------------------------------------------------------------------- *)
(*  C7: one batched call per round                                       *)
(* --------------------------------------------------------------------- *)

(** C7. In a round of the worker that finds the queue non-empty, with a
    maximum batch size of at least 1: the batch is a prefix of the queue
    starting with its first request, it holds at most maxBatchSize
    requests, every request after the first was taken at a clock reading
    less than the drain budget after the start of the drain, exactly one
    batched translator call is issued in the round, it carries the texts of
    all collected requests in order, and its target language is that of the
    first request whatever the other requests ask for; what was not
    collected stays queued.  A round that finds the queue empty issues no
    call. *)
Theorem batch_coalescing (batch_wait_ms : Q) (max_batch_size : Z)
    (translate_texts : list str -> str -> option (list str))
    (clock : nat -> Q) (st : processor) (first : request)
    (rest : list request) :
  (1 <= max_batch_size)%Z ->
  queue st = first :: rest ->
  let out := next_batch batch_wait_ms max_batch_size clock (queue st) in
  let st' := process_queue_round batch_wait_ms max_batch_size translate_texts
                                 clock st in
  out.1 ++ out.2 = queue st
  /\ out.1 !! 0 = Some first
  /\ (Z.of_nat (length out.1) <= max_batch_size)%Z
  /\ (forall j, 1 <= j < length out.1 ->
                (clock j - clock 0%nat < batch_wait_ms)%Q)
  /\ calls st' = calls st ++ [(map req_text out.1, req_lang first)]
  /\ queue st' = out.2
  /\ (forall idle, queue idle = [] ->
        process_queue_round batch_wait_ms max_batch_size translate_texts
                            clock idle = idle).
Proof.
  intros Hmax Hq out st'. subst out st'.
  rewrite (round_unfold _ _ _ clock st first rest Hq). rewrite Hq.
  destruct (next_batch_spec batch_wait_ms max_batch_size clock first rest)
    as (Happ & Hfirst & Hlen & Hclock).
  split; [exact Happ|]. split; [exact Hfirst|]. split; [lia|].
  split; [intros j Hj; by apply Qltb_lt, Hclock|].
  split; [done|]. split; [done|].
  intros idle Hidle. unfold process_queue_round. by rewrite Hidle.
Qed.

Lemma batch_coalescing_witness :
  calls (process_queue_round (1 # 20) 2 (fun texts _ => Some texts)
                             frozen_clock sample_processor)
  = [([lit "hello"; lit "bye"], lit "hi")]
  /\ queue (process_queue_round (1 # 20) 2 (fun texts _ => Some texts)
                                frozen_clock sample_processor)
     = [sample_request 3 "thanks" "hi"].
Proof.
  destruct (batch_coalescing (1 # 20) 2 (fun texts _ => Some texts)
              frozen_clock sample_processor (sample_request 1 "hello" "hi")
              [sample_request 2 "bye" "ta"; sample_request 3 "thanks" "hi"])
    as (_ & _ & _ & _ & Hcalls & Hqueue & _).
  - lia.
  - reflexivity.
  - split; [exact Hcalls | exact Hqueue].
Defined.

Example drain_stops_when_budget_is_spent :
  calls (process_queue_round (1 # 20) 32 (fun texts _ => Some texts)
                             jumping_clock sample_processor)
  = [([lit "hello"], lit "hi")].
Proof. vm_compute. reflexivity. Qed.

(* --------------------------------------------------------------------- *)
(*  C10: every submitted request is resolved                             *)
(* --------------------------------------------------------------------- *)

Section Resolution.
Context (batch_wait_ms : Q) (max_batch_size : Z).
Context (translate_texts : list str -> str -> option (list str)).

Local Abbreviation round := (process_queue_round batch_wait_ms max_batch_size
                                                 translate_texts).
Local Abbreviation run := (run_worker batch_wait_ms max_batch_size
                                      translate_texts).

Lemma round_other (clock : nat -> Q) (st : processor) (id : nat) :
  id ∉ map req_id (queue st) ->
  results (round clock st) !! id = results st !! id.
Proof.
  intros Hid. destruct (queue st) as [|first rest] eqn:Hq.
  { unfold process_queue_round. by rewrite Hq. }
  rewrite (round_unfold _ _ _ clock st first rest Hq). cbv zeta.
  cbn [results].
  destruct (next_batch_spec batch_wait_ms max_batch_size clock first rest)
    as (Happ & _).
  assert (Hbatch : id ∉ map req_id
            (next_batch batch_wait_ms max_batch_size clock (first :: rest)).1).
  { intros Hin. apply Hid. rewrite <- Happ, map_app. apply elem_of_app.
    by left. }
  destruct (translate_texts _ _) as [translations|].
  - rewrite deliver_other; [done|]. by rewrite indexed_ids.
  - by rewrite deliver_original_other.
Qed.

Lemma round_signalled (clock : nat -> Q) (st : processor) (id : nat) :
  id ∈ signalled st -> id ∈ signalled (round clock st).
Proof.
  intros Hid. destruct (queue st) as [|first rest] eqn:Hq.
  { unfold process_queue_round. by rewrite Hq. }
  rewrite (round_unfold _ _ _ clock st first rest Hq). cbv zeta.
  cbn [signalled].
  destruct (translate_texts _ _) as [translations|].
  - by apply deliver_signalled.
  - by apply deliver_original_signalled.
Qed.

Lemma round_queue (clock : nat -> Q) (st : processor) :
  exists batch,
    batch ++ queue (round clock st) = queue st
    /\ (queue st <> [] -> batch <> []).
Proof.
  destruct (queue st) as [|first rest] eqn:Hq.
  { exists []. unfold process_queue_round. rewrite Hq. by rewrite Hq. }
  rewrite (round_unfold _ _ _ clock st first rest Hq). cbv zeta.
  cbn [queue].
  destruct (next_batch_spec batch_wait_ms max_batch_size clock first rest)
    as (Happ & Hfirst & _).
  eexists. split; [exact Happ|]. intros _ Hnil. by rewrite Hnil in Hfirst.
Qed.

Lemma round_batch (clock : nat -> Q) (st : processor) (r : request) :
  NoDup (map req_id (queue st)) ->
  r ∈ queue st -> r ∉ queue (round clock st) ->
  req_id r ∈ signalled (round clock st)
  /\ exists v, results (round clock st) !! req_id r = Some v
               /\ resolved_in_batch translate_texts (queue st) r v.
Proof.
  intros Hnd Hin Hout. destruct (queue st) as [|first rest] eqn:Hq.
  { by apply elem_of_nil in Hin. }
  revert Hout. rewrite (round_unfold _ _ _ clock st first rest Hq). cbv zeta.
  cbn [queue results signalled].
  destruct (next_batch_spec batch_wait_ms max_batch_size clock first rest)
    as (Happ & Hfirst & _).
  set (out := next_batch batch_wait_ms max_batch_size clock (first :: rest))
    in *.
  intros Hout.
  assert (Hbatch : r ∈ out.1).
  { rewrite <- Happ in Hin. apply elem_of_app in Hin as [|]; done. }
  assert (Hnd' : NoDup (map req_id out.1)) by (by eapply batch_ids_nodup).
  apply list_elem_of_lookup in Hbatch as [i Hi].
  assert (Hres : resolved_in_batch translate_texts (first :: rest) r
            match translate_texts (map req_text out.1) (req_lang first) with
            | Some translations => default (req_text r) (translations !! i)
            | None => req_text r
            end).
  { exists [], out.1, out.2, i, first. by rewrite Happ. }
  destruct (translate_texts (map req_text out.1) (req_lang first))
    as [translations|].
  - destruct (deliver_spec (map req_text out.1) translations out.1 0
                (results st, signalled st) i r Hnd' Hi) as [Hv Hsig].
    split; [exact Hsig|]. eexists. split; [exact Hv|].
    unfold delivered. simpl. rewrite list_lookup_fmap, Hi. simpl.
    by destruct (translations !! i).
  - destruct (deliver_original_spec out.1 (results st, signalled st) r Hnd')
      as [Hv Hsig]; [by apply list_elem_of_lookup; exists i|].
    split; [exact Hsig|]. by exists (req_text r).
Qed.

Lemma run_other (clocks : list (nat -> Q)) :
  forall (st : processor) (id : nat),
    id ∉ map req_id (queue st) ->
    results (run clocks st) !! id = results st !! id
    /\ (id ∈ signalled st -> id ∈ signalled (run clocks st)).
Proof.
  induction clocks as [|clock clocks IH]; intros st id Hid; simpl; [done|].
  destruct (round_queue clock st) as (batch & Hq & _).
  destruct (IH (round clock st) id) as [Hres Hsig].
  - intros Hin. apply Hid. rewrite <- Hq, map_app. apply elem_of_app.
    by right.
  - split.
    + rewrite Hres. by apply round_other.
    + intros H. by apply Hsig, round_signalled.
Qed.

Lemma resolved_in_batch_later (pre q : list request) (r : request) (v : str) :
  resolved_in_batch translate_texts q r v ->
  resolved_in_batch translate_texts (pre ++ q) r v.
Proof.
  intros (pre' & batch & post & i & first & -> & H0 & Hi & Hv).
  exists (pre ++ pre'), batch, post, i, first. by rewrite <- app_assoc.
Qed.

Lemma run_resolves (clocks : list (nat -> Q)) :
  forall st : processor,
    NoDup (map req_id (queue st)) ->
    length (queue st) <= length clocks ->
    forall r, r ∈ queue st ->
      req_id r ∈ signalled (run clocks st)
      /\ exists v, results (run clocks st) !! req_id r = Some v
                   /\ resolved_in_batch translate_texts (queue st) r v.
Proof.
  induction clocks as [|clock clocks IH]; intros st Hnd Hlen r Hr.
  { destruct (queue st); [by apply elem_of_nil in Hr | simpl in Hlen; lia]. }
  simpl. destruct (round_queue clock st) as (batch & Hq & Hne).
  assert (Hnd1 : NoDup (map req_id (queue (round clock st)))).
  { rewrite <- Hq, map_app in Hnd. by apply NoDup_app in Hnd as (_ & _ & ?). }
  assert (Hlen1 : length (queue (round clock st)) <= length clocks).
  { assert (batch <> []) as Hb.
    { apply Hne. intros Hnil. rewrite Hnil in Hr. by apply elem_of_nil in Hr. }
    apply (f_equal length) in Hq. rewrite length_app in Hq. simpl in Hlen.
    destruct batch; [done|]. simpl in Hq. lia. }
  assert (Hsplit : r ∈ queue (round clock st)
                   \/ (r ∈ batch
                       /\ req_id r ∉ map req_id (queue (round clock st)))).
  { pose proof Hr as Hr'. rewrite <- Hq in Hr'.
    apply elem_of_app in Hr' as [Hb|Hq']; [right | by left].
    split; [done|]. intros Hin. rewrite <- Hq, map_app in Hnd.
    apply NoDup_app in Hnd as (_ & Hdisj & _).
    apply (Hdisj (req_id r)); [|done].
    apply list_elem_of_fmap. by exists r. }
  destruct Hsplit as [Hin | [Hb Hid]].
  - destruct (IH (round clock st) Hnd1 Hlen1 r Hin) as (Hsig & v & Hv & Hres).
    split; [exact Hsig|]. exists v. split; [exact Hv|].
    rewrite <- Hq. by apply resolved_in_batch_later.
  - assert (Hout : r ∉ queue (round clock st)).
    { intros Hin. apply Hid. apply list_elem_of_fmap. by exists r. }
    destruct (round_batch clock st r Hnd Hr Hout) as (Hsig & v & Hv & Hres).
    destruct (run_other clocks (round clock st) (req_id r) Hid) as [Hsame Hmono].
    split; [by apply Hmono|]. exists v. split; [by rewrite Hsame | done].
Qed.
End Resolution.

(** C10. A call translate(text, lang) made while other requests are queued,
    against a worker that runs at least one round per queued request:
    with an empty text it returns the empty string at once; otherwise it
    returns a value, and so does every request queued with it.  Each of
    them was collected at some position of some batch cut out of the queue
    and is resolved with the translation at that very position of that
    batch's call, or with its own original text when the call raised or
    returned fewer translations than the position needs.  Request ids are
    those of live futures, hence distinct. *)
Theorem every_request_resolved (batch_wait_ms : Q) (max_batch_size : Z)
    (translate_texts : list str -> str -> option (list str))
    (text target_lang : str) (fresh_id : nat) (clocks : list (nat -> Q))
    (st : processor) :
  NoDup (map req_id (queue st)) ->
  fresh_id ∉ map req_id (queue st) ->
  length (queue st) < length clocks ->
  let r := {| req_id := fresh_id; req_text := text;
              req_lang := target_lang |} in
  let st1 := run_worker batch_wait_ms max_batch_size translate_texts clocks
                        (submit r st) in
  (text = [] ->
   translate batch_wait_ms max_batch_size translate_texts text target_lang
             fresh_id clocks st = Some ([], st))
  /\ (text <> [] ->
      exists v,
        translate batch_wait_ms max_batch_size translate_texts text
                  target_lang fresh_id clocks st
        = Some (v, (collect_result r st1).2)
        /\ resolved_in_batch translate_texts (queue st ++ [r]) r v)
  /\ (forall other, other ∈ queue st ++ [r] ->
        req_id other ∈ signalled st1
        /\ exists w, (collect_result other st1).1 = w
                     /\ results st1 !! req_id other = Some w
                     /\ resolved_in_batch translate_texts (queue st ++ [r])
                                          other w).
Proof.
  intros Hnd Hfresh Hlen r st1.
  assert (Hall : forall other, other ∈ queue st ++ [r] ->
            req_id other ∈ signalled st1
            /\ exists w, results st1 !! req_id other = Some w
                         /\ resolved_in_batch translate_texts
                                              (queue st ++ [r]) other w).
  { apply (run_resolves batch_wait_ms max_batch_size translate_texts clocks
             (submit r st)); simpl.
    - rewrite map_app. apply NoDup_app. split; [done|]. split.
      + intros id Hin Hr. simpl in Hr. apply list_elem_of_singleton in Hr.
        by subst id.
      + simpl. apply NoDup_singleton.
    - rewrite length_app. simpl. lia. }
  split; [by intros ->|]. split.
  - intros Htext. destruct (Hall r) as (Hsig & v & Hv & Hres).
    { apply elem_of_app. right. apply list_elem_of_singleton. done. }
    exists v. split; [|done].
    unfold translate. destruct text as [|c text]; [done|].
    fold r. fold st1. rewrite bool_decide_eq_true_2 by exact Hsig.
    unfold collect_result. simpl. simpl in Hv. by rewrite Hv.
  - intros other Hother. destruct (Hall other Hother) as (Hsig & w & Hw & Hres).
    split; [done|]. exists w. split; [|done].
    unfold collect_result. simpl. by rewrite Hw.
Qed.

Lemma every_request_resolved_witness :
  exists st',
    translate (1 # 20) 32 (fun _ _ => Some [lit "namaste"]) (lit "ok") (lit "hi")
              4 [frozen_clock; frozen_clock; frozen_clock; frozen_clock]
              sample_processor
    = Some (lit "ok", st').
Proof.
  destruct (every_request_resolved (1 # 20) 32
              (fun _ _ => Some [lit "namaste"]) (lit "ok") (lit "hi") 4
              [frozen_clock; frozen_clock; frozen_clock; frozen_clock]
              sample_processor) as (_ & Hret & _).
  - apply (bool_decide_unpack _). vm_compute. exact I.
  - apply (bool_decide_unpack _). vm_compute. exact I.
  - simpl. lia.
  - destruct Hret as (v & Hv & _); [discriminate|].
    assert (Hval : v = lit "ok").
    { pose proof Hv as Hv'. vm_compute in Hv'. injection Hv' as Hv'.
      symmetry. exact Hv'. }
    subst v. eexists. exact Hv.
Defined.

(* --------------------------------------------------------------------- *)
(*  process_mixed_english, stage by stage                                *)
(* --------------------------------------------------------------------- *)

Section MixerProof.
Context (U : Unicode) (R : Resources) (W : World).

Lemma process_mixed_english_stages (text : str) (formality_threshold : Q)
    (target_lang : str) :
  let words := tokenize W (normalize_quotes text) in
  let tags := build_tags W (normalize_quotes text) in
  exists decisions,
    cohesion U R words (map (clean_word U) words) tags
             (decide_all U R tags formality_threshold words) = Some decisions
    /\ length decisions = length words
    /\ process_mixed_english U R W text formality_threshold target_lang =
       (final_parts ←
          restore U W target_lang
            (add_chunks (is_indictrans W) 0 (keep_runs words decisions) ∅)
            (translate_batch U W
               (masked_text_of U
                  (masked_from (is_indictrans W) false 0 words decisions))
               target_lang false);
        Some (spaced_join U [] final_parts)).
Proof.
  intros words tags.
  destruct (cohesion_runs U R words (map (clean_word U) words) tags
              (decide_all U R tags formality_threshold words))
    as (decisions & Hrun & Hlen & _).
  { by rewrite length_map. }
  { unfold decide_all. by rewrite length_imap. }
  assert (Hlen' : length decisions = length words).
  { rewrite Hlen. unfold decide_all. by rewrite length_imap. }
  exists decisions. split; [exact Hrun|]. split; [exact Hlen'|].
  unfold process_mixed_english. fold words. fold tags.
  rewrite Hrun. simpl. rewrite (mask_spec _ _ _ Hlen'). done.
Qed.

End MixerProof.

(* --------------------------------------------------------------------- *)
(*  C8: MixBatch is positionally aligned                                 *)
(* --------------------------------------------------------------------- *)




(* --------------------------------------------------------------------- *)
(*  C5: inputs whose tokens are all keep                                 *)
(* --------------------------------------------------------------------- *)

(* evaluate the scanners on an ASCII string for any character database *)
Ltac ascii_run U :=
  let Hl := fresh in let Hs := fresh in let Hd := fresh in
  let Ha := fresh in let Hu := fresh in let Hw := fresh in
  destruct U as [? ? ? ? ? ? Hl Hs Hd Ha Hu Hw];
  repeat (vm_compute;
          first [ rewrite (Hd _) by reflexivity
                | rewrite (Hs _) by reflexivity
                | rewrite (Ha _) by reflexivity ]);
  vm_compute.

Lemma placeholder0_split (U : Unicode) (b : bool) :
  re_split U b (token_key b (dec 0)) = [[]; dec 0; []].
Proof. destruct b; ascii_run U; reflexivity. Qed.

Lemma placeholder0_spacing (U : Unicode) (b : bool) :
  masked_text_of U [token_key b (dec 0)] = token_key b (dec 0).
Proof. destruct b; ascii_run U; reflexivity. Qed.

Lemma run_of_all_keep (words : list str) :
  forall decisions : list bool,
    length decisions = length words ->
    (forall i d, decisions !! i = Some d -> d = true) ->
    run_of words decisions = words.
Proof.
  induction words as [|w words IH]; intros [|d decisions] Hlen Hall;
    simpl in *; try done.
  rewrite (Hall 0 d eq_refl). f_equal. apply IH; [lia|].
  intros i d' Hi. by apply (Hall (S i)).
Qed.

Lemma mask_all_keep (b : bool) (words : list str) (decisions : list bool) :
  length decisions = length words ->
  (forall i d, decisions !! i = Some d -> d = true) ->
  words <> [] ->
  keep_runs words decisions = [words]
  /\ masked_from b false 0 words decisions = [token_key b (dec 0)].
Proof.
  intros Hlen Hall Hne.
  destruct words as [|w words]; [done|].
  destruct decisions as [|d decisions]; [done|].
  rewrite (Hall 0 d eq_refl). simpl in Hlen.
  assert (Hrun : run_of words decisions = words).
  { apply run_of_all_keep; [lia|]. intros i d' Hi. by apply (Hall (S i)). }
  split.
  - rewrite keep_runs_cons_true, Hrun. by rewrite !drop_ge by lia.
  - simpl. rewrite masked_from_in_run, Hrun. by rewrite !drop_ge by lia.
Qed.

Lemma right_all_keep (n j : nat) (decisions : list bool) :
  (forall i d, decisions !! i = Some d -> d = true) ->
  right_is_translate n j decisions = false.
Proof.
  intros Hall. unfold right_is_translate.
  destruct (decisions !! (j + 1)) as [d|] eqn:Hd;
    [rewrite (Hall _ _ Hd)|]; simpl; apply andb_false_r.
Qed.

Lemma left_after_keep (j : nat) (out : list bool) :
  (0 < j -> out !! (j - 1) = Some true) ->
  left_is_translate j out = false.
Proof.
  intros Hprev. unfold left_is_translate. destruct j as [|j]; [done|].
  rewrite Hprev by lia. done.
Qed.

Lemma cohesion_all_keep (U : Unicode) (R : Resources)
    (words clean_words : list str) (tags : gmap str str)
    (decisions : list bool) :
  length clean_words = length words ->
  length decisions = length words ->
  (forall i d, decisions !! i = Some d -> d = true) ->
  cohesion U R words clean_words tags decisions = Some decisions.
Proof.
  intros Hclean Hdec Hall.
  destruct (cohesion_runs U R words clean_words tags decisions Hclean Hdec)
    as (out & -> & Hlen & _ & Hout).
  f_equal.
  assert (Htrue : forall j, j < length words -> out !! j = Some true).
  { intros j. induction j as [|j IH]; intros Hj.
    - destruct (lookup_lt_is_Some_2 decisions 0) as [d Hd]; [lia|].
      rewrite (Hout 0 d) by (lia || done). rewrite (Hall 0 d Hd).
      unfold cohesion_verdict.
      rewrite (right_all_keep _ _ _ Hall), left_after_keep by lia.
      by rewrite andb_false_r.
    - destruct (lookup_lt_is_Some_2 decisions (S j)) as [d Hd]; [lia|].
      rewrite (Hout (S j) d) by (lia || done). rewrite (Hall (S j) d Hd).
      unfold cohesion_verdict.
      rewrite (right_all_keep _ _ _ Hall), left_after_keep.
      + by rewrite andb_false_r.
      + intros _. replace (S j - 1) with j by lia. apply IH. lia. }
  apply list_eq. intros j. destruct (decide (j < length words)) as [Hj|Hj].
  - rewrite Htrue by done.
    destruct (lookup_lt_is_Some_2 decisions j) as [d Hd]; [lia|].
    by rewrite Hd, (Hall j d Hd).
  - rewrite !lookup_ge_None_2 by lia. done.
Qed.

Lemma no_tokens_identity (U : Unicode) (R : Resources) (W : World)
    (text : str) (formality_threshold : Q) (target_lang : str) :
  tokenize W (normalize_quotes text) = [] ->
  process_mixed_english U R W text formality_threshold target_lang = Some [].
Proof.
  intros Hwords. unfold process_mixed_english. rewrite Hwords. simpl.
  unfold translate_batch, translate_batch_indictrans2,
    translate_batch_libretranslate.
  simpl. by destruct (use_indictrans W).
Qed.

(** C5 (as amended). For every input whose tokens are all classified keep:
    the cohesion pass changes nothing, the masker makes the single
    placeholder 0 for the chunk of all tokens joined by single spaces, and
    the masked string handed to the translator is that placeholder alone,
    so no chunk text is sent.  Whenever the translator returns the
    placeholder unchanged, as it does when every translation engine fails,
    the output of Mix is the input's tokens joined by single spaces; an
    input without tokens gives the empty string. *)
Theorem pure_keep_identity (U : Unicode) (R : Resources) (W : World)
    (text : str) (formality_threshold : Q) (target_lang : str) :
  let words := tokenize W (normalize_quotes text) in
  let tags := build_tags W (normalize_quotes text) in
  let decisions := decide_all U R tags formality_threshold words in
  let placeholder := token_key (is_indictrans W) (dec 0) in
  (forall i d, decisions !! i = Some d -> d = true) ->
  (words = [] ->
   process_mixed_english U R W text formality_threshold target_lang = Some [])
  /\ (words <> [] ->
      cohesion U R words (map (clean_word U) words) tags decisions
      = Some decisions
      /\ mask (is_indictrans W) words decisions
         = Some ({[ placeholder := join (lit " ") words ]}, [placeholder])
      /\ masked_text_of U [placeholder] = placeholder
      /\ (translate_batch U W placeholder target_lang false = placeholder ->
          process_mixed_english U R W text formality_threshold target_lang
          = Some (join (lit " ") words))
      /\ (libretranslate_try W placeholder target_lang false = None ->
          (use_indictrans W = true ->
           indictrans2_try W placeholder target_lang false = None) ->
          process_mixed_english U R W text formality_threshold target_lang
          = Some (join (lit " ") words))).
Proof.
  intros words tags decisions placeholder Hall. subst placeholder.
  split; [by apply no_tokens_identity|]. intros Hne.
  assert (Hlen : length decisions = length words).
  { unfold decisions, decide_all. by rewrite length_imap. }
  assert (Hcoh : cohesion U R words (map (clean_word U) words) tags decisions
                 = Some decisions).
  { apply cohesion_all_keep; [by rewrite length_map | done | done]. }
  destruct (mask_all_keep (is_indictrans W) words decisions Hlen Hall Hne)
    as [Hruns Hmasked].
  split; [exact Hcoh|]. split.
  { rewrite (mask_spec _ _ _ Hlen), Hruns, Hmasked. done. }
  split; [apply placeholder0_spacing|].
  assert (Hmix :
    translate_batch U W (token_key (is_indictrans W) (dec 0)) target_lang false
    = token_key (is_indictrans W) (dec 0) ->
    process_mixed_english U R W text formality_threshold target_lang
    = Some (join (lit " ") words)).
  { intros Htranslate.
    destruct (process_mixed_english_stages U R W text formality_threshold
                target_lang) as (decisions' & Hcoh' & _ & ->).
    fold words tags decisions in Hcoh'. rewrite Hcoh in Hcoh'.
    injection Hcoh' as <-. fold words.
    rewrite Hruns, Hmasked, placeholder0_spacing, Htranslate.
    unfold restore. rewrite placeholder0_split.
    simpl. unfold restore_id. rewrite lookup_insert_eq. simpl.
    f_equal. destruct (join (lit " ") words); [done | by rewrite app_nil_r]. }
  split; [exact Hmix|].
  intros Hl Hi. apply Hmix. by apply translate_batch_fails_open.
Qed.

Lemma pure_keep_identity_witness :
  process_mixed_english ascii_unicode sample_resources sample_world
                        (lit "Rahul  API") 7 (lit "hi")
  = Some (lit "Rahul API").
Proof.
  destruct (pure_keep_identity ascii_unicode sample_resources sample_world
              (lit "Rahul  API") 7 (lit "hi")) as (_ & Hkeep).
  - intros [|[|i]] d; vm_compute; intros [= <-]; reflexivity.
  - destruct Hkeep as (_ & _ & _ & Hmix & _); [discriminate|].
    apply Hmix. reflexivity.
Defined.

(* A translator that rewords the placeholder: every token of the input is
   classified keep, the translator receives only the placeholder, and the
   output is the translator's word, not the input. *)
Lemma pure_keep_counterexample :
  decide_all ascii_unicode sample_resources
             (build_tags rewording_world (lit "Rahul")) 7
             (tokenize rewording_world (lit "Rahul"))
  = [true]
  /\ translate_batch ascii_unicode rewording_world (lit "VAR_0") (lit "hi")
                     false
     = lit "shunya"
  /\ process_mixed_english ascii_unicode sample_resources rewording_world
                           (lit "Rahul") 7 (lit "hi")
     = Some (lit "shunya")
  /\ lit "shunya" <> lit "Rahul".
Proof.
  split; [vm_compute; reflexivity|].
  split; [vm_compute; reflexivity|].
  split; [vm_compute; reflexivity|].
  discriminate.
Qed.

(* ===================================================================== *)
(*  Further properties of the code                                       *)
(* ===================================================================== *)

(* --------------------------------------------------------------------- *)
(*  The classifier and the formality threshold                           *)
(* --------------------------------------------------------------------- *)



(* --------------------------------------------------------------------- *)
(*  The cohesion pass only lowers decisions                              *)
(* --------------------------------------------------------------------- *)

(** X2. The cohesion pass never turns a translate decision into keep: a
    token kept after the pass was kept before it, a token translated before
    it is still translated, and a token that is a technical term or has no
    weak tag keeps the decision the classifier gave it. *)
Theorem cohesion_only_translates (U : Unicode) (R : Resources)
    (words clean_words : list str) (tags : gmap str str)
    (decisions : list bool) :
  length clean_words = length words ->
  length decisions = length words ->
  exists out,
    cohesion U R words clean_words tags decisions = Some out
    /\ (forall i, out !! i = Some true -> decisions !! i = Some true)
    /\ (forall i, decisions !! i = Some false -> out !! i = Some false)
    /\ (forall i, flippable U R words clean_words tags i = false ->
                  out !! i = decisions !! i).
Proof.
  intros Hclean Hdec.
  destruct (cohesion_runs U R words clean_words tags decisions Hclean Hdec)
    as (out & Hrun & Hlen & _ & Hout).
  exists out. split; [done|].
  assert (Hat : forall i d, decisions !! i = Some d ->
            out !! i = Some (cohesion_verdict U R words clean_words tags
                                              decisions i d out)).
  { intros i d Hd. apply Hout; [|done]. apply lookup_lt_Some in Hd. lia. }
  split; [|split].
  - intros i Hi.
    destruct (lookup_lt_is_Some_2 decisions i) as [d Hd].
    { apply lookup_lt_Some in Hi. lia. }
    rewrite (Hat i d Hd) in Hi. unfold cohesion_verdict in Hi.
    destruct d; [done|]. simpl in Hi. done.
  - intros i Hd. by rewrite (Hat i false Hd).
  - intros i Hflip. destruct (decisions !! i) as [d|] eqn:Hd.
    + rewrite (Hat i d Hd). unfold cohesion_verdict. rewrite Hflip.
      by rewrite andb_false_r.
    + apply lookup_ge_None. apply lookup_ge_None in Hd. lia.
Qed.

Lemma cohesion_only_translates_witness :
  exists out,
    cohesion ascii_unicode sample_resources sample_words sample_words
             sample_tags [false; true; true] = Some out
    /\ out !! 0 = Some false /\ out !! 2 = Some true.
Proof.
  destruct (cohesion_only_translates ascii_unicode sample_resources
              sample_words sample_words sample_tags [false; true; true]
              eq_refl eq_refl)
    as (out & Hrun & _ & Hlow & Hsame).
  exists out. split; [exact Hrun|]. split.
  - apply Hlow. reflexivity.
  - rewrite Hsame by reflexivity. reflexivity.
Defined.

(** X3. After the cohesion pass no kept token that has a weak tag and is
    not a technical term stands directly after a translated token: the
    token before it is kept as well. *)
Theorem cohesion_closed_to_the_left (U : Unicode) (R : Resources)
    (words clean_words : list str) (tags : gmap str str)
    (decisions : list bool) :
  length clean_words = length words ->
  length decisions = length words ->
  exists out,
    cohesion U R words clean_words tags decisions = Some out
    /\ forall i, 0 < i -> out !! i = Some true ->
         flippable U R words clean_words tags i = true ->
         out !! (i - 1) = Some true.
Proof.
  intros Hclean Hdec.
  destruct (cohesion_runs U R words clean_words tags decisions Hclean Hdec)
    as (out & Hrun & Hlen & _ & Hout).
  exists out. split; [done|]. intros i Hpos Hi Hflip.
  assert (Hlt : i < length words) by (apply lookup_lt_Some in Hi; lia).
  destruct (lookup_lt_is_Some_2 decisions i) as [d Hd]; [lia|].
  rewrite (Hout i d Hlt Hd) in Hi. unfold cohesion_verdict in Hi.
  rewrite Hflip in Hi. destruct d; [|done]. simpl in Hi.
  destruct (lookup_lt_is_Some_2 out (i - 1)) as [p Hp]; [lia|].
  unfold left_is_translate in Hi. rewrite Hp in Hi.
  apply Nat.ltb_lt in Hpos. rewrite Hpos in Hi.
  destruct p; [done|]. simpl in Hi. done.
Qed.

Lemma cohesion_closed_to_the_left_witness :
  exists out,
    cohesion ascii_unicode sample_resources
             [lit "office"; lit "to"] [lit "office"; lit "to"]
             sample_tags [true; true] = Some out
    /\ (out !! 1 = Some true -> out !! 0 = Some true).
Proof.
  destruct (cohesion_closed_to_the_left ascii_unicode sample_resources
              [lit "office"; lit "to"] [lit "office"; lit "to"]
              sample_tags [true; true] eq_refl eq_refl)
    as (out & Hrun & Hleft).
  exists out. split; [exact Hrun|].
  intros H1. apply (Hleft 1); [lia | exact H1 | reflexivity].
Defined.

(* --------------------------------------------------------------------- *)
(*  The masker loses no token                                            *)
(* --------------------------------------------------------------------- *)

(* sep before every part: what join leaves behind its first part *)
Lemma join_cons (sep x : str) (l : list str) :
  join sep (x :: l) = x ++ flat_map (fun y => sep ++ y) l.
Proof.
  revert x. induction l as [|y l IH]; intros x.
  - simpl. by rewrite app_nil_r.
  - change (join sep (x :: y :: l)) with (x ++ sep ++ join sep (y :: l)).
    rewrite IH. simpl. by rewrite <- app_assoc.
Qed.

Lemma run_of_prefix (words : list str) (decisions : list bool) :
  words = run_of words decisions
          ++ drop (length (run_of words decisions)) words.
Proof.
  revert decisions.
  induction words as [|w words IH]; intros [|[] decisions]; simpl; try done.
  f_equal. apply IH.
Qed.

Lemma run_of_keeps (words : list str) (decisions : list bool) :
  forall i, i < length (run_of words decisions) -> decisions !! i = Some true.
Proof.
  revert decisions.
  induction words as [|w words IH]; intros [|[] decisions] i Hi; simpl in *;
    try lia.
  destruct i as [|i]; [done|]. simpl. apply IH. lia.
Qed.

Lemma unmask_words (b : bool) (kept_words : gmap str str) (n : nat) :
  forall (words : list str) (decisions : list bool) (token_id : nat),
    length words <= n ->
    length decisions = length words ->
    (forall k run, keep_runs words decisions !! k = Some run ->
                   kept_words !! token_key b (dec (token_id + k))
                   = Some (join (lit " ") run)) ->
    (forall i w, words !! i = Some w -> decisions !! i = Some false ->
                 kept_words !! w = None) ->
    flat_map (fun w => lit " " ++ default w (kept_words !! w))
             (masked_from b false token_id words decisions)
    = flat_map (fun w => lit " " ++ w) words.
Proof.
  induction n as [|n IH]; intros words decisions token_id Hn Hlen Hruns Hfree.
  { destruct words; [by destruct decisions | simpl in Hn; lia]. }
  destruct words as [|w words]; [by destruct decisions|].
  destruct decisions as [|d decisions]; [done|].
  simpl in Hn, Hlen. destruct d.
  - rewrite keep_runs_cons_true in Hruns.
    cbn [masked_from]. rewrite masked_from_in_run.
    set (m := length (run_of words decisions)) in *.
    pose proof (Hruns 0 _ eq_refl) as H0. rewrite Nat.add_0_r in H0.
    cbn [flat_map]. rewrite H0. cbn [default from_option id].
    rewrite (IH (drop m words) (drop m decisions) (S token_id)).
    + rewrite join_cons, <- !app_assoc. f_equal. f_equal.
      rewrite <- flat_map_app. f_equal. symmetry. apply run_of_prefix.
    + rewrite length_drop. lia.
    + rewrite !length_drop. lia.
    + intros k run Hk. replace (S token_id + k) with (token_id + S k) by lia.
      by apply Hruns.
    + intros i w' Hw Hd. rewrite lookup_drop in Hw. rewrite lookup_drop in Hd.
      apply (Hfree (S (m + i))); done.
  - rewrite keep_runs_cons_false in Hruns. cbn [masked_from flat_map].
    rewrite (Hfree 0 w eq_refl eq_refl). cbn [default from_option id]. f_equal.
    apply IH; [lia | lia | done |].
    intros i w' Hw Hd. by apply (Hfree (S i)).
Qed.

(** X4. Masking loses no token.  When no translated token is itself the
    text of a placeholder the masker emits, putting each chunk back in
    place of its placeholder in the masked words and joining with single
    spaces gives the original tokens joined with single spaces. *)
Theorem mask_unmask_words (b : bool) (words : list str)
    (decisions : list bool) :
  length decisions = length words ->
  (forall i w k, words !! i = Some w -> decisions !! i = Some false ->
                 w <> token_key b (dec k)) ->
  exists kept_words masked_words,
    mask b words decisions = Some (kept_words, masked_words)
    /\ join (lit " ")
            (map (fun w => default w (kept_words !! w)) masked_words)
       = join (lit " ") words.
Proof.
  intros Hlen Hfree. rewrite (mask_spec b words decisions Hlen).
  eexists _, _. split; [reflexivity|].
  set (kept_words := add_chunks b 0 (keep_runs words decisions) ∅).
  assert (H : flat_map (fun w => lit " " ++ default w (kept_words !! w))
                       (masked_from b false 0 words decisions)
              = flat_map (fun w => lit " " ++ w) words).
  { apply (unmask_words b kept_words (length words)); [lia | done | |].
    - intros k run Hk. by apply add_chunks_lookup.
    - intros i w Hw Hd. unfold kept_words.
      rewrite add_chunks_lookup_other; [done|].
      intros k _. by apply (Hfree i). }
  assert (Hjoin : forall l : list str,
            join (lit " ") l = drop 1 (flat_map (fun w => lit " " ++ w) l)).
  { intros [|x l]; [done|]. by rewrite join_cons. }
  rewrite !Hjoin. rewrite <- H. f_equal.
  clear. induction (masked_from b false 0 words decisions) as [|x l IH];
    [done|]. cbn [map flat_map]. by rewrite IH.
Qed.

Lemma mask_unmask_words_witness :
  exists kept_words masked_words,
    mask false [lit "my"; lit "API"; lit "hai"] [true; true; false]
    = Some (kept_words, masked_words)
    /\ join (lit " ")
            (map (fun w => default w (kept_words !! w)) masked_words)
       = lit "my API hai".
Proof.
  apply (mask_unmask_words false [lit "my"; lit "API"; lit "hai"]
           [true; true; false] eq_refl).
  intros [|[|[|i]]] w k Hw Hd; try discriminate.
  injection Hw as <-. intros Heq. apply (f_equal head) in Heq.
  vm_compute in Heq. discriminate.
Defined.

(* Without that condition a token of the input is taken for a placeholder:
   the translated token VAR_0 comes back as the chunk. *)
Example placeholder_collision :
  exists kept_words masked_words,
    mask false [lit "VAR_0"; lit "API"] [false; true]
    = Some (kept_words, masked_words)
    /\ join (lit " ")
            (map (fun w => default w (kept_words !! w)) masked_words)
       = lit "API API".
Proof.
  rewrite (mask_spec false [lit "VAR_0"; lit "API"] [false; true] eq_refl).
  eexists _, _. split; [reflexivity|]. vm_compute. reflexivity.
Qed.

(* --------------------------------------------------------------------- *)
(*  The shape of the split markup                                        *)
(* --------------------------------------------------------------------- *)

Lemma span_all (p : char -> bool) (s : str) : forallb p (span p s).1 = true.
Proof.
  induction s as [|c s IH]; simpl; [done|].
  destruct (p c) eqn:Hc; [|done]. destruct (span p s). simpl in *.
  by rewrite Hc.
Qed.

Lemma match_token_digits (U : Unicode) (b : bool) (s id rest : str) :
  match_token U b s = Some (id, rest) ->
  id <> [] /\ forallb (u_isdigit U) id = true.
Proof.
  unfold match_token, match_var, match_brace. destruct b.
  - destruct s as [|o1 [|o2 s]]; try done.
    destruct (N.eqb o1 (ch "{") && N.eqb o2 (ch "{")); [|done].
    pose proof (span_all (u_isdigit U) (span (u_isspace U) s).2) as Hall.
    destruct (span (u_isdigit U) (span (u_isspace U) s).2) as [digits rest'].
    destruct digits as [|d digits]; [done|].
    destruct ((span (u_isspace U) rest').2) as [|c1 [|c2 rest'']]; try done.
    destruct (N.eqb c1 (ch "}") && N.eqb c2 (ch "}")); [|done].
    intros [= <- <-]. done.
  - destruct s as [|v [|a [|r [|u s]]]]; try done.
    destruct (ci "V" v && ci "A" a && ci "R" r && N.eqb u (ch "_")); [|done].
    pose proof (span_all (u_isdigit U) s) as Hall.
    destruct (span (u_isdigit U) s) as [digits rest'].
    destruct digits as [|d digits]; [done|].
    intros [= <- <-]. done.
Qed.

Lemma split_loop_shape (U : Unicode) (b : bool) (fuel : nat) :
  forall acc s : str,
    Nat.odd (length (split_loop U b fuel acc s)) = true
    /\ forall i id, split_loop U b fuel acc s !! i = Some id ->
         Nat.odd i = true ->
         id <> [] /\ forallb (u_isdigit U) id = true.
Proof.
  induction fuel as [|fuel IH]; intros acc s.
  { simpl. split; [done|]. intros [|[|i]] id Hi Hodd; done. }
  destruct s as [|c s].
  { simpl. split; [done|]. intros [|[|i]] id Hi Hodd; done. }
  cbn [split_loop].
  destruct (match_token U b (c :: s)) as [[id0 rest]|] eqn:Hm.
  - destruct (IH [] rest) as [Hlen Hids]. split; [exact Hlen|].
    intros [|[|i]] id Hi Hodd; [done | |].
    + injection Hi as <-. by apply (match_token_digits U b (c :: s) id0 rest).
    + apply (Hids i); done.
  - apply IH.
Qed.

(** X5. Whatever the translator returns, splitting it on the placeholder
    pattern gives an odd number of parts, literal segments and captured
    ids alternating, and every captured id is a non-empty string of
    digits. *)
Theorem re_split_shape (U : Unicode) (b : bool) (s : str) :
  Nat.odd (length (re_split U b s)) = true
  /\ forall i id, re_split U b s !! i = Some id ->
       is_id_at false i = true ->
       id <> [] /\ forallb (u_isdigit U) id = true.
Proof. apply split_loop_shape. Qed.

(* --------------------------------------------------------------------- *)
(*  The output loop only adds spaces                                     *)
(* --------------------------------------------------------------------- *)

Lemma spaced_join_spec (U : Unicode) (final_parts : list str) :
  forall output : list str,
    concat output ++ concat final_parts
      `sublist_of` spaced_join U output final_parts
    /\ List.filter not_space (spaced_join U output final_parts)
       = List.filter not_space (concat output ++ concat final_parts)
    /\ length (spaced_join U output final_parts)
       <= length (concat output ++ concat final_parts) + length final_parts.
Proof.
  induction final_parts as [|p rest IH]; intros output.
  { simpl. rewrite app_nil_r. split; [done|]. split; [done|]. lia. }
  destruct p as [|c p].
  { cbn [spaced_join concat app]. destruct (IH output) as (H1 & H2 & H3).
    split; [done|]. split; [done|]. simpl. lia. }
  cbn [spaced_join].
  destruct (needs_space U output (c :: p)).
  - destruct (IH ((output ++ [lit " "]) ++ [c :: p])) as (H1 & H2 & H3).
    rewrite !concat_app in H1, H2, H3. cbn [concat] in *.
    rewrite !app_nil_r in H1, H2, H3.
    split; [|split].
    + etrans; [|exact H1]. rewrite <- !app_assoc.
      apply sublist_app; [done|]. by apply sublist_inserts_l.
    + rewrite H2. rewrite <- !app_assoc. rewrite !List.filter_app. done.
    + rewrite !length_app in *. simpl in *. lia.
  - destruct (IH (output ++ [c :: p])) as (H1 & H2 & H3).
    rewrite !concat_app in H1, H2, H3. cbn [concat] in *.
    rewrite !app_nil_r in H1, H2, H3. rewrite <- !app_assoc in H1, H2, H3.
    split; [done|]. split; [done|].
    rewrite !length_app in *. simpl in *. lia.
Qed.

(** X6. The output loop of the mixer never drops or reorders text: the
    final parts concatenated are a subsequence of its result, the two agree
    once spaces are removed, and it adds at most one character per part. *)
Theorem spaced_join_only_adds_spaces (U : Unicode) (final_parts : list str) :
  concat final_parts `sublist_of` spaced_join U [] final_parts
  /\ List.filter not_space (spaced_join U [] final_parts)
     = List.filter not_space (concat final_parts)
  /\ length (spaced_join U [] final_parts)
     <= length (concat final_parts) + length final_parts.
Proof. apply (spaced_join_spec U final_parts []). Qed.

(* --------------------------------------------------------------------- *)
(*  The schwa rule, applied twice                                        *)
(* --------------------------------------------------------------------- *)

Lemma schwa_word_prefix (should : bool) (prot : list str) (w : str) :
  schwa_word should prot w `prefix_of` w
  /\ length w <= S (length (schwa_word should prot w))
  /\ (w <> [] -> schwa_word should prot w <> []).
Proof.
  destruct (schwa_word_cases should prot w)
    as [(_ & Hlen & [x ->] & _ & _ & ->) | (_ & ->)];
    [|split; [done|]; split; [lia | done]].
  change (lit "a") with [ch "a"]. rewrite removelast_snoc.
  rewrite length_app in *. simpl in *.
  split; [by apply prefix_app_r|]. split; [lia|].
  intros _ ->. simpl in Hlen. lia.
Qed.

Lemma schwa_word_twice (should : bool) (prot : list str) (w : str) :
  schwa_word should prot (schwa_word should prot w)
  = schwa_word should prot w.
Proof.
  destruct (schwa_word_cases should prot w)
    as [(_ & Hlen & [x ->] & Hpen & _ & ->) | (_ & Heq)];
    [|by rewrite !Heq].
  change (lit "a") with [ch "a"] in *. rewrite removelast_snoc.
  unfold schwa_word.
  destruct (endswith (lit "a") x) eqn:Ha;
    [|by rewrite andb_false_r].
  exfalso. apply endswith_suffix in Ha as [y ->].
  apply (Hpen (ch "a")); [|apply (bool_decide_unpack _); vm_compute; exact I].
  unfold penultimate. change (lit "a") with [ch "a"].
  rewrite !length_app. simpl.
  replace (length y + 1 + 1 - 2) with (length y + 0) by lia.
  rewrite <- app_assoc. by rewrite lookup_app_r, Nat.add_comm, Nat.add_sub
    by lia.
Qed.

(** X7. The romanizer's schwa rule removes at most the last character of a
    word, never a character inside it, never empties a word, and applying
    it to its own output changes nothing. *)
Theorem schwa_for_idempotent (target_lang w : str) :
  schwa_for target_lang (schwa_for target_lang w) = schwa_for target_lang w
  /\ schwa_for target_lang w `prefix_of` w
  /\ length w <= S (length (schwa_for target_lang w))
  /\ (w <> [] -> schwa_for target_lang w <> []).
Proof.
  unfold schwa_for. split; [apply schwa_word_twice | apply schwa_word_prefix].
Qed.

(* --------------------------------------------------------------------- *)
(*  str.split() and ' '.join                                             *)
(* --------------------------------------------------------------------- *)

Section Words.
Context (U : Unicode).

Local Abbreviation no_space := (Forall (fun c => u_isspace U c = false)).
Local Abbreviation word := (fun w : str => w <> [] /\ no_space w).

Lemma space_isspace : u_isspace U 32 = true.
Proof. by rewrite u_isspace_ascii. Qed.

Lemma split_ws_words (s : str) :
  forall cur, no_space cur -> Forall word (split_ws U cur s).
Proof.
  induction s as [|c s IH]; intros cur Hcur; simpl.
  - destruct cur; [by apply Forall_nil|]. by apply Forall_singleton.
  - destruct (u_isspace U c) eqn:Hc.
    + destruct cur; [by apply IH|]. apply Forall_cons. split; [done|].
      by apply IH.
    + apply IH. apply Forall_app. split; [done|]. by apply Forall_singleton.
Qed.

Lemma split_ws_word (w : str) :
  forall cur s, no_space w -> split_ws U cur (w ++ s) = split_ws U (cur ++ w) s.
Proof.
  induction w as [|c w IH]; intros cur s Hw; simpl.
  - by rewrite app_nil_r.
  - apply Forall_cons in Hw as [Hc Hw]. rewrite Hc, IH by done.
    by rewrite <- app_assoc.
Qed.

Lemma split_ws_joined (l : list str) :
  forall w, word w -> Forall word l ->
    split_ws U [] (w ++ flat_map (fun y => lit " " ++ y) l) = w :: l.
Proof.
  induction l as [|y l IH]; intros w [Hne Hw] Hl.
  - rewrite split_ws_word by done. simpl. by destruct w.
  - apply Forall_cons in Hl as [Hy Hl].
    rewrite split_ws_word by done. change (lit " ") with [32%N] in *.
    cbn [flat_map app split_ws].
    rewrite space_isspace. destruct w; [done|]. f_equal. by apply IH.
Qed.

Lemma split_ws_join (l : list str) :
  Forall word l -> split_ws U [] (join (lit " ") l) = l.
Proof.
  destruct l as [|w l]; [done|]. intros Hl.
  apply Forall_cons in Hl as [Hw Hl]. rewrite join_cons.
  by apply split_ws_joined.
Qed.

Lemma schwa_for_word (target_lang w : str) :
  word w -> word (schwa_for target_lang w).
Proof.
  intros [Hne Hw]. unfold schwa_for.
  destruct (schwa_word_prefix (is_schwa_deletion_enabled target_lang)
              (default [] (assoc target_lang SCHWA_PROTECTION_RULES)) w)
    as ([k Hk] & _ & Hnonempty).
  split; [by apply Hnonempty|].
  rewrite Hk in Hw. by apply Forall_app in Hw as [? _].
Qed.
End Words.

(** X8. Romanization neither merges nor splits words: when the
    transliterator returns, the words of the romanized segment are the
    words of the transliteration (after the language's phonetic fixes),
    each passed through the schwa rule, and the segment is exactly these
    words joined by single spaces, with no other whitespace. *)
Theorem romanize_words (U : Unicode) (W : World) (target_lang part out : str) :
  romanize U W target_lang part = Some out ->
  exists roman,
    transliterate_process W (get_script_name target_lang)
                          (lit "RomanColloquial") part = Some roman
    /\ split_ws U [] out
       = map (schwa_for target_lang)
             (split_ws U []
                (foldl (fun roman kv => replace kv.1 kv.2 roman) roman
                       (default [] (assoc target_lang PHONETIC_FIXES))))
    /\ out = join (lit " ") (split_ws U [] out).
Proof.
  unfold romanize.
  destruct (transliterate_process W (get_script_name target_lang)
              (lit "RomanColloquial") part) as [roman|]; [|done].
  intros Hout. injection Hout as <-. exists roman. split; [done|].
  assert (H : split_ws U []
                (join (lit " ")
                   (map (schwa_for target_lang)
                      (split_ws U []
                         (foldl (fun roman kv => replace kv.1 kv.2 roman)
                                roman
                                (default [] (assoc target_lang
                                                   PHONETIC_FIXES))))))
              = map (schwa_for target_lang)
                  (split_ws U []
                     (foldl (fun roman kv => replace kv.1 kv.2 roman) roman
                            (default [] (assoc target_lang PHONETIC_FIXES))))).
  { apply split_ws_join. apply Forall_map.
    eapply Forall_impl; [by apply split_ws_words|].
    intros w Hw. by apply schwa_for_word. }
  split; [exact H|]. f_equal. symmetry. exact H.
Qed.

Lemma romanize_words_witness :
  split_ws ascii_unicode [] (lit "mera kitab")
  = map (schwa_for (lit "hi")) [lit "mera"; lit "kitaba"].
Proof.
  destruct (romanize_words ascii_unicode sample_world (lit "hi")
              (lit "  mera   kitaba ") (lit "mera kitab"))
    as (roman & Hroman & Hwords & _).
  - vm_compute. reflexivity.
  - injection Hroman as <-. exact Hwords.
Defined.

(* --------------------------------------------------------------------- *)
(*  str.replace that finds nothing to replace                            *)
(* --------------------------------------------------------------------- *)

Lemma replace_loop_fuel (old new : str) (fuel1 : nat) :
  old <> [] ->
  forall fuel2 s, length s <= fuel1 -> length s <= fuel2 ->
    replace_loop old new fuel1 s = replace_loop old new fuel2 s.
Proof.
  intros Hold. induction fuel1 as [|fuel1 IH]; intros fuel2 s H1 H2.
  { destruct s; [by destruct fuel2 | simpl in H1; lia]. }
  destruct s as [|c s]; [by destruct fuel2|].
  destruct fuel2 as [|fuel2]; [simpl in H2; lia|].
  simpl in H1, H2. cbn [replace_loop].
  destruct (startswith old (c :: s)) eqn:Hs.
  - f_equal. apply IH.
    + destruct old as [|o old]; [done|]. simpl. rewrite length_drop. lia.
    + destruct old as [|o old]; [done|]. simpl. rewrite length_drop. lia.
  - f_equal. apply IH; lia.
Qed.

Lemma replace_loop_same (old : str) (fuel : nat) :
  forall s, replace_loop old old fuel s = s.
Proof.
  induction fuel as [|fuel IH]; intros s; [by destruct s|].
  destruct s as [|c s]; [done|]. cbn [replace_loop].
  destruct (startswith old (c :: s)) eqn:Hs.
  - apply startswith_prefix in Hs as [k Hk]. rewrite Hk at 1.
    rewrite drop_app_length, IH. done.
  - by rewrite IH.
Qed.

Lemma replace_loop_absent (old new : str) (fuel : nat) :
  forall s, (forall i, startswith old (drop i s) = false) ->
            replace_loop old new fuel s = s.
Proof.
  induction fuel as [|fuel IH]; intros s Hs; [by destruct s|].
  destruct s as [|c s]; [done|]. cbn [replace_loop].
  pose proof (Hs 0) as H0. rewrite drop_0 in H0. rewrite H0.
  f_equal. apply IH. intros i. apply (Hs (S i)).
Qed.

(** X9. Replacing a text by itself, or replacing a text that occurs at no
    position of the string, returns the string unchanged.  The first is
    what the phonetic table's entry v -> v does; the second is what the
    gonna / wanna / gotta rewrite does to text without these words. *)
Theorem replace_noop (old new s : str) :
  replace old old s = s
  /\ ((forall i, startswith old (drop i s) = false) -> replace old new s = s).
Proof.
  split.
  - destruct old as [|o old]; [|apply replace_loop_same].
    simpl. induction s as [|c s IH]; [done|]. simpl. by rewrite IH.
  - intros Hs. destruct old as [|o old]; [by specialize (Hs 0)|].
    by apply replace_loop_absent.
Qed.

(* --------------------------------------------------------------------- *)
(*  Putting English words back by index                                  *)
(* --------------------------------------------------------------------- *)

(* the loop shared by the bulk path and by process_mixed_english_v2: the
   word at index j is written over the romanized word at index j when the
   test holds and the index is in range *)
Lemma restore_by_index (keep : nat -> str -> bool) (orig_words : list str) :
  forall rom_words : list str,
    let out :=
      foldl (fun rom_words jw =>
               let '(j, word) := jw in
               if keep j word
               then (if j <? length rom_words then <[j := word]> rom_words
                     else rom_words)
               else rom_words)
            rom_words (imap (fun j word => (j, word)) orig_words) in
    length out = length rom_words
    /\ forall j,
         out !! j
         = match orig_words !! j, rom_words !! j with
           | Some word, Some rom => if keep j word then Some word else Some rom
           | _, rom => rom
           end.
Proof.
  induction orig_words as [|word orig_words IH] using rev_ind;
    intros rom_words.
  { split; [done|]. intros j. reflexivity. }
  cbv zeta. rewrite imap_app, foldl_app. cbn [imap foldl].
  rewrite Nat.add_0_r.
  destruct (IH rom_words) as [Hlen Hat]. cbv zeta in Hlen, Hat.
  set (rom := foldl _ rom_words (imap _ orig_words)) in *.
  split.
  - destruct (keep _ word); [|done]. destruct (_ <? _); [|done].
    by rewrite length_insert.
  - intros j. destruct (decide (j = length orig_words)) as [->|Hne].
    + rewrite lookup_app_r, Nat.sub_diag by lia. cbn [lookup list_lookup].
      assert (Hrom : rom !! length orig_words = rom_words !! length orig_words).
      { rewrite Hat. by rewrite lookup_ge_None_2 by lia. }
      destruct (keep _ word) eqn:Hkeep.
      * destruct (length orig_words <? length rom) eqn:Hin.
        -- apply Nat.ltb_lt in Hin. rewrite list_lookup_insert_eq by lia.
           destruct (lookup_lt_is_Some_2 rom_words (length orig_words))
             as [x ->]; [lia | done].
        -- apply Nat.ltb_ge in Hin. rewrite Hrom.
           by rewrite (lookup_ge_None_2 rom_words) by lia.
      * rewrite Hrom. by destruct (rom_words !! length orig_words).
    + assert (Hj : (orig_words ++ [word]) !! j = orig_words !! j).
      { destruct (decide (j < length orig_words)).
        - by rewrite lookup_app_l.
        - rewrite !lookup_ge_None_2; [done | lia |].
          rewrite length_app. simpl. lia. }
      rewrite Hj, <- Hat.
      destruct (keep _ word); [|done]. destruct (_ <? _); [|done].
      by rewrite list_lookup_insert_ne.
Qed.

(** X10. The bulk path's word restoration keeps the number of romanized
    words.  At every position the result holds the original word when that
    word, lowercased, is a common English word or a technical term and the
    romanized text has a word at that position; it holds the romanized
    word otherwise.  Original words beyond the romanized text are
    dropped. *)
Theorem restore_common_by_index (U : Unicode) (R : Resources)
    (orig_words rom_words : list str) :
  length (restore_common U R orig_words rom_words) = length rom_words
  /\ forall j,
       restore_common U R orig_words rom_words !! j
       = match orig_words !! j, rom_words !! j with
         | Some word, Some rom =>
             if bool_decide (u_lower U word ∈ COMMON_ENGLISH_WORDS)
                || bool_decide (u_lower U word ∈ TECH_TERMS R)
             then Some word else Some rom
         | _, rom => rom
         end.
Proof.
  apply (restore_by_index
           (fun _ word => bool_decide (u_lower U word ∈ COMMON_ENGLISH_WORDS)
                          || bool_decide (u_lower U word ∈ TECH_TERMS R))).
Qed.

(* --------------------------------------------------------------------- *)
(*  The worker sends every queued text once                              *)
(* --------------------------------------------------------------------- *)

Lemma deliver_unsignalled (texts translations : list str)
    (items : list (nat * request)) :
  forall (st : gmap nat str * gset nat) (id : nat),
    id ∉ map (fun ir => req_id ir.2) items ->
    id ∈ (foldl (deliver texts translations) st items).2 -> id ∈ st.2.
Proof.
  induction items as [|[i r] items IH]; intros st id Hid Hin; simpl in *;
    [done|].
  apply IH in Hin.
  - simpl in Hin. apply elem_of_union in Hin as [Hin|Hin]; [|done].
    apply elem_of_singleton in Hin. exfalso. apply Hid. rewrite Hin.
    apply list_elem_of_here.
  - intros H. apply Hid. by apply list_elem_of_further.
Qed.

Lemma deliver_original_unsignalled (batch : list request) :
  forall (st : gmap nat str * gset nat) (id : nat),
    id ∉ map req_id batch ->
    id ∈ (foldl deliver_original st batch).2 -> id ∈ st.2.
Proof.
  induction batch as [|r batch IH]; intros st id Hid Hin; simpl in *; [done|].
  apply IH in Hin.
  - simpl in Hin. apply elem_of_union in Hin as [Hin|Hin]; [|done].
    apply elem_of_singleton in Hin. exfalso. apply Hid. rewrite Hin.
    apply list_elem_of_here.
  - intros H. apply Hid. by apply list_elem_of_further.
Qed.

Section Worker.
Context (batch_wait_ms : Q) (max_batch_size : Z).
Context (translate_texts : list str -> str -> option (list str)).

Local Abbreviation round := (process_queue_round batch_wait_ms max_batch_size
                                                 translate_texts).
Local Abbreviation run := (run_worker batch_wait_ms max_batch_size
                                      translate_texts).

Lemma round_calls (clock : nat -> Q) (st : processor) :
  exists new_calls,
    calls (round clock st) = calls st ++ new_calls
    /\ concat (map fst new_calls) ++ map req_text (queue (round clock st))
       = map req_text (queue st)
    /\ Forall (fun call => call.1 <> []) new_calls.
Proof.
  destruct (queue st) as [|first rest] eqn:Hq.
  { exists []. unfold process_queue_round. rewrite Hq, app_nil_r.
    by rewrite Hq. }
  rewrite (round_unfold _ _ _ clock st first rest Hq). cbv zeta.
  cbn [queue calls].
  destruct (next_batch_spec batch_wait_ms max_batch_size clock first rest)
    as (Happ & Hfirst & _).
  eexists. split; [reflexivity|]. split.
  - cbn [map fst concat]. rewrite app_nil_r, <- map_app. by rewrite Happ.
  - apply Forall_singleton. cbn [fst]. intros Hnil.
    apply map_eq_nil in Hnil. by rewrite Hnil in Hfirst.
Qed.

Lemma round_waiting (clock : nat -> Q) (st : processor) (r : request) :
  NoDup (map req_id (queue st)) ->
  r ∈ queue (round clock st) ->
  r ∈ queue st
  /\ NoDup (map req_id (queue (round clock st)))
  /\ results (round clock st) !! req_id r = results st !! req_id r
  /\ (req_id r ∈ signalled (round clock st) -> req_id r ∈ signalled st).
Proof.
  intros Hnd Hr.
  destruct (round_queue batch_wait_ms max_batch_size translate_texts clock st)
    as (batch & Hq & _).
  assert (Hin : r ∈ queue st).
  { rewrite <- Hq. apply elem_of_app. by right. }
  assert (Hnd' : NoDup (map req_id (queue (round clock st)))).
  { rewrite <- Hq, map_app in Hnd. by apply NoDup_app in Hnd as (_ & _ & ?). }
  split; [done|]. split; [done|]. clear Hq Hnd' batch.
  destruct (queue st) as [|first rest] eqn:Hst;
    [by apply elem_of_nil in Hin|].
  revert Hr. rewrite (round_unfold _ _ _ clock st first rest Hst).
  cbv zeta. cbn [queue results signalled]. intros Hr.
  destruct (next_batch_spec batch_wait_ms max_batch_size clock first rest)
    as (Happ & _).
  assert (Hbatch : req_id r ∉ map req_id
            (next_batch batch_wait_ms max_batch_size clock (first :: rest)).1).
  { intros Hb. rewrite <- Happ, map_app in Hnd.
    apply NoDup_app in Hnd as (_ & Hdisj & _).
    apply (Hdisj (req_id r) Hb). apply list_elem_of_fmap. by exists r. }
  destruct (translate_texts _ _) as [translations|].
  - split.
    + apply deliver_other. by rewrite indexed_ids.
    + apply deliver_unsignalled. by rewrite indexed_ids.
  - split.
    + by apply deliver_original_other.
    + by apply deliver_original_unsignalled.
Qed.
End Worker.

(** X11. Whatever the clocks and the batch limits, the worker sends every
    queued text to the batched translator exactly once and in arrival
    order: the texts of the calls it has made followed by the texts still
    queued are always the texts of the calls made before followed by the
    texts queued before.  It only appends to the list of calls and never
    calls the translator with an empty batch. *)
Theorem worker_sends_each_text_once (batch_wait_ms : Q) (max_batch_size : Z)
    (translate_texts : list str -> str -> option (list str))
    (clocks : list (nat -> Q)) (st : processor) :
  let st' := run_worker batch_wait_ms max_batch_size translate_texts clocks
                        st in
  exists new_calls,
    calls st' = calls st ++ new_calls
    /\ concat (map fst new_calls) ++ map req_text (queue st')
       = map req_text (queue st)
    /\ Forall (fun call => call.1 <> []) new_calls.
Proof.
  revert st. induction clocks as [|clock clocks IH]; intros st.
  { exists []. simpl. by rewrite app_nil_r. }
  cbn [run_worker foldl] in *. cbv zeta in *.
  destruct (round_calls batch_wait_ms max_batch_size translate_texts clock st)
    as (calls1 & Hcalls1 & Htexts1 & Hne1).
  destruct (IH (process_queue_round batch_wait_ms max_batch_size
                  translate_texts clock st))
    as (calls2 & Hcalls2 & Htexts2 & Hne2).
  exists (calls1 ++ calls2). split; [|split].
  - unfold run_worker in Hcalls2. rewrite Hcalls2, Hcalls1.
    by rewrite <- app_assoc.
  - unfold run_worker in Htexts2.
    rewrite map_app, concat_app, <- app_assoc, Htexts2. exact Htexts1.
  - by apply Forall_app.
Qed.

(** X12. A request that is still queued is never answered early: while it
    waits, no result is stored under its id and its future is not set,
    beyond what was there before the worker ran. *)
Theorem queued_request_untouched (batch_wait_ms : Q) (max_batch_size : Z)
    (translate_texts : list str -> str -> option (list str))
    (clocks : list (nat -> Q)) (st : processor) (r : request) :
  let st' := run_worker batch_wait_ms max_batch_size translate_texts clocks
                        st in
  NoDup (map req_id (queue st)) ->
  r ∈ queue st' ->
  r ∈ queue st
  /\ results st' !! req_id r = results st !! req_id r
  /\ (req_id r ∈ signalled st' -> req_id r ∈ signalled st).
Proof.
  revert st. induction clocks as [|clock clocks IH]; intros st; [done|].
  cbn [run_worker foldl] in *. cbv zeta in *. intros Hnd Hr.
  set (st1 := process_queue_round batch_wait_ms max_batch_size
                translate_texts clock st) in *.
  assert (Hnd1 : NoDup (map req_id (queue st1))).
  { destruct (round_queue batch_wait_ms max_batch_size translate_texts
                clock st) as (batch & Hq & _).
    rewrite <- Hq, map_app in Hnd. by apply NoDup_app in Hnd as (_ & _ & ?). }
  destruct (IH st1 Hnd1 Hr) as (Hin1 & Hres1 & Hsig1).
  destruct (round_waiting batch_wait_ms max_batch_size translate_texts
              clock st r Hnd Hin1) as (Hin & _ & Hres & Hsig).
  split; [done|]. split.
  - etrans; [exact Hres1 | exact Hres].
  - intros H. by apply Hsig, Hsig1.
Qed.

Lemma queued_request_untouched_witness :
  let st' := run_worker 50 2 (fun l _ => Some l) [frozen_clock]
                        sample_processor in
  results st' !! 3 = None /\ 3 ∉ signalled st'.
Proof.
  destruct (queued_request_untouched 50 2 (fun l _ => Some l) [frozen_clock]
              sample_processor (sample_request 3 "thanks" "hi"))
    as (_ & Hres & Hsig).
  - apply (bool_decide_unpack _). vm_compute. exact I.
  - vm_compute. apply list_elem_of_here.
  - split; [exact Hres|]. intros H. apply Hsig in H.
    by apply elem_of_empty in H.
Defined.

(* --------------------------------------------------------------------- *)
(*  The bulk translation entry point                                     *)
(* --------------------------------------------------------------------- *)

(** X13. The bulk translation entry point answers every input, in order,
    when every engine fails: it returns one text per input text.  On the
    LibreTranslate route a failed item comes back as it was sent; on the
    IndicTrans2 route a failed call returns the inputs with every blank
    text replaced by the empty string. *)
Theorem translate_texts_batch_fails_open (U : Unicode) (W : World)
    (texts : list str) (target_lang : str) :
  (use_indictrans W = true ->
   forall ts, indic_generate W ts (tgt_lang_code target_lang) = None) ->
  (use_indictrans W = false ->
   forall t, t ∈ texts -> libretranslate_try W t target_lang true = None) ->
  length (translate_texts_batch U W texts target_lang) = length texts
  /\ forall i t, texts !! i = Some t ->
       translate_texts_batch U W texts target_lang !! i
       = Some (if use_indictrans W && blank U t then [] else t).
Proof.
  intros Hindic Hlibre. unfold translate_texts_batch.
  destruct (use_indictrans W) eqn:Hroute.
  - unfold translate_texts_indictrans2. destruct texts as [|t0 texts]; [done|].
    rewrite Hindic by done. rewrite length_map. split; [done|].
    intros i t Hi. rewrite list_lookup_fmap, Hi. done.
  - rewrite length_map. split; [done|]. intros i t Hi.
    rewrite list_lookup_fmap, Hi. simpl. f_equal.
    apply libretranslate_fails_open. left. apply Hlibre; [done|].
    by apply list_elem_of_lookup_2 in Hi.
Qed.

Lemma translate_texts_batch_fails_open_witness :
  translate_texts_batch ascii_unicode failing_world
                        [lit "hello"; lit "  "] (lit "hi")
  !! 1 = Some [].
Proof.
  refine (proj2 (translate_texts_batch_fails_open ascii_unicode failing_world
                   [lit "hello"; lit "  "] (lit "hi") _ _)
                1 (lit "  ") eq_refl).
  - intros _ ts. reflexivity.
  - intros H. vm_compute in H. discriminate.
Defined.

(* --------------------------------------------------------------------- *)
(*  process_mixed_english_v2                                             *)
(* --------------------------------------------------------------------- *)

Lemma foldl_filter {A B} (f : A -> B -> A) (p : B -> bool) (l : list B) :
  forall a, foldl f a (List.filter p l)
            = foldl (fun a x => if p x then f a x else a) a l.
Proof.
  induction l as [|x l IH]; intros a; simpl; [done|].
  destruct (p x); simpl; apply IH.
Qed.

Lemma foldl_ext_in {A B} (f g : A -> B -> A) (l : list B) :
  (forall a x, x ∈ l -> f a x = g a x) ->
  forall a, foldl f a l = foldl g a l.
Proof.
  induction l as [|x l IH]; intros Hfg a; simpl; [done|].
  rewrite Hfg by apply list_elem_of_here. apply IH.
  intros a' x' Hx'. apply Hfg. by apply list_elem_of_further.
Qed.

Lemma restore_words_fold (U : Unicode) (R : Resources)
    (original_words romanized_words : list str) :
  restore_words (words_to_restore U R original_words) romanized_words
  = foldl (fun rom_words jw =>
             let '(j, word) := jw in
             if restored_v2 U R j word
             then (if j <? length rom_words then <[j := word]> rom_words
                   else rom_words)
             else rom_words)
          romanized_words (imap (fun j word => (j, word)) original_words).
Proof.
  unfold restore_words, words_to_restore. rewrite foldl_filter.
  apply foldl_ext_in. by intros a [j word] _.
Qed.

(** X14. process_mixed_english_v2 returns a blank text as it is, whatever
    the engines do.  Its word restoration keeps the number of romanized
    words; at every position it holds the original word when that word is
    a common English word, a technical term, or a word of more than one
    character that starts in upper case and is not the first word, and the
    romanized text has a word there; otherwise it holds the romanized
    word. *)
Theorem process_mixed_english_v2_restores (U : Unicode) (R : Resources)
    (W : World) :
  (forall text formality_threshold target_lang,
      blank U text = true ->
      process_mixed_english_v2 U R W text formality_threshold target_lang
      = Some text)
  /\ forall original_words romanized_words,
       let out := restore_words (words_to_restore U R original_words)
                                romanized_words in
       length out = length romanized_words
       /\ forall j,
            out !! j
            = match original_words !! j, romanized_words !! j with
              | Some word, Some rom =>
                  if restored_v2 U R j word then Some word else Some rom
              | _, rom => rom
              end.
Proof.
  split.
  - intros text formality_threshold target_lang Hblank.
    unfold process_mixed_english_v2. by rewrite Hblank.
  - intros original_words romanized_words. cbv zeta.
    rewrite restore_words_fold.
    apply (restore_by_index (restored_v2 U R)).
Qed.

Lemma process_mixed_english_v2_restores_witness :
  process_mixed_english_v2 ascii_unicode sample_resources failing_world
                           (lit "  ") 7 (lit "hi")
  = Some (lit "  ").
Proof.
  apply (proj1 (process_mixed_english_v2_restores ascii_unicode
                  sample_resources failing_world)).
  reflexivity.
Defined.

(** X15. On a text that is not blank and in which no word after the first
    starts in upper case, process_mixed_english_v2 returns what the bulk
    path makes of the same text and the same translation. *)
Theorem process_mixed_english_v2_as_bulk (U : Unicode) (R : Resources)
    (W : World) (text : str) (formality_threshold : Q) (target_lang : str) :
  blank U text = false ->
  (forall i word, word_tokenize W text !! i = Some word -> 0 < i ->
                  first_isupper U word = false) ->
  process_mixed_english_v2 U R W text formality_threshold target_lang
  = mix_v2_item U R W target_lang text
                (translate_batch U W text target_lang false).
Proof.
  intros Hblank Hlower. unfold process_mixed_english_v2, mix_v2_item.
  rewrite Hblank.
  destruct (match get_script_name target_lang with
            | [] => Some (translate_batch U W text target_lang false)
            | _ :: _ => _
            end) as [romanized|]; [|done].
  cbn [mbind option_bind]. do 2 f_equal. f_equal.
  rewrite restore_words_fold. unfold restore_common.
  apply foldl_ext_in. intros a [j word] Hin.
  apply elem_of_lookup_imap in Hin as (i & w & [= -> ->] & Hw).
  unfold restored_v2. cbv zeta.
  destruct (bool_decide (u_lower U w ∈ COMMON_ENGLISH_WORDS)); [done|].
  destruct (bool_decide (u_lower U w ∈ TECH_TERMS R)); [done|].
  simpl. destruct i as [|i]; [by rewrite andb_false_r|].
  rewrite (Hlower (S i) w Hw) by lia. by rewrite andb_false_r.
Qed.

Lemma process_mixed_english_v2_as_bulk_witness :
  process_mixed_english_v2 ascii_unicode sample_resources sample_world
                           (lit "Hello api , world") 7 (lit "hi")
  = Some (lit "Hello api, world").
Proof.
  rewrite (process_mixed_english_v2_as_bulk ascii_unicode sample_resources
             sample_world (lit "Hello api , world") 7 (lit "hi")).
  - vm_compute. reflexivity.
  - reflexivity.
  - intros [|[|[|[|i]]]] word Hw Hi; try lia;
      vm_compute in Hw; try discriminate; injection Hw as <-; reflexivity.
Defined.

(* --------------------------------------------------------------------- *)
(*  The language tables and the Smart Mix target                         *)
(* --------------------------------------------------------------------- *)

Lemma assoc_elem {V} (k : str) (d : list (str * V)) (v : V) :
  assoc k d = Some v -> (k, v) ∈ d.
Proof.
  induction d as [|[k' v'] d IH]; simpl; [done|].
  destruct (bool_decide (k = k')) eqn:Hk.
  - apply bool_decide_eq_true in Hk as ->. intros [= ->].
    apply list_elem_of_here.
  - intros H. apply list_elem_of_further. by apply IH.
Qed.

Lemma language_tables_checked :
  Forall (fun nc : str * str =>
            smart_mix_target (nc.1 ++ lit "_Mix") = Some nc.2
            /\ is_Some (assoc nc.2 SCRIPT_MAP)
            /\ (bool_decide (nc.2 = lit "sat")
                = bool_decide (assoc nc.2 ISO_TO_INDICTRANS2 = None)))
         LANG_CODE_MAP.
Proof.
  unfold LANG_CODE_MAP.
  repeat (apply Forall_cons; split;
          [split; [vm_compute; reflexivity
                  |split; [vm_compute; eexists; reflexivity
                          |vm_compute; reflexivity]]|]).
  by apply Forall_nil.
Qed.

(** X16. For every language name of LANG_CODE_MAP the server resolves the
    target <name>_Mix to that language's code, and the code has a script in
    SCRIPT_MAP.  Every code has its own IndicTrans2 language code except
    sat (Santali), which is the only one to fall back to hin_Deva: on the
    IndicTrans2 route Santali requests are translated into Hindi. *)
Theorem language_tables_consistent (name code : str) :
  assoc name LANG_CODE_MAP = Some code ->
  smart_mix_target (name ++ lit "_Mix") = Some code
  /\ is_Some (assoc code SCRIPT_MAP)
  /\ (assoc code ISO_TO_INDICTRANS2 = None <-> code = lit "sat")
  /\ (code = lit "sat" -> tgt_lang_code code = lit "hin_Deva").
Proof.
  intros Hname. apply assoc_elem in Hname.
  pose proof language_tables_checked as Hall.
  rewrite Forall_forall in Hall.
  destruct (Hall (name, code) Hname) as (Htarget & Hscript & Hsat).
  cbn [fst snd] in *.
  split; [done|]. split; [done|]. split.
  - split.
    + intros Hnone. apply (bool_decide_eq_true_2 _) in Hnone.
      rewrite <- Hsat in Hnone. by apply bool_decide_eq_true in Hnone.
    + intros Hcode. apply (bool_decide_eq_true_2 _) in Hcode.
      rewrite Hsat in Hcode. by apply bool_decide_eq_true in Hcode.
  - intros ->. reflexivity.
Qed.

Lemma language_tables_consistent_witness :
  smart_mix_target (lit "Tamil_Mix") = Some (lit "ta").
Proof.
  apply (language_tables_consistent (lit "Tamil") (lit "ta")). reflexivity.
Defined.

(* --------------------------------------------------------------------- *)
(*  The ensemble tagger                                                  *)
(* --------------------------------------------------------------------- *)

Lemma vote_is_spacy (i : nat) (spacy_tag nltk_tag : str) :
  nlp_engine.vote i spacy_tag nltk_tag = spacy_tag.
Proof.
  unfold nlp_engine.vote.
  destruct (bool_decide (spacy_tag = nltk_tag)); [done|].
  destruct (i =? 0); [done|]. by destruct (_ || _).
Qed.

(** X17. With spaCy loaded, the ensemble tagger returns spaCy's tokens with
    spaCy's tags: NLTK's tags never change a tag, in any position.  NLTK
    matters only in that the call raises when NLTK's tagger raises.
    Without spaCy the result is NLTK's tagging. *)
Theorem get_pos_tags_is_spacy (W : World)
    (nlp : str -> option (list (str * str * str))) (text : str) :
  nlp_engine.get_pos_tags W (Some nlp) text
  = (spacy_results ← nlp text;
     nltk_results ← pos_tag W (word_tokenize W text);
     Some (map (fun r : str * str * str => (r.1.1, r.1.2)) spacy_results))
  /\ nlp_engine.get_pos_tags W None text = pos_tag W (word_tokenize W text).
Proof.
  split; [|done]. unfold nlp_engine.get_pos_tags.
  destruct (nlp text) as [spacy_results|]; [|done].
  destruct (pos_tag W (word_tokenize W text)) as [nltk_results|]; [|done].
  cbn [mbind option_bind]. f_equal.
  apply list_eq. intros i. rewrite list_lookup_imap, list_lookup_fmap.
  destruct (spacy_results !! i) as [[[word spacy_tag] spacy_pos]|]; [|done].
  cbn [fmap option_fmap option_map fst snd]. f_equal.
  destruct (nltk_results !! i) as [[nltk_word nltk_tag]|]; [|done].
  by rewrite vote_is_spacy.
Qed.

(* --------------------------------------------------------------------- *)
(*  Slang normalization                                                  *)
(* --------------------------------------------------------------------- *)

Lemma is_ascii_Forall (s : str) :
  is_ascii s = true <-> Forall (fun c => (c < 128)%N) s.
Proof.
  unfold is_ascii. rewrite forallb_forall, Forall_forall.
  split; intros H c Hc.
  - apply N.ltb_lt. apply H. by apply list_elem_of_In.
  - apply N.ltb_lt. apply H. by apply list_elem_of_In.
Qed.

Lemma ascii_lower_is_ascii (s : str) :
  is_ascii s = true -> is_ascii (ascii_lower s) = true.
Proof.
  rewrite !is_ascii_Forall. unfold ascii_lower. intros H.
  apply Forall_map. eapply Forall_impl; [exact H|]. intros c Hc. simpl.
  unfold ascii_isupper. destruct (N.leb 65 c && N.leb c 90) eqn:Hup; [|done].
  apply andb_true_iff in Hup as [_ Hup]. apply N.leb_le in Hup. lia.
Qed.

Section SlangProof.
Context (U : Unicode).

Local Abbreviation word_of := (nlp_engine.normalize_word U).
Local Abbreviation ascii_word_of := (nlp_engine.normalize_word ascii_unicode).

Lemma split_ws_space (a : str) :
  forall (cur b : str) (sp : char),
    u_isspace U sp = true ->
    split_ws U cur (a ++ sp :: b) = split_ws U cur a ++ split_ws U [] b.
Proof.
  induction a as [|c a IH]; intros cur b sp Hsp; simpl.
  - rewrite Hsp. by destruct cur.
  - destruct (u_isspace U c).
    + destruct cur; [by apply IH|]. simpl. f_equal. by apply IH.
    + by apply IH.
Qed.

Lemma split_ws_join_any (l : list str) :
  split_ws U [] (join (lit " ") l) = concat (map (split_ws U []) l).
Proof.
  destruct l as [|x l]; [done|]. revert x.
  induction l as [|y l IH]; intros x.
  - simpl. by rewrite app_nil_r.
  - change (join (lit " ") (x :: y :: l))
      with (x ++ 32%N :: join (lit " ") (y :: l)).
    rewrite split_ws_space by apply space_isspace.
    rewrite IH. done.
Qed.

Lemma split_ws_ascii (s : str) :
  is_ascii s = true ->
  forall cur, split_ws U cur s = split_ws ascii_unicode cur s.
Proof.
  rewrite is_ascii_Forall. induction 1 as [|c s Hc Hs IH]; intros cur; simpl;
    [done|].
  rewrite (u_isspace_ascii U c Hc). destruct (ascii_isspace c).
  - destruct cur; by rewrite IH.
  - apply IH.
Qed.

Lemma split_ws_is_ascii (s : str) :
  is_ascii s = true ->
  forall cur, is_ascii cur = true ->
    Forall (fun w => is_ascii w = true) (split_ws ascii_unicode cur s).
Proof.
  rewrite is_ascii_Forall. induction 1 as [|c s Hc Hs IH]; intros cur Hcur;
    simpl.
  - destruct cur; [by apply Forall_nil|]. by apply Forall_singleton.
  - destruct (ascii_isspace c).
    + destruct cur; [by apply IH|]. apply Forall_cons. split; [done|].
      by apply IH.
    + apply IH. apply is_ascii_Forall. apply Forall_app.
      split; [by apply is_ascii_Forall|]. by apply Forall_singleton.
Qed.

Lemma normalize_word_ascii (w : str) :
  is_ascii w = true -> word_of w = ascii_word_of w.
Proof.
  intros Hw. unfold nlp_engine.normalize_word.
  rewrite (u_lower_ascii U w Hw). cbn [u_lower ascii_unicode].
  assert (Hstrip : nlp_engine.strip_non_word U (ascii_lower w)
                   = nlp_engine.strip_non_word ascii_unicode (ascii_lower w)).
  { apply ascii_lower_is_ascii, is_ascii_Forall in Hw.
    unfold nlp_engine.strip_non_word.
    induction Hw as [|c s Hc Hs IH]; [done|]. simpl.
    rewrite (u_isalnum_ascii U c Hc), IH. done. }
  rewrite Hstrip.
  assert (Hup : first_isupper U w = first_isupper ascii_unicode w).
  { destruct w as [|c w]; [done|].
    apply is_ascii_Forall, Forall_cons in Hw as [Hc _].
    unfold first_isupper, isupper. simpl.
    by rewrite (u_islower_ascii U c Hc), (u_isupper_ascii U c Hc). }
  by rewrite Hup.
Qed.

Lemma settled_ascii (r : str) :
  is_ascii r = true ->
  settled ascii_word_of (split_ws ascii_unicode []) r ->
  settled word_of (split_ws U []) r.
Proof.
  intros Hr (Hmap & Hne & Hjoin). unfold settled.
  rewrite (split_ws_ascii r Hr []). split; [|done].
  rewrite <- Hmap at 2. apply Forall_fmap_ext_1.
  eapply Forall_impl; [by apply (split_ws_is_ascii r Hr [])|].
  intros w Hw. by apply normalize_word_ascii.
Qed.

Lemma slang_map_settled :
  Forall (fun kv : str * str =>
            is_ascii kv.2 = true
            /\ is_ascii (nlp_engine.capitalize kv.2) = true
            /\ settled ascii_word_of (split_ws ascii_unicode []) kv.2
            /\ settled ascii_word_of (split_ws ascii_unicode [])
                       (nlp_engine.capitalize kv.2))
         nlp_engine.SLANG_MAP.
Proof.
  unfold nlp_engine.SLANG_MAP, settled. cbn [map].
  repeat (apply Forall_cons; split;
          [repeat split; vm_compute; (reflexivity || discriminate)|]).
  by apply Forall_nil.
Qed.

Lemma normalize_word_settled (w : str) :
  w <> [] -> Forall (fun c => u_isspace U c = false) w ->
  settled word_of (split_ws U []) (word_of w).
Proof.
  intros Hne Hw. unfold nlp_engine.normalize_word at 2.
  destruct (assoc _ nlp_engine.SLANG_MAP) as [replacement|] eqn:Hslang.
  - apply assoc_elem in Hslang.
    pose proof slang_map_settled as Hall. rewrite Forall_forall in Hall.
    apply Hall in Hslang. cbn [snd] in Hslang. destruct Hslang as (Ha & Hac & Hs & Hsc).
    destruct (first_isupper U w); by apply settled_ascii.
  - assert (Hsplit : split_ws U [] w = [w]).
    { rewrite <- (app_nil_r w) at 1. rewrite split_ws_word by done.
      simpl. by destruct w. }
    unfold settled. rewrite Hsplit. split; [|done]. simpl. f_equal.
    unfold nlp_engine.normalize_word. by rewrite Hslang.
Qed.
End SlangProof.

Lemma join_concat (sep : str) (lls : list (list str)) :
  Forall (fun ll => ll <> []) lls ->
  join sep (concat lls) = join sep (map (join sep) lls).
Proof.
  intros Hne.
  assert (Hjoin : forall l : list str,
            join sep l = drop (length sep) (flat_map (fun y => sep ++ y) l)).
  { intros [|x l]; [simpl; by rewrite drop_nil|].
    rewrite join_cons. cbn [flat_map]. rewrite <- app_assoc.
    by rewrite drop_app_length. }
  rewrite !Hjoin. f_equal.
  induction Hne as [|ll lls Hll Hlls IH]; [done|].
  cbn [concat map flat_map]. rewrite flat_map_app, IH. f_equal.
  destruct ll as [|x ll]; [done|]. rewrite join_cons. cbn [flat_map].
  by rewrite <- app_assoc.
Qed.

(** X18. Slang normalization reaches its fixed point in one pass:
    normalizing a normalized text changes nothing, so no expansion of
    SLANG_MAP contains a word that would itself be expanded differently.
    A text without slang words comes back as its words joined by single
    spaces. *)
Theorem normalize_slang_idempotent (U : Unicode) (text : str) :
  nlp_engine.normalize_slang U (nlp_engine.normalize_slang U text)
  = nlp_engine.normalize_slang U text
  /\ ((forall w, w ∈ split_ws U [] text ->
                 assoc (nlp_engine.strip_non_word U (u_lower U w))
                       nlp_engine.SLANG_MAP = None) ->
      nlp_engine.normalize_slang U text = join (lit " ") (split_ws U [] text)).
Proof.
  unfold nlp_engine.normalize_slang.
  pose proof (split_ws_words U text [] (Forall_nil_2 _)) as Hwords.
  set (ws := split_ws U [] text) in *.
  assert (Hsettled : Forall (fun w => settled (nlp_engine.normalize_word U)
                                        (split_ws U [])
                                        (nlp_engine.normalize_word U w)) ws).
  { eapply Forall_impl; [exact Hwords|]. intros w [Hne Hw].
    by apply normalize_word_settled. }
  split.
  - rewrite split_ws_join_any, map_map, concat_map, map_map.
    transitivity
      (join (lit " ")
         (concat (map (fun w => split_ws U [] (nlp_engine.normalize_word U w))
                      ws))).
    { f_equal. f_equal. apply Forall_fmap_ext_1.
      eapply Forall_impl; [exact Hsettled|]. by intros w (H & _). }
    rewrite join_concat.
    + rewrite map_map. f_equal. apply Forall_fmap_ext_1.
      eapply Forall_impl; [exact Hsettled|]. by intros w (_ & _ & H).
    + apply Forall_map. eapply Forall_impl; [exact Hsettled|].
      by intros w (_ & H & _).
  - intros Hplain. f_equal. rewrite <- (map_id ws) at 2.
    apply Forall_fmap_ext_1. apply Forall_forall. intros w Hw.
    unfold nlp_engine.normalize_word. by rewrite (Hplain w Hw).
Qed.

(* --------------------------------------------------------------------- *)
(*  What load_data puts into the tables                                  *)
(* --------------------------------------------------------------------- *)

Lemma load_loop_invariant {S} (P : S -> Prop)
    (body : S -> resource_loader.json -> option S)
    (items : list resource_loader.json) :
  (forall s item s', item ∈ items -> P s -> body s item = Some s' -> P s') ->
  forall s, P s -> P (resource_loader.load_loop body items s).1.
Proof.
  induction items as [|item items IH]; intros Hbody s Hs; simpl; [done|].
  destruct (body s item) as [s'|] eqn:Hitem; [|done].
  apply IH.
  - intros s1 item1 s2 Hin. apply Hbody. by apply list_elem_of_further.
  - apply (Hbody s item s'); [apply list_elem_of_here | done | done].
Qed.

Section LoaderProof.
Context (U : Unicode) (read : str -> resource_loader.file).

Lemma load_words_invariant
    (body : gset str -> resource_loader.json -> option (gset str))
    (fname : str) (P : gset str -> Prop) (words : gset str) :
  (forall data items s item s',
      read fname = resource_loader.Parsed data ->
      resource_loader.wordvalue data = Some items ->
      item ∈ items -> P s -> body s item = Some s' -> P s') ->
  P words -> P (resource_loader.load_words read body fname words).
Proof.
  intros Hbody Hwords. unfold resource_loader.load_words.
  destruct (read fname) as [| |data] eqn:Hread; try done.
  destruct (resource_loader.wordvalue data) as [items|] eqn:Hitems; [|done].
  apply load_loop_invariant; [|done].
  intros s item s'. by apply (Hbody data items).
Qed.

Lemma load_manual_spec (zipf_frequency : str -> Q) (words : gset str) :
  let words' :=
    resource_loader.load_words read
      (resource_loader.manual_item U zipf_frequency)
      (lit "xglishwordhindi.json") words in
  words ⊆ words'
  /\ forall w, w ∈ words' ->
       w ∈ words
       \/ (w <> [] /\ (zipf_frequency w <= 642 # 100)%Q
           /\ listed U read (lit "xglishwordhindi.json") true w).
Proof.
  cbv zeta.
  apply (load_words_invariant _ _
           (fun words' =>
              words ⊆ words'
              /\ forall w, w ∈ words' ->
                   w ∈ words
                   \/ (w <> [] /\ (zipf_frequency w <= 642 # 100)%Q
                       /\ listed U read (lit "xglishwordhindi.json") true w))).
  2:{ split; [done|]. intros w Hw. by left. }
  intros data items s item s' Hread Hitems Hin [Hsub Hall].
  unfold resource_loader.manual_item.
  destruct (resource_loader.get item (lit "tobeused") _) as [flag|] eqn:Hflag;
    [|done].
  cbn [mbind option_bind].
  destruct (resource_loader.truthy flag) eqn:Htruthy;
    [|by intros [= <-]].
  destruct (resource_loader.get item (lit "EnglishWord") _) as [value|]
    eqn:Hvalue; [|done].
  cbn [mbind option_bind].
  destruct value as [| | | |s0| |]; try done.
  cbn [resource_loader.lower mbind option_bind].
  destruct (bool_decide (u_lower U s0 = [])) eqn:Hempty;
    [by intros [= <-]|].
  apply bool_decide_eq_false in Hempty.
  destruct (Qltb (642 # 100) (zipf_frequency (u_lower U s0))) eqn:Hfreq;
    [by intros [= <-]|].
  intros [= <-]. split; [set_solver|].
  intros w Hw. apply elem_of_union in Hw as [Hw|Hw]; [|by apply Hall].
  apply elem_of_singleton in Hw as ->. right. split; [done|]. split.
  - apply Qnot_lt_le. intros Hlt. apply Qltb_lt in Hlt. congruence.
  - exists data, items, item, s0. repeat split; try done.
    intros _. by exists flag.
Qed.

Lemma load_tech_spec (words : gset str) :
  let words' :=
    resource_loader.load_words read (resource_loader.tech_item U)
                               (lit "TECH_TERMS.json") words in
  words ⊆ words'
  /\ forall w, w ∈ words' ->
       w ∈ words
       \/ (w <> [] /\ listed U read (lit "TECH_TERMS.json") false w).
Proof.
  cbv zeta.
  apply (load_words_invariant _ _
           (fun words' =>
              words ⊆ words'
              /\ forall w, w ∈ words' ->
                   w ∈ words
                   \/ (w <> []
                       /\ listed U read (lit "TECH_TERMS.json") false w))).
  2:{ split; [done|]. intros w Hw. by left. }
  intros data items s item s' Hread Hitems Hin [Hsub Hall].
  unfold resource_loader.tech_item.
  destruct (resource_loader.get item (lit "EnglishWord") _) as [value|]
    eqn:Hvalue; [|done].
  cbn [mbind option_bind].
  destruct value as [| | | |s0| |]; try done.
  cbn [resource_loader.lower mbind option_bind].
  destruct (bool_decide (u_lower U s0 = [])) eqn:Hempty;
    [by intros [= <-]|].
  apply bool_decide_eq_false in Hempty.
  intros [= <-]. split; [set_solver|].
  intros w Hw. apply elem_of_union in Hw as [Hw|Hw]; [|by apply Hall].
  apply elem_of_singleton in Hw as ->. right. split; [done|].
  exists data, items, item, s0. repeat split; try done.
Qed.

Lemma load_formality_file_keeps (fname : str)
    (scores : gmap str resource_loader.json) (w : str) :
  is_Some (scores !! w) ->
  is_Some ((resource_loader.load_formality_file U read fname scores).1 !! w).
Proof.
  intros Hw. unfold resource_loader.load_formality_file.
  destruct (read fname) as [| |data]; try done.
  destruct (resource_loader.wordvalue data) as [items|]; [|done].
  apply (load_loop_invariant (fun scores' => is_Some (scores' !! w)));
    [|done].
  intros s item s' _ Hs. unfold resource_loader.formality_item.
  destruct (resource_loader.get item (lit "EnglishWord") _) as [value|];
    [|done].
  cbn [mbind option_bind].
  destruct (resource_loader.lower U value) as [word|]; [|done].
  cbn [mbind option_bind].
  destruct (resource_loader.get item (lit "scale") _) as [scale|]; [|done].
  cbn [mbind option_bind]. intros [= <-].
  destruct (decide (word = w)) as [->|Hne].
  - rewrite lookup_insert_eq. by eexists.
  - by rewrite lookup_insert_ne.
Qed.
End LoaderProof.

(** X19. load_data only adds to the tables: what was loaded before stays,
    so a reload never removes a word.  Every word it adds to
    MANUAL_KEEP_WORDS is non-empty, has a Zipf frequency of at most 6.42
    and is the lowercased EnglishWord of an item of xglishwordhindi.json
    whose tobeused is true; every word it adds to TECH_TERMS is non-empty
    and is the lowercased EnglishWord of an item of TECH_TERMS.json.  This
    holds whatever the files contain, malformed files included. *)
Theorem load_data_invariant (U : Unicode) (read : str -> resource_loader.file)
    (zipf_frequency : str -> Q) (st : resource_loader.tables) :
  let st' := resource_loader.load_data U read zipf_frequency st in
  resource_loader.MANUAL_KEEP_WORDS st ⊆ resource_loader.MANUAL_KEEP_WORDS st'
  /\ resource_loader.TECH_TERMS st ⊆ resource_loader.TECH_TERMS st'
  /\ (forall w, is_Some (resource_loader.FORMALITY_SCORES st !! w) ->
                is_Some (resource_loader.FORMALITY_SCORES st' !! w))
  /\ (forall w, w ∈ resource_loader.MANUAL_KEEP_WORDS st' ->
        w ∈ resource_loader.MANUAL_KEEP_WORDS st
        \/ (w <> [] /\ (zipf_frequency w <= 642 # 100)%Q
            /\ listed U read (lit "xglishwordhindi.json") true w))
  /\ (forall w, w ∈ resource_loader.TECH_TERMS st' ->
        w ∈ resource_loader.TECH_TERMS st
        \/ (w <> [] /\ listed U read (lit "TECH_TERMS.json") false w)).
Proof.
  cbv zeta. unfold resource_loader.load_data.
  cbn [resource_loader.MANUAL_KEEP_WORDS resource_loader.TECH_TERMS
       resource_loader.FORMALITY_SCORES].
  destruct (load_manual_spec U read zipf_frequency
              (resource_loader.MANUAL_KEEP_WORDS st)) as [Hm1 Hm2].
  destruct (load_tech_spec U read (resource_loader.TECH_TERMS st))
    as [Ht1 Ht2].
  split; [done|]. split; [done|]. split; [|by split].
  intros w Hw. unfold resource_loader.load_formality.
  pose proof (load_formality_file_keeps U read (lit "informalbechmark.json")
                _ w Hw) as H1.
  destruct (resource_loader.load_formality_file U read
              (lit "informalbechmark.json") _) as [scores found].
  destruct found; [done|]. by apply load_formality_file_keeps.
Qed.

Lemma load_loop_stops {S} (body : S -> resource_loader.json -> option S)
    (pre post : list resource_loader.json) (bad : resource_loader.json) :
  (forall s, body s bad = None) ->
  forall s, (resource_loader.load_loop body (pre ++ bad :: post) s).1
            = (resource_loader.load_loop body pre s).1.
Proof.
  intros Hbad. induction pre as [|item pre IH]; intros s; simpl.
  - by rewrite Hbad.
  - destruct (body s item); [apply IH | done].
Qed.

(** X20. A malformed item silently ends the loading of a word list: when
    an item of TECH_TERMS.json is not an object or its EnglishWord is not a
    string, the technical terms loaded are those of the items before it;
    the items after it are never read. *)
Theorem load_data_stops_at_malformed_item (U : Unicode)
    (read : str -> resource_loader.file) (zipf_frequency : str -> Q)
    (st : resource_loader.tables) (data : resource_loader.json)
    (pre post : list resource_loader.json) (bad : resource_loader.json) :
  read (lit "TECH_TERMS.json") = resource_loader.Parsed data ->
  resource_loader.wordvalue data = Some (pre ++ bad :: post) ->
  (resource_loader.get bad (lit "EnglishWord") (resource_loader.JStr [])
   ≫= resource_loader.lower U) = None ->
  resource_loader.TECH_TERMS
    (resource_loader.load_data U read zipf_frequency st)
  = (resource_loader.load_loop (resource_loader.tech_item U) pre
       (resource_loader.TECH_TERMS st)).1.
Proof.
  intros Hread Hitems Hbad. unfold resource_loader.load_data.
  cbn [resource_loader.TECH_TERMS]. unfold resource_loader.load_words.
  rewrite Hread, Hitems. apply load_loop_stops.
  intros s. unfold resource_loader.tech_item.
  destruct (resource_loader.get bad (lit "EnglishWord") _) as [value|];
    [|done].
  cbn [mbind option_bind] in *. by rewrite Hbad.
Qed.

Lemma load_data_stops_at_malformed_item_witness :
  let item (word : string) :=
    resource_loader.JObj
      [(lit "EnglishWord", resource_loader.JStr (lit word))] in
  let data :=
    resource_loader.JObj
      [(lit "wordvalue",
        resource_loader.JArr
          [item "API"%string; resource_loader.JNum 7;
           item "GPU"%string])] in
  resource_loader.TECH_TERMS
    (resource_loader.load_data ascii_unicode
       (fun _ => resource_loader.Parsed data) (fun _ => 5%Q)
       resource_loader.empty_tables)
  = {[ lit "api" ]} ∪ ∅.
Proof.
  intros item data.
  rewrite (load_data_stops_at_malformed_item ascii_unicode
             (fun _ => resource_loader.Parsed data) (fun _ => 5%Q)
             resource_loader.empty_tables data
             [item "API"%string] [item "GPU"%string]
             (resource_loader.JNum 7)
             eq_refl eq_refl eq_refl).
  reflexivity.
Defined.

(* --------------------------------------------------------------------- *)
(*  The lazy model cache                                                 *)
(* --------------------------------------------------------------------- *)

Section ModelCacheProof.
Context {Model Tokenizer Processor : Type}.

Local Abbreviation cache := (model_cache Model Tokenizer Processor).
Local Abbreviation env_t := (load_env Model Tokenizer Processor).

(* a call in which the processor is built whenever the model has loaded *)
Lemma load_step (envs : list env_t) (env : env_t) (st : cache) :
  _indictrans_model st = None ->
  (is_Some (load_model env) -> is_Some (new_processor env)) ->
  let out := load_indictrans2 env st in
  cache_coherent (envs ++ [env]) out.1
  /\ forall model tokenizer processor,
       out.2 = Some (model, tokenizer, processor) ->
       load_model env = Some model
       /\ tokenizer = load_tokenizer env
       /\ processor = new_processor env
       /\ is_Some tokenizer /\ is_Some processor.
Proof.
  intros Hnone Hproc. cbv zeta. unfold load_indictrans2.
  assert (Hkeep : forall st' : cache,
            _indictrans_model st' = None -> cache_coherent (envs ++ [env]) st').
  { intros st' H model Hm. congruence. }
  destruct (prepare env); [|by split; [apply Hkeep|]].
  destruct (load_tokenizer env) as [tokenizer|] eqn:Htok;
    [|by split; [apply Hkeep|]].
  destruct (load_model env) as [model|] eqn:Hmodel;
    [|by split; [apply Hkeep|]].
  destruct (new_processor env) as [processor|] eqn:Hnew.
  2:{ destruct Hproc as [? ?]; [by eexists | done]. }
  cbn [fst snd]. split.
  - intros model' Hm. cbn in Hm. injection Hm as <-. exists env.
    split; [apply elem_of_app; right; apply list_elem_of_here|].
    cbn. rewrite Htok, Hmodel, Hnew. repeat split; by eexists.
  - intros model' tokenizer' processor' [= <- <- <-].
    repeat split; by eexists.
Qed.

Lemma call_step (envs : list env_t) (env : env_t) (st : cache) :
  cache_coherent envs st ->
  (is_Some (load_model env) -> is_Some (new_processor env)) ->
  let out := get_indictrans2_model env st in
  cache_coherent (envs ++ [env]) out.1
  /\ forall model tokenizer processor,
       out.2 = Some (model, tokenizer, processor) ->
       exists env',
         env' ∈ envs ++ [env]
         /\ target_model_name env' = target_model_name env
         /\ load_model env' = Some model
         /\ tokenizer = load_tokenizer env'
         /\ processor = new_processor env'
         /\ is_Some tokenizer /\ is_Some processor.
Proof.
  intros Hst Hproc. cbv zeta. unfold get_indictrans2_model.
  assert (Hload : forall st' : cache,
            _indictrans_model st' = None ->
            cache_coherent (envs ++ [env]) (load_indictrans2 env st').1
            /\ forall model tokenizer processor,
                 (load_indictrans2 env st').2
                 = Some (model, tokenizer, processor) ->
                 exists env',
                   env' ∈ envs ++ [env]
                   /\ target_model_name env' = target_model_name env
                   /\ load_model env' = Some model
                   /\ tokenizer = load_tokenizer env'
                   /\ processor = new_processor env'
                   /\ is_Some tokenizer /\ is_Some processor).
  { intros st' Hnone.
    destruct (load_step envs env st' Hnone Hproc) as [Hcoh Hres].
    split; [exact Hcoh|]. intros model tokenizer processor Hout.
    exists env. split; [apply elem_of_app; right; apply list_elem_of_here|].
    split; [done|]. by apply Hres. }
  destruct (_indictrans_model st) as [model|] eqn:Hmodel;
    [|by apply Hload].
  destruct (bool_decide (_indictrans_loaded_model_name st
                         = Some (target_model_name env))) eqn:Hname;
    [|by apply Hload].
  apply bool_decide_eq_true in Hname. cbn [fst snd].
  destruct (Hst model Hmodel)
    as (env' & Hin & Hname' & Hm & Htok & Hnew & Hst1 & Hst2).
  split.
  - intros model' Hm'. destruct (Hst model' Hm')
      as (e & He & H1 & H2 & H3 & H4 & H5 & H6).
    exists e. split; [apply elem_of_app; by left|]. done.
  - intros model' tokenizer' processor' [= <- <- <-]. exists env'.
    split; [apply elem_of_app; by left|].
    split; [congruence|]. rewrite Htok, Hnew. done.
Qed.

Lemma after_calls_coherent (envs : list env_t) :
  Forall (fun env => is_Some (load_model env) -> is_Some (new_processor env))
         envs ->
  cache_coherent envs (after_calls envs no_model).
Proof.
  induction envs as [|env envs IH] using rev_ind; intros Hall.
  { intros model Hm. done. }
  apply Forall_app in Hall as [Hall Henv].
  apply Forall_inv in Henv.
  unfold after_calls. rewrite foldl_app. cbn [foldl].
  apply (call_step envs env _ (IH Hall) Henv).
Qed.
End ModelCacheProof.

(** X21. As long as building the processor never fails once a model has
    loaded, the model cache never hands out a stale model: after any
    sequence of calls, a call that returns gives the model that one of the
    calls loaded for the model name configured now, together with the
    tokenizer and the processor made in that same call, none of them
    missing. *)
Theorem cached_model_matches_config {Model Tokenizer Processor : Type}
    (envs : list (load_env Model Tokenizer Processor))
    (env : load_env Model Tokenizer Processor)
    (model : Model) (tokenizer : option Tokenizer)
    (processor : option Processor) :
  Forall (fun env => is_Some (load_model env) -> is_Some (new_processor env))
         (envs ++ [env]) ->
  (get_indictrans2_model env (after_calls envs no_model)).2
  = Some (model, tokenizer, processor) ->
  exists env',
    env' ∈ envs ++ [env]
    /\ target_model_name env' = target_model_name env
    /\ load_model env' = Some model
    /\ tokenizer = load_tokenizer env'
    /\ processor = new_processor env'
    /\ is_Some tokenizer /\ is_Some processor.
Proof.
  intros Hall Hout. apply Forall_app in Hall as [Hall Henv].
  apply Forall_inv in Henv.
  destruct (call_step envs env (after_calls envs no_model)
              (after_calls_coherent envs Hall) Henv) as [_ Hres].
  by apply Hres.
Qed.

Lemma cached_model_matches_config_witness :
  exists env',
    env' ∈ [sample_env "dist-200M" (Some 7) (Some 2)]
           ++ [sample_env "dist-200M" None None]
    /\ load_model env' = Some 7.
Proof.
  destruct (cached_model_matches_config
              [sample_env "dist-200M" (Some 7) (Some 2)]
              (sample_env "dist-200M" None None) 7 (Some 1) (Some 2))
    as (env' & Hin & _ & Hmodel & _).
  - apply Forall_cons. split; [intros _; by eexists|].
    apply Forall_singleton. intros [m Hm]. discriminate.
  - vm_compute. reflexivity.
  - exists env'. split; [exact Hin | exact Hmodel].
Defined.

(* Without that condition the cache can hand out a stale model: a load for
   another name that fails at the processor leaves the new model under the
   old name. *)
Example stale_model_when_processor_fails :
  (get_indictrans2_model (sample_env "dist-200M" None None)
     (after_calls [sample_env "dist-200M" (Some 7) (Some 2);
                   sample_env "1B" (Some 8) None] no_model)).2
  = Some (8, Some 1, Some 2).
Proof. vm_compute. reflexivity. Qed.



(* --------------------------------------------------------------------- *)
(*  No whitespace is left before punctuation                             *)
(* --------------------------------------------------------------------- *)

Lemma span_app (p : char -> bool) (s : str) :
  (span p s).1 ++ (span p s).2 = s.
Proof.
  induction s as [|c s IH]; simpl; [done|].
  destruct (p c); [|done]. destruct (span p s). simpl in *. by rewrite IH.
Qed.

Section PunctProof.
Context (U : Unicode).

Lemma punct_not_space (c : char) :
  c ∈ lit ",.?!;:" -> u_isspace U c = false.
Proof.
  intros H. apply list_elem_of_In in H. vm_compute in H.
  destruct H as [<-|[<-|[<-|[<-|[<-|[<-|[]]]]]]];
    by rewrite u_isspace_ascii.
Qed.

Lemma match_spaced_punct_some (s group rest : str) :
  match_spaced_punct U s = Some (group, rest) ->
  exists p, group = [p] /\ p ∈ lit ",.?!;:" /\ length rest < length s
            /\ non_space U (group ++ rest) = non_space U s.
Proof.
  unfold match_spaced_punct.
  pose proof (span_length (u_isspace U) s) as Hlen.
  pose proof (span_app (u_isspace U) s) as Happ.
  pose proof (span_all (u_isspace U) s) as Hall.
  destruct (span (u_isspace U) s) as [run r]. cbn [fst snd] in *.
  destruct run as [|w run]; [done|].
  destruct r as [|c r]; [done|].
  destruct (bool_decide (c ∈ lit ",.?!;:")) eqn:Hc; [|done].
  apply bool_decide_eq_true in Hc. intros [= <- <-]. exists c.
  split; [done|]. split; [done|]. split; [simpl in Hlen; lia|].
  rewrite <- Happ. unfold non_space.
  rewrite (List.filter_app _ (w :: run)).
  assert (Hrun : List.filter (fun c => negb (u_isspace U c)) (w :: run) = []).
  { clear -Hall. induction (w :: run) as [|x l IH]; [done|]. simpl in *.
    apply andb_true_iff in Hall as [-> Hall]. simpl. by apply IH. }
  by rewrite Hrun.
Qed.

(* after a whitespace character that starts no match, the output does not
   go on with a punctuation mark *)
Lemma after_kept_space (fuel : nat) (w d : char) (s out : str) :
  length s <= fuel ->
  u_isspace U w = true ->
  match_spaced_punct U (w :: s) = None ->
  sub_loop (match_spaced_punct U) fuel s = d :: out ->
  bool_decide (d ∈ lit ",.?!;:") = false.
Proof.
  intros Hlen Hw Hnone Hout.
  destruct s as [|d0 s]; [by destruct fuel|].
  destruct fuel as [|fuel]; [simpl in Hlen; lia|].
  cbn [sub_loop] in Hout. unfold match_spaced_punct in Hnone, Hout.
  cbn [span] in Hnone, Hout. rewrite Hw in Hnone.
  destruct (u_isspace U d0) eqn:Hd0.
  - destruct (span (u_isspace U) s) as [run r].
    destruct r as [|c r].
    + injection Hout as <- _. apply bool_decide_eq_false. intros Hin.
      apply punct_not_space in Hin. congruence.
    + destruct (bool_decide (c ∈ lit ",.?!;:")); [done|].
      injection Hout as <- _. apply bool_decide_eq_false. intros Hin.
      apply punct_not_space in Hin. congruence.
  - injection Hout as <- _.
    by destruct (bool_decide (d0 ∈ lit ",.?!;:")).
Qed.

Lemma sub_loop_tidy (fuel : nat) :
  forall s, length s <= fuel ->
    space_before_punct U (sub_loop (match_spaced_punct U) fuel s) = false
    /\ non_space U (sub_loop (match_spaced_punct U) fuel s) = non_space U s.
Proof.
  induction fuel as [|fuel IH]; intros s Hlen.
  { destruct s; [done | simpl in Hlen; lia]. }
  destruct s as [|c s]; [done|]. simpl in Hlen. cbn [sub_loop].
  destruct (match_spaced_punct U (c :: s)) as [[group rest]|] eqn:Hm.
  - apply match_spaced_punct_some in Hm as (p & -> & Hp & Hrest & Hsame).
    simpl in Hrest. destruct (IH rest) as [Htidy Hkeep]; [lia|].
    split.
    + cbn [app space_before_punct]. rewrite (punct_not_space p Hp), Htidy.
      by destruct (sub_loop _ fuel rest).
    + rewrite <- Hsame. unfold non_space in *. cbn [app List.filter].
      by rewrite Hkeep.
  - destruct (IH s) as [Htidy Hkeep]; [lia|]. split.
    + cbn [space_before_punct]. rewrite Htidy, orb_false_r.
      destruct (sub_loop _ fuel s) as [|d out] eqn:Hout; [done|].
      destruct (u_isspace U c) eqn:Hc; [|done]. simpl.
      apply (after_kept_space fuel c d s out); [lia | done | done | done].
    + unfold non_space in *. cbn [List.filter]. by rewrite Hkeep.
Qed.
End PunctProof.

(** X23. After the punctuation fix of the V2 paths no whitespace character
    stands directly before one of the marks , . ? ! ; : and the characters
    that are not whitespace are those of the input, in order.  So no
    result of the bulk V2 path has a space before such a mark. *)
Theorem fix_punct_spacing_tidy (U : Unicode) (s : str) :
  space_before_punct U (fix_punct_spacing U s) = false
  /\ non_space U (fix_punct_spacing U s) = non_space U s
  /\ forall R W target_lang orig_text translated out,
       mix_v2_item U R W target_lang orig_text translated = Some out ->
       space_before_punct U out = false.
Proof.
  unfold fix_punct_spacing.
  destruct (sub_loop_tidy U (length s) s) as [Htidy Hkeep]; [done|].
  split; [done|]. split; [done|].
  intros R W target_lang orig_text translated out. unfold mix_v2_item.
  destruct (match get_script_name target_lang with
            | [] => Some translated
            | _ :: _ => _
            end) as [romanized|]; [|done].
  cbn [mbind option_bind]. intros [= <-]. unfold fix_punct_spacing.
  by apply sub_loop_tidy.
Qed.

(* --------------------------------------------------------------------- *)
(*  Tagging that fails                                                   *)
(* --------------------------------------------------------------------- *)

Lemma flippable_no_tags (U : Unicode) (R : Resources)
    (words clean_words : list str) (i : nat) :
  flippable U R words clean_words ∅ i = false.
Proof.
  unfold flippable.
  destruct (clean_words !! i) as [clean|]; [|done].
  destruct (words !! i) as [word|]; [|done].
  unfold lookup_tag. rewrite !lookup_empty.
  change (is_weak_tag None) with false. apply andb_false_r.
Qed.

(** X24. Tagging fails open.  When slang normalization or the tagger
    raises, or the token counts differ and the fallback tagger raises, the
    mixer goes on with an empty tag table; with an empty tag table the
    cohesion pass returns every decision array unchanged. *)
Theorem tagging_fails_open (U : Unicode) (R : Resources) (W : World)
    (text : str) :
  (normalize_slang W text = None
   \/ (forall t, get_pos_tags W t = None)
   \/ (length (word_tokenize W text)
       <> length (word_tokenize W
                    (replace (lit "gotta") (lit "got to")
                       (replace (lit "wanna") (lit "want to")
                          (replace (lit "gonna") (lit "going to")
                             (default [] (normalize_slang W text))))))
       /\ pos_tag W (word_tokenize W text) = None)) ->
  build_tags W text = ∅
  /\ forall words clean_words decisions,
       length clean_words = length words ->
       length decisions = length words ->
       cohesion U R words clean_words (build_tags W text) decisions
       = Some decisions.
Proof.
  intros Hfail.
  assert (Htags : build_tags W text = ∅).
  { unfold build_tags. destruct Hfail as [Hslang | [Htagger | [Hlen Hpos]]].
    - by rewrite Hslang.
    - destruct (normalize_slang W text); [|done]. simpl.
      by rewrite Htagger.
    - destruct (normalize_slang W text) as [tagging_text|]; [|done].
      cbn [mbind option_bind default from_option id] in *.
      destruct (get_pos_tags W _); [|done]. cbn [mbind option_bind].
      apply Nat.eqb_neq in Hlen. rewrite Hlen. by rewrite Hpos. }
  split; [exact Htags|]. rewrite Htags.
  intros words clean_words decisions Hclean Hdec.
  destruct (cohesion_runs U R words clean_words ∅ decisions Hclean Hdec)
    as (out & -> & Hlen & _ & Hout).
  f_equal. apply list_eq. intros j.
  destruct (decisions !! j) as [d|] eqn:Hd.
  - rewrite (Hout j d); [|apply lookup_lt_Some in Hd; lia | done].
    unfold cohesion_verdict. rewrite flippable_no_tags.
    by rewrite andb_false_r.
  - apply lookup_ge_None. apply lookup_ge_None in Hd. lia.
Qed.

Lemma tagging_fails_open_witness :
  build_tags sample_world (lit "come to office") = ∅
  /\ cohesion ascii_unicode sample_resources sample_words sample_words
              (build_tags sample_world (lit "come to office"))
              [false; true; true]
     = Some [false; true; true].
Proof.
  destruct (tagging_fails_open ascii_unicode sample_resources sample_world
              (lit "come to office")) as [Htags Hsame].
  - right. left. reflexivity.
  - split; [exact Htags|]. apply Hsame; reflexivity.
Defined.
